(** * A shallow embedding of the scraper's scheduling core

    The development follows the TypeScript sources:
    - [src/core/RequestQueue.ts]   : [RequestQueue] (rate limiting, backoff,
      retrying [add], [addBatch], [getStats], [destroy]);
    - [src/services/ProgressTracker.ts] : [ProgressTracker];
    - [src/services/ImageDownloader.ts] : [downloadChapter],
      [downloadSingleImage];
    - [src/utils/Helpers.ts]       : [chunk], [retry];
    - [src/types/index.ts]         : [DownloadStatus], the error classes,
      [ManagerFactory.createWithRetry].

    [RequestQueue] hands its jobs to [p-queue] (7.4) and retries them with
    [p-retry] (6.2, built on [retry]), and it is an [EventEmitter] of
    Node.js.  What the queue does depends on them, so their behaviour is
    part of the model: which errors [p-retry] retries and which error it
    rejects with, the ['error'] event [p-queue] emits when a job is
    rejected, and what becomes of an ['error'] event that has no
    listener.

    JavaScript numbers that hold millisecond counts, page counts and byte
    counts are integers here ([Z]); numbers that the code divides or
    multiplies by fractions (the backoff multiplier, the jitter, the transfer
    speed) are exact rationals ([Q]), so rounding of doubles is not part of
    the model, unless a rounding function is an explicit parameter.
    [Date.now()] and [Math.random()] are read from an explicit clock and
    from an explicit stream of draws. *)

From Stdlib Require Import ZArith QArith Qround Qminmax Qpower Lia Lqa Ascii.
From Stdlib.Strings Require Import Byte.
From stdpp Require Import gmap strings list pretty.

Local Open Scope Z_scope.

(* ===================================================================== *)
(** * src/types/index.ts                                                  *)
(* ===================================================================== *)

Module Types.

(** [export enum DownloadStatus], five members. *)
Inductive DownloadStatus : Type :=
| PENDING
| DOWNLOADING
| COMPLETED
| FAILED
| PAUSED.

#[global] Instance DownloadStatus_eq_dec : EqDecision DownloadStatus.
Proof. solve_decision. Defined.

(** The string each enum member is bound to. *)
Definition status_value (s : DownloadStatus) : string :=
  match s with
  | PENDING => "pending"
  | DOWNLOADING => "downloading"
  | COMPLETED => "completed"
  | FAILED => "failed"
  | PAUSED => "paused"
  end.

Definition all_statuses : list DownloadStatus :=
  [PENDING; DOWNLOADING; COMPLETED; FAILED; PAUSED].

(** The part of [AppConfig['performance'] & AppConfig['retry']] that the
    queue reads. *)
Record QueueConfig : Type := {
  maxConcurrent : Z;
  requestDelay : Z;
  batchSize : Z;
  maxRetries : nat;
  backoffMultiplier : Q;
  maxDelay : Q
}.

(** What a task can be rejected with: [RateLimitError] carries an optional
    [retryAfter]; a [TypeError] is kept with what [isNetworkError] of
    [is-network-error] answers for it ([network]); every other [Error] is
    kept by its message.  A task that throws something that is not an
    [Error], the [AbortError] of [p-retry], or an error whose message is
    the name of a member of [Object.prototype] (["constructor"],
    ["toString"], ...: [retry] counts messages in a plain object) is
    outside the model. *)
Inductive TaskError : Type :=
| RateLimitError (message : string) (retryAfter : option Z)
| TypeError (message : string) (network : bool)
| OtherError (message : string).

#[global] Instance TaskError_eq_dec : EqDecision TaskError.
Proof. solve_decision. Defined.

(** [error.message]. *)
Definition error_message (e : TaskError) : string :=
  match e with
  | RateLimitError m _ => m
  | TypeError m _ => m
  | OtherError m => m
  end.

(** [class DownloadError extends Error]: message, code, url, filePath. *)
Record DownloadError : Type := {
  de_message : string;
  de_code : string;
  de_url : string;
  de_filePath : option string
}.

End Types.
Import Types.

(** The defaults of [src/config/index.ts]. *)
Definition default_config : QueueConfig :=
  {| maxConcurrent := 3; requestDelay := 1500; batchSize := 5;
     maxRetries := 3; backoffMultiplier := 2; maxDelay := 10000 |}.

(* ===================================================================== *)
(** * RequestQueue: backoff                                               *)
(* ===================================================================== *)

Module Backoff.

Local Open Scope Q_scope.

Definition baseDelay : Q := 1000.

(** The [delay] local of [calculateBackoff]:
    [Math.min(baseDelay * Math.pow(backoffMultiplier, attempt), maxDelay)]. *)
Definition delay (cfg : QueueConfig) (attempt : Z) : Q :=
  Qmin (baseDelay * backoffMultiplier cfg ^ attempt) (maxDelay cfg).

(** [calculateBackoff(attempt)]; [random] is the value [Math.random()]
    returned, a number in [0, 1). *)
Definition calculateBackoff (cfg : QueueConfig) (attempt : Z) (random : Q) : Q :=
  let d := delay cfg attempt in
  let jitter := random * (1 # 10) * d in
  d + jitter.

(** The contract as the specification words it: exponent [attempt - 1]. *)
Definition spec_delay (cfg : QueueConfig) (attempt : Z) : Q :=
  Qmin (baseDelay * backoffMultiplier cfg ^ (attempt - 1)) (maxDelay cfg).


End Backoff.

(* ===================================================================== *)
(** * RequestQueue: platform pieces                                       *)
(* ===================================================================== *)

Module Platform.

(** [setTimeout(f, ms)] of Node.js: a delay that is not within
    [1 .. 2147483647] is set to 1, and a fractional delay is truncated.
    The timer is taken to fire exactly when the delay has elapsed. *)
Definition TIMEOUT_MAX : Z := 2147483647.

Definition setTimeout_delay (ms : Q) : Z :=
  if Qle_bool 1 ms && Qle_bool ms (inject_Z TIMEOUT_MAX) then Qfloor ms else 1.

(** [new URL(url)] without a base throws unless the input starts with a
    scheme: an ASCII letter, then letters, digits, [+], [-] or [.], then a
    colon.  Leading C0 controls and spaces are stripped first, and tabs and
    newlines are skipped. *)
Definition is_alpha (c : ascii) : bool :=
  let n := nat_of_ascii c in
  ((65 <=? n)%nat && (n <=? 90)%nat) || ((97 <=? n)%nat && (n <=? 122)%nat).

Definition is_digit (c : ascii) : bool :=
  let n := nat_of_ascii c in (48 <=? n)%nat && (n <=? 57)%nat.

Definition is_tab_or_newline (c : ascii) : bool :=
  let n := nat_of_ascii c in (n =? 9)%nat || (n =? 10)%nat || (n =? 13)%nat.

Definition is_scheme_char (c : ascii) : bool :=
  is_alpha c || is_digit c
  || (nat_of_ascii c =? 43)%nat || (nat_of_ascii c =? 45)%nat
  || (nat_of_ascii c =? 46)%nat.

Fixpoint strip_leading (s : string) : string :=
  match s with
  | String c rest => if (nat_of_ascii c <=? 32)%nat then strip_leading rest else s
  | EmptyString => EmptyString
  end.

(** The scheme state of the URL parser, after the first letter. *)
Fixpoint scheme_state (s : string) : bool :=
  match s with
  | EmptyString => false
  | String c rest =>
      if is_tab_or_newline c then scheme_state rest
      else if is_scheme_char c then scheme_state rest
      else (nat_of_ascii c =? 58)%nat
  end.

(** The scheme start state. *)
Fixpoint scheme_start_state (s : string) : bool :=
  match s with
  | EmptyString => false
  | String c rest =>
      if is_tab_or_newline c then scheme_start_state rest
      else if is_alpha c then scheme_state rest
      else false
  end.

Definition has_scheme (url : string) : bool :=
  scheme_start_state (strip_leading url).

(** [Array.prototype.slice(start, end)]: a negative index counts from the
    end, and both indices are clamped to the array. *)
Definition slice {A : Type} (l : list A) (start stop : Z) : list A :=
  let len := Z.of_nat (length l) in
  let k := if start <? 0 then Z.max (len + start) 0 else Z.min start len in
  let final := if stop <? 0 then Z.max (len + stop) 0 else Z.min stop len in
  take (Z.to_nat (final - k)) (drop (Z.to_nat k) l).

(** [p-retry] 6: [error instanceof TypeError && !isNetworkError(error)]
    is thrown on at once; every other [Error] goes to [onFailedAttempt]
    and to [operation.retry]. *)
Definition retried (e : TaskError) : bool :=
  match e with
  | TypeError _ network => network
  | _ => true
  end.

(** [RetryOperation.prototype.mainError] of [retry], which [p-retry]
    rejects with when no retry is left: the errors are counted by
    message, in the order they were thrown, and an error takes over
    whenever its count is at least the highest count so far. *)
Fixpoint mainError_loop (errors : list TaskError) (counts : gmap string nat)
    (mainError : option TaskError) (mainErrorCount : nat)
  : option TaskError :=
  match errors with
  | [] => mainError
  | error :: rest =>
      let count := S (default 0%nat (counts !! error_message error)) in
      let counts1 := <[error_message error := count]> counts in
      if (mainErrorCount <=? count)%nat
      then mainError_loop rest counts1 (Some error) count
      else mainError_loop rest counts1 mainError mainErrorCount
  end.

Definition mainError (errors : list TaskError) : option TaskError :=
  mainError_loop errors ∅ None 0%nat.

End Platform.
Import Platform.

(* ===================================================================== *)
(** * RequestQueue                                                        *)
(* ===================================================================== *)

Module RequestQueue.

(** A settled promise. *)
Inductive Settled (T : Type) : Type :=
| Fulfilled (value : T)
| Rejected (reason : TaskError).
Arguments Fulfilled {T} value.
Arguments Rejected {T} reason.

Definition is_fulfilled {T} (r : Settled T) : bool :=
  match r with Fulfilled _ => true | Rejected _ => false end.

Definition is_rejected {T} (r : Settled T) : bool :=
  match r with Fulfilled _ => false | Rejected _ => true end.

(** A task [() => Promise<T>] is opaque to the queue: all the queue sees
    is what the invocation made at attempt [k] (counted from 1) settles
    with.  A task whose promise never settles is outside the model. *)
Definition Task (T : Type) : Type := nat -> Settled T.

(** [queueItem.id]: [`${domain}-${Date.now()}-${Math.random()}`]. *)
Record TaskId : Type := {
  id_domain : string;
  id_time : Z;
  id_random : Q
}.

(** What the queue emits of its own, [taskComplete] and [taskError], and
    the calls it makes to the [onProgress] and [onBatchComplete]
    callbacks it was given.  Of the three events of [PQueue] that
    [setupEventListeners] emits again, ['error'] is kept in [relayed];
    ['active'] and ['idle'], which carry the counters of [PQueue] and come
    when it starts a job and runs empty, are not followed. *)
Inductive QueueEvent (T : Type) : Type :=
| taskComplete (id : TaskId) (result : T)
| taskError (id : TaskId) (error : TaskError)
| onProgressCall (attempt : nat) (retriesLeft : nat) (error : TaskError)
| onBatchCompleteCall (results : list T) (batchIndex : Z).
Arguments taskComplete {T} id result.
Arguments taskError {T} id error.
Arguments onProgressCall {T} attempt retriesLeft error.
Arguments onBatchCompleteCall {T} results batchIndex.

(** The fields of the class, the clock and the number of random draws
    made so far.  [dispatched] is a ghost log: the key and the time of
    every completed [enforceRateLimit].  [errorListener] says whether a
    listener for ['error'] is registered on the queue, and [relayed] holds
    every ['error'] event emitted on it, with whether a listener took it:
    without one, [emit('error', error)] throws inside the job of
    [PQueue], and the rejection of that job is handled by nobody. *)
Record QueueState (T : Type) : Type := {
  clock : Z;
  draws : nat;
  rateLimitMap : gmap string Z;
  requestCounts : gmap string Z;
  lastRequestTime : gmap string Z;
  emitted : list (QueueEvent T);
  dispatched : list (string * Z);
  errorListener : bool;
  relayed : list (TaskError * bool)
}.
Arguments clock {T} _.
Arguments draws {T} _.
Arguments rateLimitMap {T} _.
Arguments requestCounts {T} _.
Arguments lastRequestTime {T} _.
Arguments emitted {T} _.
Arguments dispatched {T} _.
Arguments errorListener {T} _.
Arguments relayed {T} _.

(** The errors thrown by [emit('error', error)] for want of a listener.
    Each is an unhandled rejection: the process whose entry point is
    [src/cli/index.ts] logs it and exits with code 1, and so does a
    process that leaves Node's default in place.  What a call does past
    the first of them is what it does in a process that goes on. *)
Definition unhandled {T : Type} (s : QueueState T) : list TaskError :=
  (filter (λ eb, eb.2 = false) (relayed s)).*1.

(** The options object of [add]; [None] is an absent property. *)
Record AddOptions : Type := {
  priority : option Z;
  retries : option nat;
  url : option string;
  onProgress : bool;
  abortSignal : option bool
}.

(** [add(task)] as [addBatch] calls it: [options = {}]. *)
Definition no_options : AddOptions :=
  {| priority := None; retries := None; url := None;
     onProgress := false; abortSignal := None |}.

(** The options of [addBatch]. *)
Record BatchOptions : Type := {
  opt_batchSize : option Z;
  delayBetweenBatches : option Z;
  onBatchComplete : bool
}.

Definition no_batch_options : BatchOptions :=
  {| opt_batchSize := None; delayBetweenBatches := None;
     onBatchComplete := false |}.

Inductive Sequential : Type :=
| Wait (ms : Z)
| Limit (domain : string).

(** What a started call of [add] waits for when it gives the event loop
    back: a timer ([sleep], the pause of [p-retry]), or a promise that is
    settled elsewhere (the slot [PQueue] gives the job, the promise of
    the task). *)
Inductive Suspension : Type :=
| Timer (ms : Q)
| Elsewhere.

(** Where a call of [add] stands between two turns of the event loop:
    settled, or waiting, with the segment [k] that runs when the wait is
    over.  [k] runs on the queue as it is then, without interruption, up
    to the next wait or to the end of the call. *)
Inductive Proc (T : Type) : Type :=
| Settles (r : Settled T)
| Awaits (w : Suspension) (k : QueueState T -> Turn T)
with Turn (T : Type) : Type :=
| turn (s : QueueState T) (p : Proc T).
Arguments Settles {T} r.
Arguments Awaits {T} w k.
Arguments turn {T} s p.

Definition state_of {T : Type} (t : Turn T) : QueueState T :=
  match t with turn s _ => s end.

Definition proc_of {T : Type} (t : Turn T) : Proc T :=
  match t with turn _ p => p end.

(** What the event loop does next: let time pass, or resume the call at
    index [i] of those that wait. *)
Inductive Move : Type :=
| Later (ms : Z)
| Resume (i : nat).

Section Queue.

Context {T : Type}.

(** [this.config]. *)
Variable config : QueueConfig.

(** The stream [Math.random()] draws from. *)
Variable random : nat -> Q.

(** The host name the URL parser extracts from an input that starts
    with a scheme; [None] when the parser rejects the input. *)
Variable hostname : string -> option string.

(** The pause [p-retry] itself inserts after failed attempt [k]. *)
Variable retryTimeout : nat -> Z.

(** The turns of the event loop while the batch that starts at index [i]
    of [addBatch] is under way. *)
Variable schedule : Z -> list Move.

Definition set_clock (t : Z) (s : QueueState T) : QueueState T :=
  {| clock := t; draws := draws s; rateLimitMap := rateLimitMap s;
     requestCounts := requestCounts s;
     lastRequestTime := lastRequestTime s;
     emitted := emitted s; dispatched := dispatched s;
     errorListener := errorListener s; relayed := relayed s |}.

Definition emit (e : QueueEvent T) (s : QueueState T) : QueueState T :=
  {| clock := clock s; draws := draws s; rateLimitMap := rateLimitMap s;
     requestCounts := requestCounts s;
     lastRequestTime := lastRequestTime s;
     emitted := emitted s ++ [e]; dispatched := dispatched s;
     errorListener := errorListener s; relayed := relayed s |}.

(** [Math.random()]. *)
Definition draw (s : QueueState T) : Q * QueueState T :=
  (random (draws s),
   {| clock := clock s; draws := S (draws s);
      rateLimitMap := rateLimitMap s;
      requestCounts := requestCounts s;
      lastRequestTime := lastRequestTime s;
      emitted := emitted s; dispatched := dispatched s;
      errorListener := errorListener s; relayed := relayed s |}).

(** [queue.on('error', listener)], inherited from [EventEmitter]. *)
Definition on_error (s : QueueState T) : QueueState T :=
  {| clock := clock s; draws := draws s; rateLimitMap := rateLimitMap s;
     requestCounts := requestCounts s;
     lastRequestTime := lastRequestTime s;
     emitted := emitted s; dispatched := dispatched s;
     errorListener := true; relayed := relayed s |}.

(** The ['error'] listener of [setupEventListeners]:
    [this.emit('error', error)]. *)
Definition relay_error (error : TaskError) (s : QueueState T)
  : QueueState T :=
  {| clock := clock s; draws := draws s; rateLimitMap := rateLimitMap s;
     requestCounts := requestCounts s;
     lastRequestTime := lastRequestTime s;
     emitted := emitted s; dispatched := dispatched s;
     errorListener := errorListener s;
     relayed := relayed s ++ [(error, errorListener s)] |}.

(** [getDomain(url)]. *)
Definition getDomain (url : string) : string :=
  if has_scheme url then
    match hostname url with
    | Some h => h
    | None => "unknown"
    end
  else "unknown".

(** [await this.sleep(ms)], run with nothing else scheduled. *)
Definition sleep (ms : Q) (s : QueueState T) : QueueState T :=
  set_clock (clock s + setTimeout_delay ms) s.

(** The tail of [enforceRateLimit], from
    [this.lastRequestTime.set(domain, Date.now())] on. *)
Definition record_dispatch (domain : string) (s : QueueState T)
  : QueueState T :=
  let currentCount := default 0 (requestCounts s !! domain) in
  {| clock := clock s; draws := draws s; rateLimitMap := rateLimitMap s;
     requestCounts := <[domain := currentCount + 1]> (requestCounts s);
     lastRequestTime := <[domain := clock s]> (lastRequestTime s);
     emitted := emitted s;
     dispatched := dispatched s ++ [(domain, clock s)];
     errorListener := errorListener s; relayed := relayed s |}.

(** [enforceRateLimit(domain)], run with nothing else scheduled. *)
Definition enforceRateLimit (domain : string) (s : QueueState T)
  : QueueState T :=
  let now := clock s in
  let lastRequest := default 0 (lastRequestTime s !! domain) in
  let timeSinceLastRequest := now - lastRequest in
  let minimumDelay := requestDelay config in
  let s1 :=
    if timeSinceLastRequest <? minimumDelay then
      let waitTime := minimumDelay - timeSinceLastRequest in
      sleep (inject_Z waitTime) s
    else s in
  record_dispatch domain s1.

(** A caller that awaits every call before it makes the next: time
    passes, or one call of [enforceRateLimit] runs from start to end. *)
Definition run_sequential (script : list Sequential) (s : QueueState T)
  : QueueState T :=
  foldl
    (λ acc a,
       match a with
       | Wait ms => set_clock (clock acc + Z.max 0 ms) acc
       | Limit domain => enforceRateLimit domain acc
       end)
    s script.

(** ** [add]: one call, turn by turn *)

(** The end of the job in [PQueue]: [resolve(result)], or
    [reject(error)] followed by [this.emit('error', error)], which the
    listener of [setupEventListeners] emits again on the queue. *)
Definition finish (r : Settled T) (s : QueueState T) : Turn T :=
  match r with
  | Fulfilled _ => turn s (Settles r)
  | Rejected error => turn (relay_error error s) (Settles r)
  end.

Section Job.

Variable taskFn : Task T.
Variable id : TaskId.
Variable domain : string.
Variable nretries : nat.
Variable aborted : bool.
Variable reports : bool.

(** What [p-retry] does with the error of attempt [attempt], [thrown]
    being the errors it has retried so far.  [again] is the next attempt,
    [None] when [operation.retry] finds no timeout left. *)
Definition failed (again : option (list TaskError -> QueueState T -> Turn T))
    (attempt retriesLeft : nat) (thrown : list TaskError)
    (error : TaskError) (s : QueueState T) : Turn T :=
  if retried error then
    let s1 :=
      if reports then emit (onProgressCall attempt retriesLeft error) s
      else s in
    match again with
    | Some next =>
        turn s1 (Awaits (Timer (inject_Z (retryTimeout attempt)))
                   (next (thrown ++ [error])))
    | None =>
        finish (Rejected (default error (mainError (thrown ++ [error])))) s1
    end
  else finish (Rejected error) s.

(** [await this.sleep(this.calculateBackoff(attempt)); throw error]. *)
Definition backoff (again : option (list TaskError -> QueueState T -> Turn T))
    (attempt retriesLeft : nat) (thrown : list TaskError)
    (error : TaskError) (s : QueueState T) : Turn T :=
  let (r, s1) := draw s in
  turn s1
    (Awaits (Timer (Backoff.calculateBackoff config (Z.of_nat attempt) r))
       (failed again attempt retriesLeft thrown error)).

(** The [try] around [await taskFn()] and its [catch], from the moment
    the promise of the task has settled. *)
Definition settled (again : option (list TaskError -> QueueState T -> Turn T))
    (attempt retriesLeft : nat) (thrown : list TaskError)
    (s : QueueState T) : Turn T :=
  match taskFn attempt with
  | Fulfilled result =>
      finish (Fulfilled result) (emit (taskComplete id result) s)
  | Rejected error =>
      let isLastAttempt := (attempt =? nretries + 1)%nat in
      match error with
      | RateLimitError _ retryAfter =>
          match retryAfter with
          | Some ms =>
              if ms =? 0 then backoff again attempt retriesLeft thrown error s
              else
                turn s (Awaits (Timer (inject_Z ms))
                          (failed again attempt retriesLeft thrown error))
          | None => backoff again attempt retriesLeft thrown error s
          end
      | _ =>
          if isLastAttempt then
            failed again attempt retriesLeft thrown error
              (emit (taskError id error) s)
          else backoff again attempt retriesLeft thrown error s
      end
  end.

(** The tail of [enforceRateLimit] and the call of the task. *)
Definition call (again : option (list TaskError -> QueueState T -> Turn T))
    (attempt retriesLeft : nat) (thrown : list TaskError)
    (s : QueueState T) : Turn T :=
  turn (record_dispatch domain s)
    (Awaits Elsewhere (settled again attempt retriesLeft thrown)).

(** The function handed to [pRetry], at one attempt, up to its first
    wait: the check of the abort signal and the head of
    [enforceRateLimit]. *)
Definition input (again : option (list TaskError -> QueueState T -> Turn T))
    (attempt retriesLeft : nat) (thrown : list TaskError)
    (s : QueueState T) : Turn T :=
  if aborted then
    failed again attempt retriesLeft thrown (OtherError "Request aborted") s
  else
    let now := clock s in
    let lastRequest := default 0 (lastRequestTime s !! domain) in
    let timeSinceLastRequest := now - lastRequest in
    let minimumDelay := requestDelay config in
    if timeSinceLastRequest <? minimumDelay then
      let waitTime := minimumDelay - timeSinceLastRequest in
      turn s (Awaits (Timer (inject_Z waitTime))
                (call again attempt retriesLeft thrown))
    else call again attempt retriesLeft thrown s.

(** [pRetry(input, {retries, onFailedAttempt})] of [p-retry] 6: [input]
    is called with the attempt number, from 1, until it fulfils, throws
    an error that is not retried, or no retry is left. *)
Fixpoint pRetry (retriesLeft attempt : nat) (thrown : list TaskError)
  : QueueState T -> Turn T :=
  input
    match retriesLeft with
    | O => None
    | S remaining => Some (pRetry remaining (S attempt))
    end
    attempt retriesLeft thrown.

End Job.

(** [add(taskFn, options)] up to [this.queue.add(...)] included: the id
    is made and the job waits for [PQueue] to start it.  The priority
    orders the jobs that wait; it plays no part in what a job does. *)
Definition submit (taskFn : Task T) (options : AddOptions)
    (s : QueueState T) : Proc T * QueueState T :=
  let nretries := default (maxRetries config) (retries options) in
  let target := default "unknown" (url options) in
  let domain := getDomain target in
  let (r, s1) := draw s in
  let id := {| id_domain := domain; id_time := clock s; id_random := r |} in
  let aborted := default false (abortSignal options) in
  (Awaits Elsewhere
     (pRetry taskFn id domain nretries aborted (onProgress options)
        nretries 1 []),
   s1).

(** When a wait entered at [since] is over, for a call that nothing
    else keeps waiting: a timer fires when its delay has elapsed, a
    promise settled elsewhere takes no time. *)
Definition wake (w : Suspension) (since now : Z) : Z :=
  match w with
  | Timer ms => Z.max now (since + setTimeout_delay ms)
  | Elsewhere => now
  end.

(** A call run to its end with nothing else scheduled. *)
Fixpoint run_from (since : Z) (p : Proc T) (s : QueueState T)
  : Settled T * QueueState T :=
  match p with
  | Settles r => (r, s)
  | Awaits w k =>
      match k (set_clock (wake w since (clock s)) s) with
      | turn s1 p1 => run_from (clock s1) p1 s1
      end
  end.

(** The same from a segment that has just run. *)
Definition run_turn (t : Turn T) : Settled T * QueueState T :=
  match t with turn s p => run_from (clock s) p s end.

(** [add(taskFn, options)], awaited with nothing else scheduled. *)
Definition add (taskFn : Task T) (options : AddOptions)
    (s : QueueState T) : Settled T * QueueState T :=
  let (p, s1) := submit taskFn options s in
  run_from (clock s1) p s1.

(** ** [addBatch]: the calls of a batch, together *)

(** [batch.map(task => this.add(task))]: the calls are made one after
    the other, in the same turn; each waits from then on. *)
Fixpoint submit_all (batch : list (Task T)) (s : QueueState T)
  : list (Proc T * Z) * QueueState T :=
  match batch with
  | [] => ([], s)
  | task :: rest =>
      let (p, s1) := submit task no_options s in
      let (pool, s2) := submit_all rest s1 in
      ((p, clock s1) :: pool, s2)
  end.

(** Whether a wait entered at [since] can be over at [now]. *)
Definition ready (w : Suspension) (since now : Z) : bool :=
  match w with
  | Timer ms => since + setTimeout_delay ms <=? now
  | Elsewhere => true
  end.

(** One turn of the event loop over the calls that wait, each with the
    time its wait began.  A move that is not possible (time running
    backwards, a call whose timer has not fired, a settled call) changes
    nothing. *)
Definition move (m : Move) (pool : list (Proc T * Z)) (s : QueueState T)
  : list (Proc T * Z) * QueueState T :=
  match m with
  | Later ms => (pool, set_clock (clock s + Z.max 0 ms) s)
  | Resume i =>
      match pool !! i with
      | Some (Awaits w k, since) =>
          if ready w since (clock s) then
            match k s with
            | turn s1 p1 => (<[i := (p1, clock s1)]> pool, s1)
            end
          else (pool, s)
      | _ => (pool, s)
      end
  end.

Fixpoint moves (turns : list Move) (pool : list (Proc T * Z))
    (s : QueueState T) : list (Proc T * Z) * QueueState T :=
  match turns with
  | [] => (pool, s)
  | m :: rest => let (pool1, s1) := move m pool s in moves rest pool1 s1
  end.

(** The calls that still wait when the listed turns are over are run to
    their end, one after the other. *)
Fixpoint drain (pool : list (Proc T * Z)) (s : QueueState T)
  : list (Settled T) * QueueState T :=
  match pool with
  | [] => ([], s)
  | (p, since) :: rest =>
      let (r, s1) := run_from since p s in
      let (rs, s2) := drain rest s1 in
      (r :: rs, s2)
  end.

(** [Promise.allSettled(batch.map(task => this.add(task)))]: one outcome
    per task of the batch, in the order of the batch.  The calls are
    started together and [PQueue] lets up to [maxConcurrent] of them run
    at once, within its interval cap: how their segments follow one
    another is given by [turns], and every order the event loop can
    take is one choice of it. *)
Definition allSettled (turns : list Move) (batch : list (Task T))
    (s : QueueState T) : list (Settled T) * QueueState T :=
  let (pool, s1) := submit_all batch s in
  let (pool1, s2) := moves turns pool s1 in
  drain pool1 s2.

Definition settled_value (r : Settled T) : option T :=
  match r with Fulfilled v => Some v | Rejected _ => None end.

Definition settled_reason (r : Settled T) : option TaskError :=
  match r with Fulfilled _ => None | Rejected e => Some e end.

(** [.filter(r => r.status === 'fulfilled').map(r => r.value)]. *)
Definition successfulResults (batchResults : list (Settled T)) : list T :=
  omap settled_value (List.filter is_fulfilled batchResults).

(** [.filter(r => r.status === 'rejected').map(r => r.reason)]. *)
Definition failedResults (batchResults : list (Settled T))
  : list TaskError :=
  omap settled_reason (List.filter is_rejected batchResults).

(** The [for] loop of [addBatch], with [results] so far; [None] when
    [fuel] iterations were not enough to leave it.  [failedResults] is
    computed for the log only. *)
Fixpoint addBatch_loop (fuel : nat) (tasks : list (Task T))
    (size delay : Z) (callback : bool) (i : Z) (results : list T)
    (s : QueueState T) : option (list T * QueueState T) :=
  if i <? Z.of_nat (length tasks) then
    match fuel with
    | O => None
    | S fuel' =>
        let batch := slice tasks i (i + size) in
        let batchIndex := i / size in
        let (batchResults, s1) := allSettled (schedule i) batch s in
        let successful := successfulResults batchResults in
        let results' := results ++ successful in
        let s2 :=
          if callback
          then emit (onBatchCompleteCall successful batchIndex) s1
          else s1 in
        let s3 :=
          if (i + size <? Z.of_nat (length tasks)) && (0 <? delay)
          then sleep (inject_Z delay) s2
          else s2 in
        addBatch_loop fuel' tasks size delay callback (i + size) results' s3
    end
  else Some (results, s).

(** [addBatch(tasks, options)]: the array it resolves with, and the
    queue afterwards. *)
Definition addBatch (fuel : nat) (tasks : list (Task T))
    (options : BatchOptions) (s : QueueState T)
  : option (list T * QueueState T) :=
  let size := default (batchSize config) (opt_batchSize options) in
  let delay := default (requestDelay config) (delayBetweenBatches options) in
  addBatch_loop fuel tasks size delay (onBatchComplete options) 0 [] s.

(** [destroy()], once [onIdle] has resolved: the three maps are
    cleared; the class keeps no other record of having been destroyed. *)
Definition destroy (s : QueueState T) : QueueState T :=
  {| clock := clock s; draws := draws s; rateLimitMap := ∅;
     requestCounts := ∅; lastRequestTime := ∅;
     emitted := emitted s; dispatched := dispatched s;
     errorListener := errorListener s; relayed := relayed s |}.

(** A queue as the constructor leaves it, at time [now]: no listener
    for ['error'] is registered on it. *)
Definition new_queue (now : Z) : QueueState T :=
  {| clock := now; draws := 0; rateLimitMap := ∅; requestCounts := ∅;
     lastRequestTime := ∅; emitted := []; dispatched := [];
     errorListener := false; relayed := [] |}.

(** What [add] settles with, read off the task alone: the first
    fulfilled attempt among [1 .. retries + 1]; else the first error
    that [p-retry] does not retry; else the main error of those it has
    retried. *)
Fixpoint outcome_from (taskFn : Task T) (retriesLeft attempt : nat)
    (thrown : list TaskError) : Settled T :=
  match taskFn attempt with
  | Fulfilled v => Fulfilled v
  | Rejected e =>
      if retried e then
        match retriesLeft with
        | O => Rejected (default e (mainError (thrown ++ [e])))
        | S remaining =>
            outcome_from taskFn remaining (S attempt) (thrown ++ [e])
        end
      else Rejected e
  end.

Definition outcome (nretries : nat) (taskFn : Task T) : Settled T :=
  outcome_from taskFn nretries 1 [].

End Queue.

(** From [s] to [s'] every dispatch was made under [key], and the
    rate-limit state of every other key is as it was. *)
Definition touches_only {T : Type} (key : string) (s s' : QueueState T)
  : Prop :=
  (exists ts, dispatched s' = dispatched s ++ ((λ t, (key, t)) <$> ts))
  /\ (forall k, k ≠ key ->
        lastRequestTime s' !! k = lastRequestTime s !! k
        /\ requestCounts s' !! k = requestCounts s !! k).

(** No call made for [tasks] ends in an ['error'] that nobody listens
    for: a listener is registered on the queue, or no task is rejected
    for good. *)
Definition no_unhandled_error {T : Type} (config : QueueConfig)
    (tasks : list (Task T)) (s : QueueState T) : Prop :=
  errorListener s = true
  \/ Forall (λ task, is_fulfilled (outcome (maxRetries config) task) = true)
       tasks.

(** Whatever the other calls do in between, as long as they keep [I]:
    every segment of the call keeps [I], and the call can only settle
    with a result that satisfies [Q]. *)
Inductive leads {T : Type} (I : QueueState T -> Prop)
    (Q : Settled T -> Prop) : Proc T -> Prop :=
| leads_settles (r : Settled T) :
    Q r -> leads I Q (Settles r)
| leads_awaits (w : Suspension) (k : QueueState T -> Turn T) :
    (forall s, I s -> I (state_of (k s))) ->
    (forall s, I s -> leads I Q (proc_of (k s))) ->
    leads I Q (Awaits w k).

(** The same of a segment that has just run. *)
Definition good {T : Type} (I : QueueState T -> Prop)
    (Q : Settled T -> Prop) (t : Turn T) : Prop :=
  I (state_of t) /\ leads I Q (proc_of t).

(** Every ['error'] event keeps [I]. *)
Definition relay_keeps {T : Type} (I : QueueState T -> Prop) : Prop :=
  forall e s, I s -> I (relay_error e s).

(** The steps a call is made of keep [I]: time passing, the events of
    its own and the calls of [onProgress], a draw, a dispatch under
    [domain]. *)
Definition kept {T : Type} (random : nat -> Q) (I : QueueState T -> Prop)
    (domain : string) : Prop :=
  (forall t s, I s -> I (set_clock t s))
  /\ (forall e s, (forall rs i, e ≠ onBatchCompleteCall rs i) ->
        I s -> I (emit e s))
  /\ (forall s, I s -> I (draw random s).2)
  /\ (forall s, I s -> I (record_dispatch domain s)).

(** The task as the attempts of a call see it: with the abort signal
    set, every attempt ends in ["Request aborted"] before the task is
    called. *)
Definition seen {T : Type} (aborted : bool) (taskFn : Task T) : Task T :=
  if aborted then fun _ => Rejected (OtherError "Request aborted")
  else taskFn.

(** What [failed] leads to, given what the next attempt leads to. *)
Definition after_failure {T : Type} (I : QueueState T -> Prop)
    (Q : Settled T -> Prop)
    (again : option (list TaskError -> QueueState T -> Turn T))
    (thrown : list TaskError) (e : TaskError) : Prop :=
  if retried e then
    match again with
    | Some next => forall s, I s -> good I Q (next (thrown ++ [e]) s)
    | None =>
        relay_keeps I
        /\ Q (Rejected (default e (mainError (thrown ++ [e]))))
    end
  else relay_keeps I /\ Q (Rejected e).

(** The calls of [pool] keep [I] and settle with [rs], in this order. *)
Definition pool_leads {T : Type} (I : QueueState T -> Prop)
    (pool : list (Proc T * Z)) (rs : list (Settled T)) : Prop :=
  Forall2 (λ slot r, leads I (eq r) slot.1) pool rs.

End RequestQueue.

(* ===================================================================== *)
(** * RequestQueue: calls of [enforceRateLimit] that overlap              *)
(* ===================================================================== *)

(** [PQueue] starts up to [maxConcurrent] tasks, and every started task is
    an [async] function on the one event loop: a call runs until its next
    [await], and the only [await] of [enforceRateLimit] is the
    [await this.sleep(waitTime)] between reading [lastRequestTime] and
    writing it.  A schedule says which call the event loop runs next and how
    time passes in between. *)
Module Interleaving.
Import RequestQueue.

(** Where a call of [enforceRateLimit(domain)] stands. *)
Inductive Call : Type :=
| Called (domain : string)
| Sleeping (domain : string) (wakeAt : Z)
| Returned (domain : string).

Inductive Action : Type :=
| Elapse (ms : Z)
| Run (i : nat).

Record Loop (T : Type) : Type := {
  queue : QueueState T;
  calls : list Call
}.
Arguments queue {T} _.
Arguments calls {T} _.

Section Loop.

Context {T : Type}.
Variable config : QueueConfig.

(** The first segment of [enforceRateLimit]: up to the [await], or to
    the end when there is nothing to wait for. *)
Definition enter (domain : string) (s : QueueState T)
  : Call * QueueState T :=
  let now := clock s in
  let lastRequest := default 0 (lastRequestTime s !! domain) in
  let timeSinceLastRequest := now - lastRequest in
  let minimumDelay := requestDelay config in
  if timeSinceLastRequest <? minimumDelay then
    let waitTime := minimumDelay - timeSinceLastRequest in
    (Sleeping domain (now + setTimeout_delay (inject_Z waitTime)), s)
  else (Returned domain, record_dispatch domain s).

(** One turn of the event loop; [None] when the action is not enabled:
    time does not run backwards, a sleeping call is not resumed before
    its timer fires, a returned call is not run again. *)
Definition step (a : Action) (l : Loop T) : option (Loop T) :=
  match a with
  | Elapse ms =>
      if 0 <=? ms then
        Some {| queue := set_clock (clock (queue l) + ms) (queue l);
                calls := calls l |}
      else None
  | Run i =>
      match calls l !! i with
      | Some (Called domain) =>
          let (c, s1) := enter domain (queue l) in
          Some {| queue := s1; calls := <[i := c]> (calls l) |}
      | Some (Sleeping domain wakeAt) =>
          if wakeAt <=? clock (queue l) then
            Some {| queue := record_dispatch domain (queue l);
                    calls := <[i := Returned domain]> (calls l) |}
          else None
      | Some (Returned _) => None
      | None => None
      end
  end.

(** The calls of [enforceRateLimit] that the tasks of a batch make at
    their first attempt: [addBatch] submits each with [this.add(task)],
    so each call gets the key of an [add] without options. *)
Definition batch_calls (hostname : string -> option string)
    (batch : list (Task T)) : list Call :=
  (λ _, Called (getDomain hostname (default "unknown" (url no_options))))
    <$> batch.

Fixpoint run (schedule : list Action) (l : Loop T) : option (Loop T) :=
  match schedule with
  | [] => Some l
  | a :: rest =>
      match step a l with
      | Some l1 => run rest l1
      | None => None
      end
  end.

End Loop.

(** The invariant of the dispatch log: a dispatch to a key comes at least
    [minDelay] after the previous dispatch to that key.  [previous] holds
    the latest dispatch time of every key seen so far. *)
Fixpoint spaced_from (minDelay : Z) (previous : gmap string Z)
    (log : list (string * Z)) : bool :=
  match log with
  | [] => true
  | (key, t) :: rest =>
      match previous !! key with
      | Some t0 => minDelay <=? t - t0
      | None => true
      end
      && spaced_from minDelay (<[key := t]> previous) rest
  end.

Definition spaced (minDelay : Z) (log : list (string * Z)) : bool :=
  spaced_from minDelay ∅ log.

(** The latest dispatch time of every key, after [log]. *)
Definition latest (previous : gmap string Z) (log : list (string * Z))
  : gmap string Z :=
  foldl (λ m kt, <[kt.1 := kt.2]> m) previous log.

(** What holds between two calls of a sequential caller: no recorded
    dispatch lies in the future, [lastRequestTime] is the latest dispatch of
    every key, and the log is spaced. *)
Definition settled_queue {T : Type} (d : Z) (s : QueueState T) : Prop :=
  (forall k t, lastRequestTime s !! k = Some t -> t <= clock s)
  /\ latest ∅ (dispatched s) = lastRequestTime s
  /\ spaced d (dispatched s) = true.

End Interleaving.

(* ===================================================================== *)
(** * ProgressTracker                                                     *)
(* ===================================================================== *)

(** [new Date()] is the argument [now] (milliseconds) of every operation.
    The two maps are keyed by id; the order in which a JavaScript [Map]
    iterates is not kept, so the periodic update reports the entries in key
    order.  Calls of the logger are left out. *)
Module ProgressTracker.

Local Open Scope Q_scope.

(** [interface ProgressEntry], with the untyped [lastDownloadedBytes]
    that [calculateSpeed] stores on the entry ([None]: not yet set). *)
Record ProgressEntry : Type := {
  id : string;
  seriesName : string;
  episodeName : string;
  status : DownloadStatus;
  currentPage : Z;
  totalPages : Z;
  downloadedBytes : Z;
  totalBytes : Z;
  startTime : Z;
  lastUpdate : Z;
  speed : Q;
  errors : list string;
  lastDownloadedBytes : option Z
}.

(** [interface DownloadProgress]. *)
Record DownloadProgress : Type := {
  dp_seriesName : string;
  dp_episodeName : string;
  dp_currentPage : Z;
  dp_totalPages : Z;
  dp_downloadedBytes : Z;
  dp_totalBytes : Z;
  dp_speed : string;
  dp_eta : string;
  dp_percentage : Q
}.

Inductive Event : Type :=
| progressStart (p : DownloadProgress)
| progressUpdate (p : DownloadProgress)
| progressComplete (p : DownloadProgress)
| progressPause (p : DownloadProgress)
| progressResume (p : DownloadProgress)
| progressCancel (p : DownloadProgress).

Record Tracker : Type := {
  activeProgress : gmap string ProgressEntry;
  completedProgress : gmap string ProgressEntry;
  events : list Event
}.

(** The third argument of [updateProgress]. *)
Record AdditionalData : Type := {
  ad_downloadedBytes : option Z;
  ad_totalBytes : option Z;
  ad_error : option string
}.

Definition set_status (st : DownloadStatus) (e : ProgressEntry)
  : ProgressEntry :=
  {| id := id e; seriesName := seriesName e; episodeName := episodeName e;
     status := st; currentPage := currentPage e;
     totalPages := totalPages e; downloadedBytes := downloadedBytes e;
     totalBytes := totalBytes e; startTime := startTime e;
     lastUpdate := lastUpdate e; speed := speed e; errors := errors e;
     lastDownloadedBytes := lastDownloadedBytes e |}.

Definition set_currentPage (p : Z) (e : ProgressEntry) : ProgressEntry :=
  {| id := id e; seriesName := seriesName e; episodeName := episodeName e;
     status := status e; currentPage := p;
     totalPages := totalPages e; downloadedBytes := downloadedBytes e;
     totalBytes := totalBytes e; startTime := startTime e;
     lastUpdate := lastUpdate e; speed := speed e; errors := errors e;
     lastDownloadedBytes := lastDownloadedBytes e |}.

Definition set_lastUpdate (t : Z) (e : ProgressEntry) : ProgressEntry :=
  {| id := id e; seriesName := seriesName e; episodeName := episodeName e;
     status := status e; currentPage := currentPage e;
     totalPages := totalPages e; downloadedBytes := downloadedBytes e;
     totalBytes := totalBytes e; startTime := startTime e;
     lastUpdate := t; speed := speed e; errors := errors e;
     lastDownloadedBytes := lastDownloadedBytes e |}.

Definition set_bytes (downloaded total : Z) (e : ProgressEntry)
  : ProgressEntry :=
  {| id := id e; seriesName := seriesName e; episodeName := episodeName e;
     status := status e; currentPage := currentPage e;
     totalPages := totalPages e; downloadedBytes := downloaded;
     totalBytes := total; startTime := startTime e;
     lastUpdate := lastUpdate e; speed := speed e; errors := errors e;
     lastDownloadedBytes := lastDownloadedBytes e |}.

Definition push_error (msg : string) (e : ProgressEntry) : ProgressEntry :=
  {| id := id e; seriesName := seriesName e; episodeName := episodeName e;
     status := status e; currentPage := currentPage e;
     totalPages := totalPages e; downloadedBytes := downloadedBytes e;
     totalBytes := totalBytes e; startTime := startTime e;
     lastUpdate := lastUpdate e; speed := speed e;
     errors := (errors e ++ [msg])%list;
     lastDownloadedBytes := lastDownloadedBytes e |}.

(** [calculateSpeed(entry)]. *)
Definition calculateSpeed (now : Z) (e : ProgressEntry) : ProgressEntry :=
  let timeDiff := inject_Z (now - lastUpdate e) / 1000 in
  let e1 :=
    if Qlt_le_dec 0 timeDiff then
      let bytesDiff :=
        match lastDownloadedBytes e with
        | Some previous => (downloadedBytes e - previous)%Z
        | None => 0%Z
        end in
      {| id := id e; seriesName := seriesName e;
         episodeName := episodeName e; status := status e;
         currentPage := currentPage e; totalPages := totalPages e;
         downloadedBytes := downloadedBytes e; totalBytes := totalBytes e;
         startTime := startTime e; lastUpdate := lastUpdate e;
         speed := inject_Z bytesDiff / timeDiff; errors := errors e;
         lastDownloadedBytes := Some (downloadedBytes e) |}
    else e in
  set_lastUpdate now e1.

(** [calculateETA(entry)]. *)
Definition calculateETA (e : ProgressEntry) : Q :=
  if Qle_bool (speed e) 0 || (totalPages e <=? currentPage e)%Z then 0
  else
    let remainingPages := (totalPages e - currentPage e)%Z in
    let avgTimePerPage :=
      if Qlt_le_dec 0 (speed e) then 1000 / speed e else 0 in
    inject_Z remainingPages * avgTimePerPage.

(** [Math.round]: the nearest integer, halves upwards. *)
Definition Math_round (x : Q) : Z := Qfloor (x + (1 # 2)).

(** [formatSpeed(bytesPerSecond)]. *)
Definition formatSpeed (bytesPerSecond : Q) : string :=
  if Qlt_le_dec bytesPerSecond 1024 then
    pretty (Math_round bytesPerSecond) +:+ " B/s"
  else if Qlt_le_dec bytesPerSecond (1024 * 1024) then
    pretty (Math_round (bytesPerSecond / 1024)) +:+ " KB/s"
  else
    pretty (Math_round (bytesPerSecond / (1024 * 1024))) +:+ " MB/s".

(** [formatETA(ms)]. *)
Definition formatETA (ms : Q) : string :=
  if Qle_bool ms 0 then "0s"
  else
    let seconds := Qfloor (ms / 1000) in
    let minutes := (seconds / 60)%Z in
    let hours := (minutes / 60)%Z in
    if (0 <? hours)%Z then
      pretty hours +:+ "h " +:+ pretty (minutes mod 60)%Z +:+ "m"
    else if (0 <? minutes)%Z then
      pretty minutes +:+ "m " +:+ pretty (seconds mod 60)%Z +:+ "s"
    else pretty seconds +:+ "s".

(** [createProgressObject(entry)]. *)
Definition createProgressObject (e : ProgressEntry) : DownloadProgress :=
  let percentage :=
    if (0 <? totalPages e)%Z
    then inject_Z (currentPage e) / inject_Z (totalPages e) * 100
    else 0 in
  let eta := calculateETA e in
  {| dp_seriesName := seriesName e;
     dp_episodeName := episodeName e;
     dp_currentPage := currentPage e;
     dp_totalPages := totalPages e;
     dp_downloadedBytes := downloadedBytes e;
     dp_totalBytes := totalBytes e;
     dp_speed := formatSpeed (speed e);
     dp_eta := formatETA eta;
     dp_percentage := inject_Z (Math_round (percentage * 100)) / 100 |}.

Definition emit (ev : Event) (t : Tracker) : Tracker :=
  {| activeProgress := activeProgress t;
     completedProgress := completedProgress t;
     events := (events t ++ [ev])%list |}.

(** [new ProgressTracker()]. *)
Definition new_tracker : Tracker :=
  {| activeProgress := ∅; completedProgress := ∅; events := [] |}.

(** [start(id, totalPages, seriesName, episodeName)]; an absent name
    takes its default. *)
Definition start (now : Z) (key : string) (total : Z)
    (series episode : option string) (t : Tracker) : Tracker :=
  let entry :=
    {| id := key;
       seriesName := default "Unknown Series" series;
       episodeName := default "Unknown Episode" episode;
       status := PENDING; currentPage := 0; totalPages := total;
       downloadedBytes := 0; totalBytes := 0; startTime := now;
       lastUpdate := now; speed := 0; errors := [];
       lastDownloadedBytes := None |} in
  {| activeProgress := <[key := entry]> (activeProgress t);
     completedProgress := completedProgress t;
     events := (events t ++ [progressStart (createProgressObject entry)])%list |}.

(** [updateProgress(id, currentPage, additionalData?)]. *)
Definition updateProgress (now : Z) (key : string) (page : Z)
    (additionalData : option AdditionalData) (t : Tracker) : Tracker :=
  match activeProgress t !! key with
  | None => t
  | Some entry =>
      let e1 := set_status DOWNLOADING (set_currentPage page entry) in
      let e2 :=
        match additionalData ≫= ad_downloadedBytes with
        | Some b => set_bytes b (totalBytes e1) e1
        | None => e1
        end in
      let e3 :=
        match additionalData ≫= ad_totalBytes with
        | Some b => set_bytes (downloadedBytes e2) b e2
        | None => e2
        end in
      let e4 :=
        match additionalData ≫= ad_error with
        | Some msg => if decide (msg = "") then e3 else push_error msg e3
        | None => e3
        end in
      let e5 := calculateSpeed now e4 in
      {| activeProgress := <[key := e5]> (activeProgress t);
         completedProgress := completedProgress t;
         events := (events t ++ [progressUpdate (createProgressObject e5)])%list |}
  end.

(** [complete(id, success = true)]. *)
Definition complete (now : Z) (key : string) (success : bool)
    (t : Tracker) : Tracker :=
  match activeProgress t !! key with
  | None => t
  | Some entry =>
      let e1 := set_status (if success then COMPLETED else FAILED) entry in
      let e2 := set_lastUpdate now e1 in
      let e3 := if success then set_currentPage (totalPages e2) e2 else e2 in
      {| activeProgress := delete key (activeProgress t);
         completedProgress := <[key := e3]> (completedProgress t);
         events := (events t ++ [progressComplete (createProgressObject e3)])%list |}
  end.

(** [pause(id)]. *)
Definition pause (key : string) (t : Tracker) : Tracker :=
  match activeProgress t !! key with
  | Some entry =>
      let e1 := set_status PAUSED entry in
      {| activeProgress := <[key := e1]> (activeProgress t);
         completedProgress := completedProgress t;
         events := (events t ++ [progressPause (createProgressObject e1)])%list |}
  | None => t
  end.

(** [resume(id)]. *)
Definition resume (key : string) (t : Tracker) : Tracker :=
  match activeProgress t !! key with
  | Some entry =>
      let e1 := set_status DOWNLOADING entry in
      {| activeProgress := <[key := e1]> (activeProgress t);
         completedProgress := completedProgress t;
         events := (events t ++ [progressResume (createProgressObject e1)])%list |}
  | None => t
  end.

(** [cancel(id)]. *)
Definition cancel (key : string) (t : Tracker) : Tracker :=
  match activeProgress t !! key with
  | Some entry =>
      let e1 := set_status FAILED entry in
      {| activeProgress := delete key (activeProgress t);
         completedProgress := <[key := e1]> (completedProgress t);
         events := (events t ++ [progressCancel (createProgressObject e1)])%list |}
  | None => t
  end.

(** [updateAllProgress()], the body of the one-second interval. *)
Definition updateAllProgress (now : Z) (t : Tracker) : Tracker :=
  let active := calculateSpeed now <$> activeProgress t in
  {| activeProgress := active;
     completedProgress := completedProgress t;
     events :=
       (events t ++
        ((λ kv, progressUpdate (createProgressObject kv.2))
           <$> map_to_list active))%list |}.

(** [clearCompleted()]. *)
Definition clearCompleted (t : Tracker) : Tracker :=
  {| activeProgress := activeProgress t; completedProgress := ∅;
     events := events t |}.

(** [clearAll()]. *)
Definition clearAll (t : Tracker) : Tracker :=
  {| activeProgress := ∅; completedProgress := ∅; events := events t |}.

(** [getProgress(id)]. *)
Definition getProgress (key : string) (t : Tracker)
  : option DownloadProgress :=
  match activeProgress t !! key with
  | Some entry => Some (createProgressObject entry)
  | None => createProgressObject <$> completedProgress t !! key
  end.

(** The calls a client can make, and the timer. *)
Inductive Op : Type :=
| OpStart (now : Z) (key : string) (total : Z) (series episode : option string)
| OpUpdateProgress (now : Z) (key : string) (page : Z)
    (additionalData : option AdditionalData)
| OpComplete (now : Z) (key : string) (success : bool)
| OpPause (key : string)
| OpResume (key : string)
| OpCancel (key : string)
| OpTick (now : Z)
| OpClearCompleted
| OpClearAll.

Definition apply (op : Op) (t : Tracker) : Tracker :=
  match op with
  | OpStart now key total series episode => start now key total series episode t
  | OpUpdateProgress now key page ad => updateProgress now key page ad t
  | OpComplete now key success => complete now key success t
  | OpPause key => pause key t
  | OpResume key => resume key t
  | OpCancel key => cancel key t
  | OpTick now => updateAllProgress now t
  | OpClearCompleted => clearCompleted t
  | OpClearAll => clearAll t
  end.

Definition apply_all (ops : list Op) (t : Tracker) : Tracker :=
  foldl (λ acc op, apply op acc) t ops.

(** The statuses the tracker treats as final: the ones it files an entry
    under when it moves it to [completedProgress]. *)
Definition terminal (st : DownloadStatus) : bool :=
  match st with
  | COMPLETED | FAILED => true
  | _ => false
  end.

(** The operations that write to [completedProgress]. *)
Definition writes_completed (op : Op) : bool :=
  match op with
  | OpComplete _ _ _ | OpCancel _ | OpClearCompleted | OpClearAll => true
  | _ => false
  end.

(** What is filed under [key], if anything, has a final status. *)
Definition filed_as_final (key : string) (t : Tracker) : Prop :=
  match completedProgress t !! key with
  | Some e => terminal (status e) = true
  | None => True
  end.

End ProgressTracker.

(* ===================================================================== *)
(** * ImageDownloader.downloadSingleImage                                 *)
(* ===================================================================== *)

(** The file system is a map from paths to contents.  The path
    [join(episodePath, filename)] and the result of [getImageFormat] come
    from the [path] library and are arguments here; what [axios], the
    response stream, [sharp] and [unlinkSync] do is given by the
    environment of the call. *)
Module ImageDownloader.

Definition FileSystem : Type := gmap string (list byte).

(** What [String.prototype.includes] decides. *)
Fixpoint includes (s search : string) : bool :=
  String.prefix search s
  || match s with
     | EmptyString => false
     | String _ rest => includes rest search
     end.

(** The response of the GET request: the two headers that are read, the
    chunks the stream delivers, and the error it ends with, if any. *)
Record Response : Type := {
  content_type : option string;
  content_length : option Z;
  chunks : list (list byte);
  streamError : option string
}.

Inductive AxiosResult : Type :=
| AxiosError (name message : string)
| AxiosResponse (response : Response).

(** A call of [convertImage]: the path the pattern replacement yields and
    what [sharp(...).toFile] writes there ([None]: it throws). *)
Record Conversion : Type := {
  outputPath : string;
  sharpOutput : option (list byte)
}.

Record Environment : Type := {
  axiosResult : AxiosResult;
  unlinkThrows : bool;
  conversion : Conversion
}.

Record Options : Type := {
  skipExisting : bool;
  imageFormat : option string
}.

(** The argument of an [onProgress] call; the percentage is derived from
    the two counts. *)
Record ProgressReport : Type := {
  pr_downloadedBytes : Z;
  pr_totalBytes : Z
}.

Inductive Outcome : Type :=
| Resolved (success : bool) (downloadedBytes : Z)
| Threw (error : DownloadError).

(** [existsSync(path)]. *)
Definition existsSync (path : string) (fs : FileSystem) : bool :=
  bool_decide (is_Some (fs !! path)).

(** [try { unlinkSync(path) } catch (e) { }]. *)
Definition try_unlink (throws : bool) (path : string) (fs : FileSystem)
  : FileSystem :=
  if throws then fs else delete path fs.

(** The [data] listener, over the chunks received. *)
Fixpoint on_data (reports : bool) (contentLength : Z)
    (received : list (list byte)) (downloadedBytes : Z)
  : Z * list ProgressReport :=
  match received with
  | [] => (downloadedBytes, [])
  | chunk :: rest =>
      let downloadedBytes' := downloadedBytes + Z.of_nat (length chunk) in
      let report :=
        if reports && (0 <? contentLength)
        then [{| pr_downloadedBytes := downloadedBytes';
                 pr_totalBytes := contentLength |}]
        else [] in
      let (total, reports') := on_data reports contentLength rest downloadedBytes' in
      (total, report ++ reports')
  end.

(** [convertImage(filepath, format, quality)]; nothing it throws leaves
    it. *)
Definition convertImage (env : Environment) (filepath : string)
    (fs : FileSystem) : FileSystem :=
  match sharpOutput (conversion env) with
  | None => fs
  | Some bytes =>
      let fs1 := <[outputPath (conversion env) := bytes]> fs in
      if decide (filepath = outputPath (conversion env)) then fs1
      else if unlinkThrows env then fs1
      else delete filepath fs1
  end.

(** The error the [catch] block throws for the text of the caught one. *)
Definition download_failed (imageUrl filepath errorText : string)
  : DownloadError :=
  {| de_message := "Download failed: " +:+ errorText;
     de_code := "DOWNLOAD_FAILED";
     de_url := imageUrl;
     de_filePath := Some filepath |}.

(** [response.headers['content-type']?.includes('image')], with an
    absent header counting as a failed test. *)
Definition declares_image (response : Response) : bool :=
  from_option (λ ct, includes ct "image") false (content_type response).

(** The [catch] block. *)
Definition on_failure (env : Environment) (filepath imageUrl : string)
    (errorText : string) (fs : FileSystem) : Outcome * FileSystem :=
  let fs1 :=
    if existsSync filepath fs
    then try_unlink (unlinkThrows env) filepath fs
    else fs in
  (Threw (download_failed imageUrl filepath errorText), fs1).

(** The [try] block with its [catch]. *)
Definition download (env : Environment)
    (imageUrl filepath urlFormat : string) (options : Options)
    (reports : bool) (fs : FileSystem)
  : Outcome * FileSystem * list ProgressReport :=
  match axiosResult env with
  | AxiosError name message =>
      (on_failure env filepath imageUrl (name +:+ ": " +:+ message) fs, [])
  | AxiosResponse response =>
      if negb (declares_image response) then
        (on_failure env filepath imageUrl
           "DownloadError: Invalid content type" fs, [])
      else
        let contentLength := default 0 (content_length response) in
        let (downloadedBytes, calls) :=
          on_data reports contentLength (chunks response) 0 in
        let fs1 := <[filepath := concat (chunks response)]> fs in
        match streamError response with
        | Some message =>
            (on_failure env filepath imageUrl ("Error: " +:+ message) fs1,
             calls)
        | None =>
            let fs2 :=
              match imageFormat options with
              | Some format =>
                  if decide (format = "") then fs1
                  else if decide (format = urlFormat) then fs1
                  else convertImage env filepath fs1
              | None => fs1
              end in
            (Resolved true downloadedBytes, fs2, calls)
        end
  end.

(** [statSync(path).size]. *)
Definition stat_size (path : string) (fs : FileSystem) : Z :=
  Z.of_nat (length (default [] (fs !! path))).

(** [downloadSingleImage]: [filepath] is
    [join(episodePath, generateImageFilename(...))], [urlFormat] is
    [getImageFormat(imageSource.url)]. *)
Definition downloadSingleImage (env : Environment)
    (imageUrl filepath urlFormat : string) (options : Options)
    (reports : bool) (fs : FileSystem)
  : Outcome * FileSystem * list ProgressReport :=
  if existsSync filepath fs && skipExisting options
     && (1000 <? stat_size filepath fs)
  then (Resolved true (stat_size filepath fs), fs, [])
  else download env imageUrl filepath urlFormat options reports fs.

End ImageDownloader.

(* ===================================================================== *)
(** * Concrete inputs                                                     *)
(* ===================================================================== *)

(** Concrete inputs for the statements below. *)
Module Examples.
Import RequestQueue Interleaving.


(** The default multiplier of 2, with a ceiling that the fourth attempt
    reaches. *)
Definition low_ceiling_config : QueueConfig :=
  {| maxConcurrent := 3; requestDelay := 1500; batchSize := 5;
     maxRetries := 3; backoffMultiplier := 2; maxDelay := 8100 |}.

Definition succeeds (v : Z) : Task Z := fun _ => Fulfilled v.

Definition always_fails : Task Z :=
  fun _ => Rejected (OtherError "boom").

(** Fails twice, then succeeds. *)
Definition third_time_lucky (v : Z) : Task Z :=
  fun attempt =>
    if (attempt <? 3)%nat then Rejected (OtherError "reset")
    else Fulfilled v.

(** Throws a [TypeError] that is not a network error. *)
Definition wrong_type : Task Z :=
  fun _ => Rejected (TypeError "page.url is not a function" false).

Definition rate_limited : Task Z :=
  fun _ => Rejected (RateLimitError "slow down" None).

Definition no_draw : nat -> Q := fun _ => 0%Q.
Definition no_host : string -> option string := fun _ => None.
Definition doubling : nat -> Z := fun k => 1000 * 2 ^ Z.of_nat (k - 1).

(** A reading of [Date.now()]. *)
Definition t0 : Z := 1700000000000.

(** A new queue on which a client has registered a listener for
    ['error']. *)
Definition listening : QueueState Z := on_error (new_queue t0).

(** The calls of every batch start one after the other and are then
    resumed in turn. *)
Definition in_turn : Z -> list Move :=
  fun _ => [Resume 0%nat; Resume 1%nat; Resume 2%nat;
            Resume 0%nat; Resume 1%nat; Resume 2%nat].

(** The calls of a batch of three start together; 1500 ms later the
    timers of the second and of the third fire. *)
Definition together : Z -> list Move :=
  fun _ => [Resume 0%nat; Resume 1%nat; Resume 2%nat; Later 1500;
            Resume 1%nat; Resume 2%nat].

(** A parser that finds the host [example.com], a request to it, and a
    queue that has served one such request. *)
Definition example_host : string -> option string :=
  fun _ => Some "example.com".

Definition to_example : AddOptions :=
  {| priority := None; retries := None;
     url := Some "https://example.com/chapter-1";
     onProgress := false; abortSignal := None |}.

Definition used_queue : QueueState Z :=
  (add default_config no_draw example_host doubling (succeeds 1) to_example
     (new_queue t0)).2.

(** Three calls for one key, started together on a fresh queue. *)
Definition three_calls (domain : string) : Loop Z :=
  {| queue := new_queue t0;
     calls := [Called domain; Called domain; Called domain] |}.

(** A batch of three, as [addBatch] starts it. *)
Definition batch_of_three : Loop Z :=
  {| queue := new_queue t0;
     calls := batch_calls no_host [succeeds 1; succeeds 2; succeeds 3] |}.

(** Each call runs up to its [await]; then the timers of the second and
    of the third call fire, 1500 ms later. *)
Definition overlapping : list Action :=
  [Run 0%nat; Run 1%nat; Run 2%nat; Elapse 1500; Run 1%nat; Run 2%nat].

(** Responses: an HTML page served in place of an image, and an image
    whose stream ends after ten bytes. *)
Definition ten_bytes : list byte := repeat x00 10.

Definition no_conversion : ImageDownloader.Conversion :=
  {| ImageDownloader.outputPath := "out/page-001.jpg";
     ImageDownloader.sharpOutput := None |}.

Definition html_env : ImageDownloader.Environment :=
  {| ImageDownloader.axiosResult :=
       ImageDownloader.AxiosResponse
         {| ImageDownloader.content_type := Some "text/html";
            ImageDownloader.content_length := Some 10;
            ImageDownloader.chunks := [ten_bytes];
            ImageDownloader.streamError := None |};
     ImageDownloader.unlinkThrows := false;
     ImageDownloader.conversion := no_conversion |}.

Definition tiny_image_env : ImageDownloader.Environment :=
  {| ImageDownloader.axiosResult :=
       ImageDownloader.AxiosResponse
         {| ImageDownloader.content_type := Some "image/jpeg";
            ImageDownloader.content_length := Some 10;
            ImageDownloader.chunks := [ten_bytes];
            ImageDownloader.streamError := None |};
     ImageDownloader.unlinkThrows := false;
     ImageDownloader.conversion := no_conversion |}.

(** A stream that breaks after ten bytes, on a disk that refuses the
    unlink. *)
Definition broken_stream_env : ImageDownloader.Environment :=
  {| ImageDownloader.axiosResult :=
       ImageDownloader.AxiosResponse
         {| ImageDownloader.content_type := Some "image/jpeg";
            ImageDownloader.content_length := Some 4096;
            ImageDownloader.chunks := [ten_bytes];
            ImageDownloader.streamError := Some "socket hang up" |};
     ImageDownloader.unlinkThrows := true;
     ImageDownloader.conversion := no_conversion |}.

Definition plain_options : ImageDownloader.Options :=
  {| ImageDownloader.skipExisting := false;
     ImageDownloader.imageFormat := None |}.

(** A tracker that follows one ten-page download, reported at page 12. *)
Definition tracking_a : ProgressTracker.Tracker :=
  ProgressTracker.updateProgress (t0 + 2000) "a" 12
    (Some {| ProgressTracker.ad_downloadedBytes := Some 4096;
             ProgressTracker.ad_totalBytes := Some 8192;
             ProgressTracker.ad_error := None |})
    (ProgressTracker.updateProgress (t0 + 1000) "a" 3
       (Some {| ProgressTracker.ad_downloadedBytes := Some 1024;
                ProgressTracker.ad_totalBytes := Some 8192;
                ProgressTracker.ad_error := None |})
       (ProgressTracker.start t0 "a" 10 None None
          ProgressTracker.new_tracker)).

End Examples.

(* ===================================================================== *)
(** * RequestQueue: what a sequence of calls leaves behind                *)
(* ===================================================================== *)

Module QueueLedger.
Import RequestQueue Interleaving.

(** The number of dispatches the log holds for [key]. *)
Definition dispatches_to (key : string) (log : list (string * Z)) : nat :=
  length (filter (λ kt, kt.1 = key) log).

(** [getStats().requestCounts] agrees with the log: the count kept for a
    key is the number of dispatches made under it, and a key without a
    count has none. *)
Definition counts_agree {T : Type} (s : QueueState T) : Prop :=
  forall key,
    requestCounts s !! key
    = if decide (dispatches_to key (dispatched s) = 0%nat) then None
      else Some (Z.of_nat (dispatches_to key (dispatched s))).

(** A call that is the only one under way: between two of its segments
    nothing happens to the queue but time passing.  [alone J p since s]
    says that the call [p], which began its wait at [since] and left
    the queue [s], keeps [J] up to its end, whenever the event loop
    resumes it. *)
Inductive alone {T : Type} (J : QueueState T -> Prop)
  : Proc T -> Z -> QueueState T -> Prop :=
| alone_settles (r : Settled T) (since : Z) (s : QueueState T) :
    J s -> alone J (Settles r) since s
| alone_awaits (w : Suspension) (k : QueueState T -> Turn T) (since : Z)
    (s : QueueState T) :
    J s ->
    (forall t, clock s <= t -> ready w since t = true ->
       alone J (proc_of (k (set_clock t s)))
         (clock (state_of (k (set_clock t s))))
         (state_of (k (set_clock t s)))) ->
    alone J (Awaits w k) since s.

(** A segment that, run on a queue that satisfies [J], begins such a
    call. *)
Definition runs_alone {T : Type} (J : QueueState T -> Prop)
    (k : QueueState T -> Turn T) : Prop :=
  forall s, J s ->
    alone J (proc_of (k s)) (clock (state_of (k s))) (state_of (k s)).

(** Whatever the other calls do in between: no segment of the call
    changes the listener for ['error'] or takes an ['error'] event back,
    and the segment in which the call is rejected emits the event of
    its error. *)
Inductive relays {T : Type} : Proc T -> Prop :=
| relays_settles (r : Settled T) : relays (Settles r)
| relays_awaits (w : Suspension) (k : QueueState T -> Turn T) :
    (forall s, errorListener (state_of (k s)) = errorListener s) ->
    (forall s, exists more, relayed (state_of (k s)) = relayed s ++ more) ->
    (forall s e, proc_of (k s) = Settles (Rejected e) ->
       (e, errorListener s) ∈ relayed (state_of (k s))) ->
    (forall s, relays (proc_of (k s))) ->
    relays (Awaits w k).

(** The same of a segment. *)
Definition relaying {T : Type} (k : QueueState T -> Turn T) : Prop :=
  (forall s, errorListener (state_of (k s)) = errorListener s)
  /\ (forall s, exists more, relayed (state_of (k s)) = relayed s ++ more)
  /\ (forall s e, proc_of (k s) = Settles (Rejected e) ->
        (e, errorListener s) ∈ relayed (state_of (k s)))
  /\ (forall s, relays (proc_of (k s))).

(** The calls of [pool] on the queue [s], whose listener for ['error']
    is [l]: the event of every call that has been rejected is there. *)
Definition pool_relays {T : Type} (l : bool) (pool : list (Proc T * Z))
    (s : QueueState T) : Prop :=
  errorListener s = l
  /\ Forall (λ slot : Proc T * Z,
               relays slot.1
               /\ forall e, slot.1 = Settles (Rejected e) ->
                    (e, l) ∈ relayed s)
       pool.

(** The number of attempts [pRetry] makes from [attempt] on, with
    [retriesLeft] retries in hand. *)
Fixpoint attempts_from {T : Type} (taskFn : Task T)
    (retriesLeft attempt : nat) : nat :=
  match taskFn attempt with
  | Fulfilled _ => 1
  | Rejected e =>
      if retried e then
        match retriesLeft with
        | O => 1
        | S remaining => S (attempts_from taskFn remaining (S attempt))
        end
      else 1
  end.

(** The event of its own that an [add] of [nretries] retries ends with,
    when its last attempt was attempt [attempt] and settled with [r]:
    [taskComplete] for a value, [taskError] for an error other than a
    [RateLimitError] thrown at attempt [nretries + 1]. *)
Definition closing_events {T : Type} (id : TaskId) (nretries attempt : nat)
    (r : Settled T) : list (QueueEvent T) :=
  match r with
  | Fulfilled v => [taskComplete id v]
  | Rejected (RateLimitError _ _) => []
  | Rejected e =>
      if (attempt =? nretries + 1)%nat then [taskError id e] else []
  end.

(** The events the queue emits of its own, [taskComplete] and
    [taskError], among what has been emitted; the calls of the callbacks
    are left out. *)
Definition is_task_event {T : Type} (e : QueueEvent T) : bool :=
  match e with
  | taskComplete _ _ | taskError _ _ => true
  | _ => false
  end.

Definition task_events {T : Type} (s : QueueState T)
  : list (QueueEvent T) :=
  filter (λ e, is_task_event e = true) (emitted s).

(** The ['error'] event a call that settled with [r] leaves on a queue
    whose listener for it was [listener]. *)
Definition relay_of {T : Type} (r : Settled T) (listener : bool)
  : list (TaskError * bool) :=
  match r with
  | Fulfilled _ => []
  | Rejected e => [(e, listener)]
  end.

(** The argument list of a call to [onBatchComplete], for the events that
    are such calls. *)
Definition batch_call {T : Type} (e : QueueEvent T) : option (list T * Z) :=
  match e with
  | onBatchCompleteCall results batchIndex => Some (results, batchIndex)
  | _ => None
  end.

(** The calls to [onBatchComplete] made so far, in order. *)
Definition batch_calls_made {T : Type} (s : QueueState T)
  : list (list T * Z) :=
  omap batch_call (emitted s).

(** The values of the tasks of a chunk that fulfil, in the order of the
    chunk. *)
Definition fulfilled_of {T : Type} (config : QueueConfig)
    (c : list (Task T)) : list T :=
  omap settled_value (outcome (maxRetries config) <$> c).

End QueueLedger.

(* ===================================================================== *)
(** * src/utils/Helpers.ts                                                *)
(* ===================================================================== *)

Module Helpers.

(** The [for] loop of [Helpers.chunk], with the [chunks] pushed so far;
    [None] when [fuel] iterations were not enough to leave it. *)
Fixpoint chunk_loop {A : Type} (fuel : nat) (array : list A) (size : Z)
    (i : Z) (chunks : list (list A)) : option (list (list A)) :=
  if i <? Z.of_nat (length array) then
    match fuel with
    | O => None
    | S fuel' =>
        chunk_loop fuel' array size (i + size)
          (chunks ++ [slice array i (i + size)])
    end
  else Some chunks.

(** [Helpers.chunk(array, size)]. *)
Definition chunk {A : Type} (fuel : nat) (array : list A) (size : Z)
  : option (list (list A)) :=
  chunk_loop fuel array size 0 [].

(** What a run of [Helpers.retry] does besides returning: the calls of
    [fn] it makes and the delays it sleeps for. *)
Record RetryLog : Type := {
  fn_calls : nat;
  sleeps : list Q
}.

Definition no_retry_log : RetryLog := {| fn_calls := 0; sleeps := [] |}.

Definition called (log : RetryLog) : RetryLog :=
  {| fn_calls := S (fn_calls log); sleeps := sleeps log |}.

Definition slept (delay : Q) (log : RetryLog) : RetryLog :=
  {| fn_calls := fn_calls log; sleeps := sleeps log ++ [delay] |}.

(** [1000 * Math.pow(backoffMultiplier, attempt - 1)]. *)
Definition retry_sleep (backoffMultiplier : Q) (attempt : Z) : Q :=
  (1000 * backoffMultiplier ^ (attempt - 1))%Q.

(** The [for] loop of [Helpers.retry] and the [throw] after it.  [fn k]
    is what the call of [fn] made at attempt [k] settles with: a value,
    or an error kept by its message.  The function throws [lastError],
    which is still unassigned ([None]) when the loop body never ran. *)
Fixpoint retry_loop {T : Type} (fuel : nat) (fn : Z -> T + string)
    (maxRetries : Z) (backoffMultiplier : Q) (attempt : Z)
    (lastError : option string) (log : RetryLog)
  : option ((T + option string) * RetryLog) :=
  if attempt <=? maxRetries + 1 then
    match fuel with
    | O => None
    | S fuel' =>
        let log1 := called log in
        match fn attempt with
        | inl value => Some (inl value, log1)
        | inr message =>
            let log2 :=
              if attempt <=? maxRetries
              then slept (retry_sleep backoffMultiplier attempt) log1
              else log1 in
            retry_loop fuel' fn maxRetries backoffMultiplier (attempt + 1)
              (Some message) log2
        end
    end
  else Some (inr lastError, log).

(** [Helpers.retry(fn, maxRetries, backoffMultiplier)]. *)
Definition retry {T : Type} (fuel : nat) (fn : Z -> T + string)
    (maxRetries : Z) (backoffMultiplier : Q)
  : option ((T + option string) * RetryLog) :=
  retry_loop fuel fn maxRetries backoffMultiplier 1 None no_retry_log.

End Helpers.

(* ===================================================================== *)
(** * ManagerFactory.createWithRetry                                      *)
(* ===================================================================== *)

Module ManagerFactory.

(** What a run of [createWithRetry] does besides returning: the calls of
    [create] it makes and the delays it hands to [setTimeout]. *)
Record CreateLog : Type := {
  create_calls : nat;
  timeouts : list Z
}.

Definition no_create_log : CreateLog := {| create_calls := 0; timeouts := [] |}.

Definition created (log : CreateLog) : CreateLog :=
  {| create_calls := S (create_calls log); timeouts := timeouts log |}.

Definition waited (delay : Z) (log : CreateLog) : CreateLog :=
  {| create_calls := create_calls log; timeouts := timeouts log ++ [delay] |}.

(** [Math.min(1000 * Math.pow(2, attempt - 1), 10000)]. *)
Definition retry_delay (attempt : Z) : Z :=
  Z.min (1000 * 2 ^ (attempt - 1)) 10000.

(** The message of the error thrown after the loop;
    [lastError?.message] of a [null] prints as [undefined]. *)
Definition failure_text (name : string) (maxRetries : Z)
    (lastError : option string) : string :=
  "Failed to create manager for " +:+ name +:+ " after "
  +:+ pretty maxRetries +:+ " attempts: "
  +:+ default "undefined" lastError.

(** The [for] loop of [createWithRetry] and the [throw] after it.
    [create k] is what [this.create(siteConfig, appConfig)] settles with
    at attempt [k]: a manager, or an error kept by its message. *)
Fixpoint createWithRetry_loop {M : Type} (fuel : nat) (name : string)
    (create : Z -> M + string) (maxRetries attempt : Z)
    (lastError : option string) (log : CreateLog)
  : option ((M + string) * CreateLog) :=
  if attempt <=? maxRetries then
    match fuel with
    | O => None
    | S fuel' =>
        let log1 := created log in
        match create attempt with
        | inl manager => Some (inl manager, log1)
        | inr message =>
            let log2 :=
              if attempt <? maxRetries
              then waited (retry_delay attempt) log1
              else log1 in
            createWithRetry_loop fuel' name create maxRetries (attempt + 1)
              (Some message) log2
        end
    end
  else Some (inr (failure_text name maxRetries lastError), log).

(** [ManagerFactory.createWithRetry(siteConfig, appConfig, maxRetries)],
    for a site called [name]. *)
Definition createWithRetry {M : Type} (fuel : nat) (name : string)
    (create : Z -> M + string) (maxRetries : Z)
  : option ((M + string) * CreateLog) :=
  createWithRetry_loop fuel name create maxRetries 1 None no_create_log.

End ManagerFactory.

(* ===================================================================== *)
(** * ImageDownloader.downloadChapter                                     *)
(* ===================================================================== *)

Module Chapter.
Import RequestQueue ProgressTracker.

(** What a page task resolves with: [{ success, downloadedBytes? }]. *)
Record PageResult : Type := {
  page_success : bool;
  page_bytes : option Z
}.

(** [interface DownloadResult], without [duration]. *)
Record DownloadResult : Type := {
  dr_success : bool;
  dr_seriesName : string;
  dr_episodeName : string;
  dr_downloadedPages : Z;
  dr_totalPages : Z;
  dr_filePath : string;
  dr_error : option string
}.

(** What reaches the tracker while the batches run: a call of the
    [onProgress] callback of the page at [index], or the one-second
    timer. *)
Inductive Report : Type :=
| PageReport (now : Z) (index : nat) (downloaded total : Z)
| TimerTick (now : Z).

(** [(progress) => this.progressTracker.updateProgress(progressId,
    index + 1, progress)]. *)
Definition report_op (progressId : string) (r : Report) : Op :=
  match r with
  | PageReport now index downloaded total =>
      OpUpdateProgress now progressId (Z.of_nat index + 1)
        (Some {| ad_downloadedBytes := Some downloaded;
                 ad_totalBytes := Some total;
                 ad_error := None |})
  | TimerTick now => OpTick now
  end.

(** What the call meets outside the queue and the tracker:
    [createEpisodeDirectory] returns a path or throws an error with a
    message; [isChapterCompleted] answers for that path;
    [saveEpisodeMetadata] resolves ([None]) or rejects with a message;
    the reports made during the batches; the two readings of the clock
    the tracker takes. *)
Record Surroundings : Type := {
  createEpisodeDirectory : string + string;
  isChapterCompleted : bool;
  saveEpisodeMetadata : option string;
  reports : list Report;
  startedAt : Z;
  finishedAt : Z
}.

Section Download.

Variable config : QueueConfig.
Variable random : nat -> Q.
Variable hostname : string -> option string.
Variable retryTimeout : nat -> Z.
Variable schedule : Z -> list Move.

(** The object of the [catch] block. *)
Definition caught (series episode : string) (total : Z) (message : string)
  : DownloadResult :=
  {| dr_success := false; dr_seriesName := series;
     dr_episodeName := episode; dr_downloadedPages := 0;
     dr_totalPages := total; dr_filePath := "";
     dr_error := Some message |}.

(** [downloadChapter(sources, seriesName, episodeName, options)]:
    [tasks] are the download tasks of [sources.sources], [total] is
    [sources.totalPages], [series] and [episode] are the two sanitized
    names; [q] and [t] are the queue and the tracker of the downloader.
    [None] when [addBatch] does not return within [fuel] batches. *)
Definition downloadChapter (fuel : nat) (w : Surroundings)
    (tasks : list (Task PageResult)) (total : Z)
    (series episode : string) (skipExisting : bool)
    (q : QueueState PageResult) (t : Tracker)
  : option (DownloadResult * QueueState PageResult * Tracker) :=
  match createEpisodeDirectory w with
  | inr message => Some (caught series episode total message, q, t)
  | inl episodePath =>
      if skipExisting && isChapterCompleted w then
        Some ({| dr_success := true; dr_seriesName := series;
                 dr_episodeName := episode; dr_downloadedPages := total;
                 dr_totalPages := total; dr_filePath := episodePath;
                 dr_error := None |}, q, t)
      else
        let progressId := series +:+ "-" +:+ episode in
        let t1 := start (startedAt w) progressId total None None t in
        match
          addBatch config random hostname retryTimeout schedule fuel tasks
            {| opt_batchSize := Some (Z.min (batchSize config) 3);
               delayBetweenBatches := Some 500;
               onBatchComplete := true |} q
        with
        | None => None
        | Some (results, q1) =>
            let t2 := apply_all (report_op progressId <$> reports w) t1 in
            let successfulDownloads := List.filter page_success results in
            match saveEpisodeMetadata w with
            | Some message =>
                Some (caught series episode total message, q1, t2)
            | None =>
                let t3 := complete (finishedAt w) progressId true t2 in
                let n := Z.of_nat (length successfulDownloads) in
                Some ({| dr_success := 0 <? n; dr_seriesName := series;
                         dr_episodeName := episode;
                         dr_downloadedPages := n;
                         dr_totalPages := total;
                         dr_filePath := episodePath;
                         dr_error := None |}, q1, t3)
            end
        end
  end.

End Download.

(** A page that downloads, pages that do not, and two runs: one in
    which nothing outside the queue fails, one in which the metadata
    file cannot be written. *)
Definition page (bytes : Z) : Task PageResult :=
  fun _ => Fulfilled {| page_success := true; page_bytes := Some bytes |}.

(** A page whose first request fails and whose second succeeds. *)
Definition late_page (bytes : Z) : Task PageResult :=
  fun attempt =>
    if (attempt <? 2)%nat then Rejected (OtherError "Download failed")
    else Fulfilled {| page_success := true; page_bytes := Some bytes |}.

Definition broken_page : Task PageResult :=
  fun _ => Rejected (OtherError "Download failed").

Definition plain_run : Surroundings :=
  {| createEpisodeDirectory := inl "downloads/series/episode-1";
     isChapterCompleted := false;
     saveEpisodeMetadata := None;
     reports := [PageReport 1700000000100 0 10 10; TimerTick 1700000001000];
     startedAt := 1700000000000;
     finishedAt := 1700000002000 |}.


End Chapter.

(* ===================================================================== *)
(** * ProgressTracker: counts, statistics, the progress bar               *)
(* ===================================================================== *)

Module TrackerStats.
Import ProgressTracker.

Local Open Scope Q_scope.

(** [getActiveCount()] and [getCompletedCount()]. *)
Definition getActiveCount (t : Tracker) : nat := size (activeProgress t).
Definition getCompletedCount (t : Tracker) : nat := size (completedProgress t).

(** [Array.from(map.values())]; the entries come in key order here. *)
Definition values (m : gmap string ProgressEntry) : list ProgressEntry :=
  (map_to_list m).*2.

Definition sumZ (f : ProgressEntry -> Z) (l : list ProgressEntry) : Z :=
  foldl (λ sum entry, (sum + f entry)%Z) 0%Z l.

Definition sumQ (f : ProgressEntry -> Q) (l : list ProgressEntry) : Q :=
  foldl (λ sum entry, sum + f entry) 0 l.

(** What [getOverallStats()] returns. *)
Record OverallStats : Type := {
  activeDownloads : nat;
  completedDownloads : nat;
  successfulDownloads : nat;
  failedDownloads : nat;
  os_totalPages : Z;
  completedPages : Z;
  os_totalBytes : Z;
  os_downloadedBytes : Z;
  overallProgress : Q;
  averageSpeed : string;
  successRate : Q
}.

(** [getOverallStats()]. *)
Definition getOverallStats (t : Tracker) : OverallStats :=
  let active := values (activeProgress t) in
  let completed := values (completedProgress t) in
  let all := (active ++ completed)%list in
  let totalPages := sumZ totalPages all in
  let completedPages := sumZ currentPage all in
  let totalBytes := sumZ totalBytes all in
  let downloadedBytes := sumZ downloadedBytes all in
  let avgSpeed :=
    sumQ speed active / inject_Z (Z.max (Z.of_nat (length active)) 1) in
  let successfulDownloads :=
    length (filter (λ entry, status entry = COMPLETED) completed) in
  let failedDownloads :=
    length (filter (λ entry, status entry = FAILED) completed) in
  {| activeDownloads := length active;
     completedDownloads := length completed;
     successfulDownloads := successfulDownloads;
     failedDownloads := failedDownloads;
     os_totalPages := totalPages;
     completedPages := completedPages;
     os_totalBytes := totalBytes;
     os_downloadedBytes := downloadedBytes;
     overallProgress :=
       if (0 <? totalPages)%Z
       then inject_Z completedPages / inject_Z totalPages * 100
       else 0;
     averageSpeed := formatSpeed avgSpeed;
     successRate :=
       if (0 <? length completed)%nat
       then inject_Z (Z.of_nat successfulDownloads)
            / inject_Z (Z.of_nat (length completed)) * 100
       else 0 |}.

(** [String.prototype.repeat(count)] for an integer count: a negative
    count is a [RangeError], here [None]. *)
Fixpoint repeat_string (s : string) (n : nat) : string :=
  match n with
  | O => ""
  | S n' => s +:+ repeat_string s n'
  end.

Definition js_repeat (s : string) (count : Z) : option string :=
  if (count <? 0)%Z then None else Some (repeat_string s (Z.to_nat count)).

(** [createProgressBar(current, total, width = 30)] in exact
    arithmetic; [None] when a [repeat] throws.  The code computes the
    quotient and the product in doubles: where [width * current / total]
    is close to a half, the double can fall on the other side of it and
    the bar of the code has one full cell more or less. *)
Definition createProgressBar (current total width : Z) : option string :=
  let percentage :=
    if (0 <? total)%Z then inject_Z current / inject_Z total else 0 in
  let filled := Math_round (inject_Z width * percentage) in
  let empty := (width - filled)%Z in
  match js_repeat "█" filled, js_repeat "░" empty with
  | Some full, Some light => Some ("[" +:+ full +:+ light +:+ "]")
  | _, _ => None
  end.

(** How the division and the multiplication of the code round: [fl x]
    is the double they return when the exact result is [x].  Rounding
    keeps the order, and an integer of at most 53 bits is returned as it
    is. *)
Definition rounds_as_doubles (fl : Q -> Q) : Prop :=
  (forall x y, x <= y -> fl x <= fl y)
  /\ (forall n : Z, (Z.abs n <= 2 ^ 53)%Z -> fl (inject_Z n) == inject_Z n).

(** [createProgressBar(current, total, width)] with the quotient and the
    product rounded by [fl]; [Math.round] itself is exact.  With no
    rounding at all this is [createProgressBar] above. *)
Definition createProgressBar_rounded (fl : Q -> Q)
    (current total width : Z) : option string :=
  let percentage :=
    if (0 <? total)%Z then fl (inject_Z current / inject_Z total) else 0 in
  let filled := Math_round (fl (inject_Z width * percentage)) in
  let empty := (width - filled)%Z in
  match js_repeat "█" filled, js_repeat "░" empty with
  | Some full, Some light => Some ("[" +:+ full +:+ light +:+ "]")
  | _, _ => None
  end.

(** A rounding coarser than that of doubles: to the nearest multiple of
    1/1024. *)
Definition nearest_1024th (x : Q) : Q :=
  inject_Z (Qfloor (x * 1024 + (1 # 2))) / 1024.

(** What can be said of every record a tracker holds: the entries of the
    active set are pending, downloading or paused, the entries of the
    completed set are completed or failed, and each entry sits under its
    own id. *)
Definition well_filed (t : Tracker) : Prop :=
  (forall key e, activeProgress t !! key = Some e ->
     terminal (status e) = false /\ id e = key)
  /\ (forall key e, completedProgress t !! key = Some e ->
        terminal (status e) = true /\ id e = key).

End TrackerStats.

(* ===================================================================== *)
(** * Theorems: backoff                                                   *)
(* ===================================================================== *)

Module BackoffFacts.
Import Backoff Examples.
Local Open Scope Q_scope.


Lemma Qpower_ge_1 (q : Q) (n : Z) :
  1 <= q -> (0 <= n)%Z -> 1 <= q ^ n.
Proof.
  intros Hq Hn. apply Qpower_1_le; assumption.
Qed.




Lemma delay_shift (cfg : QueueConfig) (n : Z) :
  delay cfg n = spec_delay cfg (n + 1).
Proof. unfold delay, spec_delay. rewrite Z.add_simpl_r. reflexivity. Qed.

(** C3 (the code departs from the claim).  [calculateBackoff] raises the
    multiplier to [attempt], not to [attempt - 1]: the delay the code
    computes at attempt [n] is the one the contract gives for attempt
    [n + 1].  With the default configuration the first attempt waits 2000
    ms before jitter, where the contract says [baseDelay], 1000 ms. *)
Theorem calculateBackoff_exponent_is_attempt :
  (forall cfg n, delay cfg n = spec_delay cfg (n + 1))
  /\ delay default_config 1 == 2000
  /\ calculateBackoff default_config 1 0 == 2000
  /\ spec_delay default_config 1 == baseDelay
  /\ ~ delay default_config 1 == baseDelay.
Proof.
  split; [exact delay_shift |].
  repeat split; try reflexivity.
  intros H. vm_compute in H. discriminate H.
Qed.





(** Where the ceiling cuts the next delay short the growth can be less
    than a tenth, whatever the multiplier: with a multiplier of 2 and a
    ceiling of 8100, attempt 3 with a jitter value of 0.9 waits 8720 ms
    and attempt 4 with a value of 0 waits 8100 ms. *)
Example reaching_the_ceiling_can_decrease :
  calculateBackoff low_ceiling_config 4 0
  < calculateBackoff low_ceiling_config 3 (9 # 10).
Proof. reflexivity. Qed.

End BackoffFacts.

(* ===================================================================== *)
(** * Theorems: RequestQueue                                              *)
(* ===================================================================== *)

Module RequestQueueFacts.
Import RequestQueue.

(** ** The error [p-retry] rejects with *)

Lemma mainError_loop_some (errors : list TaskError)
    (counts : gmap string nat) (m : TaskError) (c : nat) :
  is_Some (mainError_loop errors counts (Some m) c).
Proof.
  revert counts m c.
  induction errors as [| e rest IH]; intros counts m c; simpl.
  - eexists. reflexivity.
  - destruct (c <=? S (default 0%nat (counts !! error_message e)))%nat;
      apply IH.
Qed.

Lemma mainError_some (errors : list TaskError) (e : TaskError) :
  is_Some (mainError (errors ++ [e])).
Proof.
  unfold mainError.
  destruct errors as [| e0 rest]; simpl.
  - eexists. reflexivity.
  - apply mainError_loop_some.
Qed.

Lemma mainError_loop_in (errors : list TaskError)
    (counts : gmap string nat) (main : option TaskError) (c : nat)
    (e : TaskError) :
  mainError_loop errors counts main c = Some e ->
  main = Some e \/ e ∈ errors.
Proof.
  revert counts main c.
  induction errors as [| e0 rest IH]; intros counts main c; simpl.
  - intros H. left. exact H.
  - destruct (c <=? S (default 0%nat (counts !! error_message e0)))%nat;
      intros H; apply IH in H as [H | H].
    + injection H as <-. right. left.
    + right. right. exact H.
    + left. exact H.
    + right. right. exact H.
Qed.

Lemma mainError_in (errors : list TaskError) (e : TaskError) :
  mainError errors = Some e -> e ∈ errors.
Proof.
  intros H. apply mainError_loop_in in H as [H | H];
    [discriminate H | exact H].
Qed.

Lemma mainError_loop_same (n : nat) (e : TaskError)
    (counts : gmap string nat) (main : option TaskError) (c : nat) :
  (c <= S (default 0 (counts !! error_message e)))%nat ->
  mainError_loop (replicate (S n) e) counts main c = Some e.
Proof.
  revert counts main c.
  induction n as [| n IH]; intros counts main c Hc.
  - simpl. destruct (Nat.leb_spec c (S (default 0%nat (counts !! error_message e))));
      [reflexivity | lia].
  - change (replicate (S (S n)) e) with (e :: replicate (S n) e).
    cbn [mainError_loop].
    destruct (Nat.leb_spec c (S (default 0%nat (counts !! error_message e))));
      [| lia].
    apply IH. rewrite lookup_insert_eq. simpl. lia.
Qed.

Lemma mainError_same (n : nat) (e : TaskError) :
  mainError (replicate (S n) e) = Some e.
Proof. apply mainError_loop_same. lia. Qed.

(** ** A call among other calls *)

Section Leads.

Context {T : Type}.
Variable I : QueueState T -> Prop.
Hypothesis I_clock : forall t s, I s -> I (set_clock t s).

Lemma leads_mono (Q Q' : Settled T -> Prop) (p : Proc T) :
  (forall r, Q r -> Q' r) -> leads I Q p -> leads I Q' p.
Proof.
  intros HQ H. induction H as [r Hr | w k Hs Hp IH].
  - apply leads_settles, HQ, Hr.
  - apply leads_awaits; assumption.
Qed.

Lemma good_await (Q : Settled T -> Prop) (w : Suspension)
    (k : QueueState T -> Turn T) (s : QueueState T) :
  I s -> (forall s', I s' -> good I Q (k s')) ->
  good I Q (turn s (Awaits w k)).
Proof.
  intros Hs Hk. split; [exact Hs |].
  apply leads_awaits; intros s' Hs'; apply (Hk s' Hs').
Qed.

Lemma run_from_leads (Q : Settled T -> Prop) (p : Proc T) :
  leads I Q p ->
  forall since s, I s ->
    Q (run_from since p s).1 /\ I (run_from since p s).2.
Proof.
  intros H. induction H as [r Hr | w k Hs Hp IH]; intros since s HI.
  - split; assumption.
  - cbn [run_from].
    specialize (Hs _ (I_clock (wake w since (clock s)) s HI)).
    specialize (IH _ (I_clock (wake w since (clock s)) s HI)).
    destruct (k (set_clock (wake w since (clock s)) s)) as [s1 p1].
    apply IH. exact Hs.
Qed.

Lemma move_leads (m : Move) (pool : list (Proc T * Z))
    (rs : list (Settled T)) (s : QueueState T) :
  pool_leads I pool rs -> I s ->
  pool_leads I (move m pool s).1 rs /\ I (move m pool s).2.
Proof.
  intros Hpool HI. destruct m as [ms | i]; simpl.
  - split; [exact Hpool | apply I_clock, HI].
  - destruct (pool !! i) as [[[r | w k] since] |] eqn:E;
      try (split; assumption).
    destruct (ready w since (clock s)); [| split; assumption].
    destruct (Forall2_lookup_l _ _ _ _ _ Hpool E) as (r & Er & Hr).
    simpl in Hr. inversion Hr as [| w' k' Hs Hp]; subst.
    specialize (Hs s HI). specialize (Hp s HI).
    destruct (k s) as [s1 p1]. simpl in *. split; [| exact Hs].
    rewrite <- (list_insert_id rs i r Er).
    apply Forall2_insert; [exact Hpool | exact Hp].
Qed.

Lemma moves_leads (turns : list Move) (pool : list (Proc T * Z))
    (rs : list (Settled T)) (s : QueueState T) :
  pool_leads I pool rs -> I s ->
  pool_leads I (moves turns pool s).1 rs /\ I (moves turns pool s).2.
Proof.
  revert pool s. induction turns as [| m rest IH]; intros pool s Hpool HI.
  - split; assumption.
  - cbn [moves].
    destruct (move_leads m pool rs s Hpool HI) as [Hpool1 HI1].
    destruct (move m pool s) as [pool1 s1]. apply IH; assumption.
Qed.

Lemma drain_leads (pool : list (Proc T * Z)) (rs : list (Settled T))
    (s : QueueState T) :
  pool_leads I pool rs -> I s ->
  (drain pool s).1 = rs /\ I (drain pool s).2.
Proof.
  intros Hpool. revert s.
  induction Hpool as [| [p since] r pool rs Hp Hpool IH]; intros s HI.
  - split; [reflexivity | exact HI].
  - cbn [drain].
    destruct (run_from_leads (eq r) p Hp since s HI) as [Hr HI1].
    destruct (run_from since p s) as [r1 s1]. simpl in Hr, HI1. subst r1.
    destruct (IH s1 HI1) as [Hrs HI2].
    destruct (drain pool s1) as [rs1 s2]. simpl in *. subst rs1.
    split; [reflexivity | exact HI2].
Qed.

End Leads.

Section Facts.

Context {T : Type}.
Variable config : QueueConfig.
Variable random : nat -> Q.
Variable hostname : string -> option string.
Variable retryTimeout : nat -> Z.

Local Abbreviation add := (add (T := T) config random hostname retryTimeout).
Local Abbreviation submit :=
  (submit (T := T) config random hostname retryTimeout).
Local Abbreviation submit_all :=
  (submit_all (T := T) config random hostname retryTimeout).
Local Abbreviation allSettled :=
  (allSettled (T := T) config random hostname retryTimeout).

Lemma set_clock_same (s : QueueState T) : set_clock (clock s) s = s.
Proof. destruct s; reflexivity. Qed.

(** ** What one call keeps, and what it settles with *)

Section Job.

Variable I : QueueState T -> Prop.
Variable Q : Settled T -> Prop.
Variable taskFn : Task T.
Variable id : TaskId.
Variable domain : string.
Variable nretries : nat.
Variable aborted : bool.
Variable reports : bool.

Hypothesis I_clock : forall t s, I s -> I (set_clock t s).
Hypothesis I_emit :
  forall e s, (forall rs i, e ≠ onBatchCompleteCall rs i) ->
    I s -> I (emit e s).
Hypothesis I_draw : forall s, I s -> I (draw random s).2.
Hypothesis I_dispatch :
  aborted = false -> forall s, I s -> I (record_dispatch domain s).

Local Abbreviation failed :=
  (failed (T := T) retryTimeout reports).
Local Abbreviation backoff :=
  (backoff (T := T) config random retryTimeout reports).
Local Abbreviation settled :=
  (settled (T := T) config random retryTimeout taskFn id nretries reports).
Local Abbreviation call :=
  (call (T := T) config random retryTimeout taskFn id domain nretries reports).
Local Abbreviation input :=
  (input (T := T) config random retryTimeout taskFn id domain nretries
     aborted reports).
Local Abbreviation pRetry :=
  (pRetry (T := T) config random retryTimeout taskFn id domain nretries
     aborted reports).

Lemma finish_good (r : Settled T) (s : QueueState T) :
  relay_keeps I \/ is_fulfilled r = true ->
  Q r -> I s -> good I Q (finish r s).
Proof.
  intros Hrelay Hr Hs. destruct r as [v | e]; simpl.
  - split; [exact Hs | apply leads_settles, Hr].
  - destruct Hrelay as [Hrelay | Hf]; [| discriminate Hf].
    split; [apply Hrelay, Hs | apply leads_settles, Hr].
Qed.

Lemma failed_good again attempt retriesLeft thrown e (s : QueueState T) :
  after_failure I Q again thrown e -> I s ->
  good I Q (failed again attempt retriesLeft thrown e s).
Proof.
  unfold after_failure, RequestQueue.failed. intros H Hs.
  destruct (retried e).
  - assert (Hs1 : I (if reports
                     then emit (onProgressCall attempt retriesLeft e) s
                     else s)).
    { destruct reports; [| exact Hs].
      apply I_emit; [intros rs i; discriminate | exact Hs]. }
    destruct again as [next |].
    + apply good_await; [exact Hs1 | exact H].
    + destruct H as [Hrelay HQ].
      apply finish_good; [left; exact Hrelay | exact HQ | exact Hs1].
  - destruct H as [Hrelay HQ].
    apply finish_good; [left; exact Hrelay | exact HQ | exact Hs].
Qed.

Lemma backoff_good again attempt retriesLeft thrown e (s : QueueState T) :
  after_failure I Q again thrown e -> I s ->
  good I Q (backoff again attempt retriesLeft thrown e s).
Proof.
  intros H Hs. unfold RequestQueue.backoff.
  pose proof (I_draw s Hs) as Hd.
  destruct (draw random s) as [r s1]. simpl in Hd.
  apply good_await; [exact Hd |].
  intros s' Hs'. apply failed_good; assumption.
Qed.

Lemma settled_good again attempt retriesLeft thrown (s : QueueState T) :
  match taskFn attempt with
  | Fulfilled v => Q (Fulfilled v)
  | Rejected e => after_failure I Q again thrown e
  end ->
  I s ->
  good I Q (settled again attempt retriesLeft thrown s).
Proof.
  intros H Hs. unfold RequestQueue.settled.
  destruct (taskFn attempt) as [v | e].
  - apply finish_good; [right; reflexivity | exact H |].
    apply I_emit; [intros rs i; discriminate | exact Hs].
  - assert (Hlast : good I Q
                      (if (attempt =? nretries + 1)%nat
                       then failed again attempt retriesLeft thrown e
                              (emit (taskError id e) s)
                       else backoff again attempt retriesLeft thrown e s)).
    { destruct (attempt =? nretries + 1)%nat.
      - apply failed_good; [exact H |].
        apply I_emit; [intros rs i; discriminate | exact Hs].
      - apply backoff_good; assumption. }
    destruct e as [msg [ms |] | msg network | msg]; try exact Hlast.
    + destruct (ms =? 0).
      * apply backoff_good; assumption.
      * apply good_await; [exact Hs |].
        intros s' Hs'. apply failed_good; assumption.
    + apply backoff_good; assumption.
Qed.

Lemma input_good again attempt retriesLeft thrown (s : QueueState T) :
  match seen aborted taskFn attempt with
  | Fulfilled v => Q (Fulfilled v)
  | Rejected e => after_failure I Q again thrown e
  end ->
  I s ->
  good I Q (input again attempt retriesLeft thrown s).
Proof.
  unfold seen, RequestQueue.input. intros H Hs.
  destruct aborted eqn:Hab.
  - apply failed_good; assumption.
  - assert (Hcall : forall s', I s' ->
              good I Q (call again attempt retriesLeft thrown s')).
    { intros s' Hs'. unfold RequestQueue.call.
      apply good_await; [apply I_dispatch; [reflexivity | exact Hs'] |].
      intros s'' Hs''. apply settled_good; assumption. }
    cbv zeta.
    destruct (clock s - default 0 (lastRequestTime s !! domain)
              <? requestDelay config).
    + apply good_await; [exact Hs | exact Hcall].
    + apply Hcall, Hs.
Qed.

Lemma pRetry_good (retriesLeft : nat) :
  forall attempt thrown (s : QueueState T),
    relay_keeps I
    \/ is_fulfilled
         (outcome_from (seen aborted taskFn) retriesLeft attempt thrown)
       = true ->
    Q (outcome_from (seen aborted taskFn) retriesLeft attempt thrown) ->
    I s ->
    good I Q (pRetry retriesLeft attempt thrown s).
Proof.
  induction retriesLeft as [| n IH]; intros attempt thrown s Hrelay HQ Hs;
    cbn [RequestQueue.pRetry]; apply input_good; try exact Hs;
    cbn [outcome_from] in Hrelay, HQ;
    destruct (seen aborted taskFn attempt) as [v | e]; try exact HQ;
    unfold after_failure; destruct (retried e).
  - split; [| exact HQ].
    destruct Hrelay as [Hrelay | Hf]; [exact Hrelay | discriminate Hf].
  - split; [| exact HQ].
    destruct Hrelay as [Hrelay | Hf]; [exact Hrelay | discriminate Hf].
  - intros s' Hs'. apply IH; assumption.
  - split; [| exact HQ].
    destruct Hrelay as [Hrelay | Hf]; [exact Hrelay | discriminate Hf].
Qed.

End Job.

(** ** [add] *)

Lemma submit_good (I : QueueState T -> Prop) (Q : Settled T -> Prop)
    (taskFn : Task T) (options : AddOptions) (s : QueueState T) :
  kept random I (getDomain hostname (default "unknown" (url options))) ->
  relay_keeps I
  \/ is_fulfilled
       (outcome (default (maxRetries config) (retries options))
          (seen (default false (abortSignal options)) taskFn)) = true ->
  Q (outcome (default (maxRetries config) (retries options))
       (seen (default false (abortSignal options)) taskFn)) ->
  I s ->
  leads I Q (submit taskFn options s).1 /\ I (submit taskFn options s).2.
Proof.
  intros (Hclock & Hemit & Hdraw & Hdispatch) Hrelay HQ Hs.
  unfold RequestQueue.submit. simpl. split; [| apply Hdraw, Hs].
  assert (Hk : forall s', I s' ->
            good I Q
              (pRetry config random retryTimeout taskFn
                 {| id_domain :=
                      getDomain hostname (default "unknown" (url options));
                    id_time := clock s;
                    id_random := random (draws s) |}
                 (getDomain hostname (default "unknown" (url options)))
                 (default (maxRetries config) (retries options))
                 (default false (abortSignal options)) (onProgress options)
                 (default (maxRetries config) (retries options)) 1 [] s')).
  { intros s' Hs'. apply pRetry_good; try assumption.
    intros _; exact Hdispatch. }
  apply leads_awaits; intros s' Hs'; apply (Hk s' Hs').
Qed.

Lemma add_good (I : QueueState T -> Prop) (Q : Settled T -> Prop)
    (taskFn : Task T) (options : AddOptions) (s : QueueState T) :
  kept random I (getDomain hostname (default "unknown" (url options))) ->
  relay_keeps I
  \/ is_fulfilled
       (outcome (default (maxRetries config) (retries options))
          (seen (default false (abortSignal options)) taskFn)) = true ->
  Q (outcome (default (maxRetries config) (retries options))
       (seen (default false (abortSignal options)) taskFn)) ->
  I s ->
  Q (add taskFn options s).1 /\ I (add taskFn options s).2.
Proof.
  intros Hkept Hrelay HQ Hs.
  destruct (submit_good I Q taskFn options s Hkept Hrelay HQ Hs)
    as [Hp Hs1].
  unfold RequestQueue.add.
  destruct (submit taskFn options s) as [p s1]. simpl in Hp, Hs1.
  apply (run_from_leads I (proj1 Hkept)); assumption.
Qed.

(** What [add] settles with does not depend on the queue it finds. *)
Lemma add_fst (taskFn : Task T) (options : AddOptions) (s : QueueState T) :
  (add taskFn options s).1
  = outcome (default (maxRetries config) (retries options))
      (seen (default false (abortSignal options)) taskFn).
Proof.
  destruct (add_good (λ _, True)
              (eq (outcome (default (maxRetries config) (retries options))
                     (seen (default false (abortSignal options)) taskFn)))
              taskFn options s) as [H _].
  - repeat split.
  - left. intros e s' _. exact Logic.I.
  - reflexivity.
  - exact Logic.I.
  - symmetry. exact H.
Qed.

(** ** The calls of a batch *)

Lemma submit_all_leads (I : QueueState T -> Prop) (batch : list (Task T)) :
  kept random I "unknown" ->
  relay_keeps I
  \/ Forall (λ task, is_fulfilled (outcome (maxRetries config) task) = true)
       batch ->
  forall s, I s ->
    pool_leads I (submit_all batch s).1 (outcome (maxRetries config) <$> batch)
    /\ I (submit_all batch s).2.
Proof.
  intros Hkept Hrelay.
  induction batch as [| task rest IH]; intros s Hs.
  - split; [constructor | exact Hs].
  - cbn [RequestQueue.submit_all].
    destruct (submit_good I (eq (outcome (maxRetries config) task)) task
                no_options s Hkept) as [Hp Hs1]; try done.
    { destruct Hrelay as [Hrelay | Hall]; [left; exact Hrelay | right].
      apply Forall_cons in Hall as [Hall _]. exact Hall. }
    destruct (submit task no_options s) as [p s1]. simpl in Hp, Hs1.
    destruct (IH ltac:(destruct Hrelay as [Hrelay | Hall];
                        [left; exact Hrelay
                        | right; apply Forall_cons in Hall as [_ Hall];
                          exact Hall]) s1 Hs1) as [Hpool Hs2].
    destruct (submit_all rest s1) as [pool s2]. simpl in *.
    split; [| exact Hs2].
    constructor; [exact Hp | exact Hpool].
Qed.

(** Whatever turns the event loop takes, every call of a batch settles
    with what its task alone decides, and what every step keeps is
    kept. *)
Lemma allSettled_spec (I : QueueState T -> Prop) (turns : list Move)
    (batch : list (Task T)) (s : QueueState T) :
  kept random I "unknown" ->
  relay_keeps I
  \/ Forall (λ task, is_fulfilled (outcome (maxRetries config) task) = true)
       batch ->
  I s ->
  (allSettled turns batch s).1 = outcome (maxRetries config) <$> batch
  /\ I (allSettled turns batch s).2.
Proof.
  intros Hkept Hrelay Hs. unfold RequestQueue.allSettled.
  destruct (submit_all_leads I batch Hkept Hrelay s Hs) as [Hpool Hs1].
  destruct (submit_all batch s) as [pool s1]. simpl in Hpool, Hs1.
  destruct (moves_leads I (proj1 Hkept) turns pool _ s1 Hpool Hs1)
    as [Hpool2 Hs2].
  destruct (moves turns pool s1) as [pool2 s2]. simpl in Hpool2, Hs2.
  apply (drain_leads I (proj1 Hkept)); assumption.
Qed.

Lemma allSettled_fst (turns : list Move) (batch : list (Task T))
    (s : QueueState T) :
  (allSettled turns batch s).1 = outcome (maxRetries config) <$> batch.
Proof.
  destruct (allSettled_spec (λ _, True) turns batch s) as [H _].
  - repeat split.
  - left. intros e s' _. exact Logic.I.
  - exact Logic.I.
  - exact H.
Qed.

(** ** The two partitions of a batch *)

Lemma successfulResults_app (xs ys : list (Settled T)) :
  successfulResults (xs ++ ys)
  = successfulResults xs ++ successfulResults ys.
Proof.
  unfold successfulResults. rewrite List.filter_app. apply omap_app.
Qed.

Lemma successfulResults_length (rs : list (Settled T)) :
  length (successfulResults rs) = length (List.filter is_fulfilled rs).
Proof.
  unfold successfulResults.
  induction rs as [| [v | e] rs IH]; simpl; [reflexivity | | exact IH].
  f_equal. exact IH.
Qed.

Lemma failedResults_length (rs : list (Settled T)) :
  length (failedResults rs) = length (List.filter is_rejected rs).
Proof.
  unfold failedResults.
  induction rs as [| [v | e] rs IH]; simpl; [reflexivity | exact IH |].
  f_equal. exact IH.
Qed.

Lemma partition_length (rs : list (Settled T)) :
  (length (successfulResults rs) + length (failedResults rs))%nat
  = length rs.
Proof.
  rewrite successfulResults_length, failedResults_length.
  induction rs as [| [v | e] rs IH]; simpl; lia.
Qed.

(** ** The loop of [addBatch] *)

Lemma slice_forward (tasks : list (Task T)) (i size : Z) :
  0 <= i -> 1 <= size ->
  drop (Z.to_nat i) tasks
  = slice tasks i (i + size) ++ drop (Z.to_nat (i + size)) tasks.
Proof.
  intros Hi Hsize. unfold slice.
  assert (Hneg1 : (i <? 0) = false) by lia.
  assert (Hneg2 : (i + size <? 0) = false) by lia.
  rewrite Hneg1, Hneg2.
  set (len := Z.of_nat (length tasks)).
  destruct (Z_le_gt_dec len i) as [Hout | Hin].
  - rewrite !Z.min_r by lia.
    rewrite !drop_ge by lia. rewrite take_nil. reflexivity.
  - rewrite (Z.min_l i len) by lia.
    destruct (Z_le_gt_dec (i + size) len) as [Hfit | Hcut].
    + rewrite Z.min_l by lia.
      replace (Z.to_nat (i + size - i)) with (Z.to_nat size) by lia.
      replace (Z.to_nat (i + size)) with (Z.to_nat i + Z.to_nat size)%nat
        by lia.
      rewrite <- drop_drop. symmetry. apply take_drop.
    + rewrite Z.min_r by lia.
      rewrite (drop_ge tasks (Z.to_nat (i + size))) by lia.
      rewrite app_nil_r. symmetry. apply take_ge.
      rewrite length_drop. lia.
Qed.

Section Loop.

Variable schedule : Z -> list Move.
Variable I : QueueState T -> Prop.

Local Abbreviation addBatch_loop :=
  (addBatch_loop (T := T) config random hostname retryTimeout schedule).

Hypothesis I_kept : kept random I "unknown".
Hypothesis I_callback :
  forall rs i s, I s -> I (emit (onBatchCompleteCall rs i) s).

Lemma addBatch_loop_returns (fuel : nat) (tasks : list (Task T))
    (size delay : Z) (callback : bool) :
  1 <= size ->
  forall (i : Z) (results : list T) (s : QueueState T),
    0 <= i ->
    Z.of_nat (length tasks) - i <= Z.of_nat fuel ->
    relay_keeps I
    \/ Forall (λ task,
                is_fulfilled (outcome (maxRetries config) task) = true)
         (drop (Z.to_nat i) tasks) ->
    I s ->
    exists s',
      addBatch_loop fuel tasks size delay callback i results s
      = Some (results
              ++ successfulResults
                   (outcome (maxRetries config)
                      <$> drop (Z.to_nat i) tasks),
              s')
      /\ I s'.
Proof.
  intros Hsize.
  induction fuel as [| fuel IH]; intros i results s Hi Hfuel Hrelay Hs.
  - simpl. assert (Hdone : (i <? Z.of_nat (length tasks)) = false) by lia.
    rewrite Hdone. exists s.
    rewrite drop_ge by lia. simpl. rewrite app_nil_r.
    split; [reflexivity | exact Hs].
  - simpl. destruct (i <? Z.of_nat (length tasks)) eqn:Hlt.
    + rewrite (slice_forward tasks i size Hi Hsize) in Hrelay.
      destruct (allSettled_spec I (schedule i)
                  (slice tasks i (i + size)) s I_kept) as [Hb Hs1].
      { destruct Hrelay as [Hrelay | Hall]; [left; exact Hrelay | right].
        apply Forall_app in Hall as [Hall _]. exact Hall. }
      { exact Hs. }
      destruct (allSettled (schedule i) (slice tasks i (i + size)) s)
        as [rs s1].
      simpl in Hb, Hs1. subst rs.
      match goal with
      | |- exists s', addBatch_loop _ _ _ _ _ _ ?r ?s0 = _ /\ _ =>
          destruct (IH (i + size) r s0 ltac:(lia) ltac:(lia)) as [s' [Hs' HI']]
      end.
      { destruct Hrelay as [Hrelay | Hall]; [left; exact Hrelay | right].
        apply Forall_app in Hall as [_ Hall]. exact Hall. }
      { assert (Hs2 : I (if callback
                         then emit
                                (onBatchCompleteCall
                                   (successfulResults
                                      (outcome (maxRetries config)
                                         <$> slice tasks i (i + size)))
                                   (i / size)) s1
                         else s1)).
        { destruct callback; [apply I_callback |]; exact Hs1. }
        destruct ((i + size <? Z.of_nat (length tasks)) && (0 <? delay));
          [apply (proj1 I_kept) |]; exact Hs2. }
      exists s'. split; [| exact HI']. rewrite Hs'. f_equal. f_equal.
      rewrite <- app_assoc. f_equal.
      rewrite (slice_forward tasks i size Hi Hsize).
      rewrite fmap_app, successfulResults_app. reflexivity.
    + exists s. rewrite drop_ge by lia. simpl. rewrite app_nil_r.
      split; [reflexivity | exact Hs].
Qed.

End Loop.

(** With a batch size of zero or less the loop index never reaches the
    length: no number of iterations leaves the loop. *)
Lemma addBatch_loop_never_returns (schedule : Z -> list Move) (fuel : nat)
    (tasks : list (Task T)) (size delay : Z) (callback : bool) :
  size <= 0 -> tasks ≠ [] ->
  forall (i : Z) (results : list T) (s : QueueState T),
    i <= 0 ->
    addBatch_loop config random hostname retryTimeout schedule fuel tasks
      size delay callback i results s = None.
Proof.
  intros Hsize Htasks.
  assert (Hlen : 0 < Z.of_nat (length tasks)).
  { destruct tasks; [congruence | simpl; lia]. }
  induction fuel as [| fuel IH]; intros i results s Hi; simpl.
  - assert (Hlt : (i <? Z.of_nat (length tasks)) = true) by lia.
    rewrite Hlt. reflexivity.
  - assert (Hlt : (i <? Z.of_nat (length tasks)) = true) by lia.
    rewrite Hlt.
    destruct (allSettled (schedule i) (slice tasks i (i + size)) s)
      as [rs s1].
    apply IH. lia.
Qed.

Lemma successfulResults_omap (rs : list (Settled T)) :
  successfulResults rs = omap settled_value rs.
Proof.
  unfold successfulResults.
  induction rs as [| [v | e] rs IH]; simpl; [reflexivity | | exact IH].
  f_equal. exact IH.
Qed.

(** ** Errors that nobody listens for *)

Lemma unhandled_relay (e : TaskError) (s : QueueState T) :
  unhandled (relay_error e s)
  = unhandled s ++ (if errorListener s then [] else [e]).
Proof.
  unfold unhandled, relay_error. cbn [relayed].
  rewrite filter_app, fmap_app. f_equal.
  destruct (errorListener s); reflexivity.
Qed.

(** The steps of a call other than the relay of an error leave the
    listener and the errors alone. *)
Lemma kept_unhandled (l : bool) (es : list TaskError) (domain : string) :
  kept random (λ s : QueueState T, errorListener s = l /\ unhandled s = es)
    domain.
Proof.
  unfold kept, unhandled.
  split; [| split; [| split]]; intros; simpl; assumption.
Qed.

(** C1, amended.  With a batch size of at least one, and a listener for
    ['error'] registered on the queue or no task rejected for good,
    [addBatch] on [N] tasks returns, whatever turns the event loop takes
    among the calls of a batch: its array holds the values of the tasks
    that fulfilled, in input order, and nothing for a task that was
    rejected, and no error is left unhandled.  The fulfilled and the
    rejected tasks together are the [N] inputs, so the array has [N]
    entries less the rejected ones, and a rejected task takes no
    fulfilled sibling's value away. *)
Theorem addBatch_returns_the_fulfilled (schedule : Z -> list Move)
    (tasks : list (Task T)) (options : BatchOptions) (s : QueueState T) :
  1 <= default (batchSize config) (opt_batchSize options) ->
  no_unhandled_error config tasks s ->
  (exists s',
     addBatch config random hostname retryTimeout schedule (length tasks)
       tasks options s
     = Some (omap settled_value (outcome (maxRetries config) <$> tasks),
             s')
     /\ unhandled s' = unhandled s)
  /\ (length (omap settled_value (outcome (maxRetries config) <$> tasks))
      + length (failedResults (outcome (maxRetries config) <$> tasks)))%nat
     = length tasks.
Proof.
  intros Hsize Hsafe. split.
  - unfold RequestQueue.addBatch.
    destruct (addBatch_loop_returns schedule
                (λ s', errorListener s' = errorListener s
                       /\ unhandled s' = unhandled s)
                (kept_unhandled _ _ _)
                ltac:(intros rs i s0 H0; exact H0)
                (length tasks) tasks _
                (default (requestDelay config) (delayBetweenBatches options))
                (onBatchComplete options) Hsize 0 [] s)
      as (s' & Hs' & _ & Hun); [lia | lia | | tauto |].
    + destruct Hsafe as [Hlisten | Hall]; [left | right; exact Hall].
      intros e s0 [Hl Hu]. split; [exact Hl |].
      rewrite unhandled_relay, Hl, Hlisten, app_nil_r. exact Hu.
    + exists s'. split; [| exact Hun]. rewrite Hs'. simpl.
      rewrite successfulResults_omap. reflexivity.
  - rewrite <- successfulResults_omap, partition_length.
    apply length_fmap.
Qed.

(** ** After [destroy] *)

(** C5, amended.  [destroy] empties the three maps and leaves no mark
    that the queue was closed: an [add] made afterwards is accepted like
    the first [add] on a new queue.  Its task is called, and when the
    first attempt succeeds [add] fulfils with its value; the request is
    dispatched under its key, which is then the only key with a count,
    of 1, and with a last request time. *)
Theorem add_after_destroy_is_accepted (taskFn : Task T)
    (options : AddOptions) (s : QueueState T) (v : T) :
  default false (abortSignal options) = false ->
  taskFn 1%nat = Fulfilled v ->
  requestDelay config <= clock s ->
  rateLimitMap (destroy s) = ∅
  /\ requestCounts (destroy s) = ∅
  /\ lastRequestTime (destroy s) = ∅
  /\ (add taskFn options (destroy s)).1 = Fulfilled v
  /\ exists t,
       clock s <= t
       /\ dispatched (add taskFn options (destroy s)).2
          = dispatched s
            ++ [(getDomain hostname (default "unknown" (url options)), t)]
       /\ requestCounts (add taskFn options (destroy s)).2
          = {[ getDomain hostname (default "unknown" (url options)) := 1 ]}
       /\ lastRequestTime (add taskFn options (destroy s)).2
          = {[ getDomain hostname (default "unknown" (url options)) := t ]}.
Proof.
  intros Hab Hok Hnow.
  split; [reflexivity |]. split; [reflexivity |]. split; [reflexivity |].
  unfold RequestQueue.add, RequestQueue.submit. cbn [draw].
  rewrite Hab.
  assert (Hgo : (clock s - default 0 ((∅ : gmap string Z)
                                       !! getDomain hostname
                                            (default "unknown" (url options)))
                 <? requestDelay config) = false).
  { rewrite lookup_empty. simpl. lia. }
  destruct (default (maxRetries config) (retries options)) as [| n];
    cbn [run_from RequestQueue.pRetry RequestQueue.input wake set_clock
         destroy clock lastRequestTime];
    rewrite Hgo;
    cbn [RequestQueue.call run_from wake record_dispatch set_clock clock];
    unfold RequestQueue.settled; rewrite Hok;
    cbn [finish run_from emit fst snd dispatched requestCounts
         lastRequestTime clock destroy];
    (split; [reflexivity |]);
    exists (clock s); (split; [lia |]);
    unfold record_dispatch, set_clock;
    cbn [dispatched requestCounts lastRequestTime clock];
    rewrite lookup_empty, !insert_empty; repeat split; reflexivity.
Qed.

(** ** The key of a task without [url] *)

Lemma getDomain_default :
  getDomain hostname (default "unknown" (url no_options)) = "unknown".
Proof. reflexivity. Qed.

(** ** Calls of [enforceRateLimit] that do not overlap *)

Lemma setTimeout_delay_exact (w : Z) :
  1 <= w <= TIMEOUT_MAX -> setTimeout_delay (inject_Z w) = w.
Proof.
  intros [Hlo Hhi]. unfold setTimeout_delay.
  assert (H1 : Qle_bool 1 (inject_Z w) = true).
  { apply Qle_bool_iff. change 1%Q with (inject_Z 1).
    rewrite <- Zle_Qle. exact Hlo. }
  assert (H2 : Qle_bool (inject_Z w) (inject_Z TIMEOUT_MAX) = true).
  { apply Qle_bool_iff. rewrite <- Zle_Qle. exact Hhi. }
  rewrite H1, H2. simpl. apply Qfloor_Z.
Qed.

(** Run on its own, a call comes back at least [requestDelay] after the
    previous dispatch to its key. *)
Lemma enforceRateLimit_alone (domain : string) (s : QueueState T) (t0 : Z) :
  lastRequestTime s !! domain = Some t0 ->
  t0 <= clock s ->
  requestDelay config <= TIMEOUT_MAX ->
  requestDelay config <= clock (enforceRateLimit config domain s) - t0
  /\ dispatched (enforceRateLimit config domain s)
     = dispatched s ++ [(domain, clock (enforceRateLimit config domain s))].
Proof.
  intros Hlast Hpast Hmax. unfold enforceRateLimit. rewrite Hlast. simpl.
  destruct (clock s - t0 <? requestDelay config) eqn:Hwait; simpl.
  - rewrite setTimeout_delay_exact by lia. split; [lia | reflexivity].
  - split; [lia | reflexivity].
Qed.

(** ** The key [add] dispatches under *)

Lemma touches_only_refl key (s s' : QueueState T) :
  dispatched s' = dispatched s ->
  lastRequestTime s' = lastRequestTime s ->
  requestCounts s' = requestCounts s ->
  touches_only key s s'.
Proof.
  intros Hd Hl Hc. split.
  - exists []. simpl. rewrite app_nil_r. exact Hd.
  - intros k _. rewrite Hl, Hc. split; reflexivity.
Qed.

Lemma touches_only_trans key (s1 s2 s3 : QueueState T) :
  touches_only key s1 s2 -> touches_only key s2 s3 ->
  touches_only key s1 s3.
Proof.
  intros [[ts1 Hd1] Ho1] [[ts2 Hd2] Ho2]. split.
  - exists (ts1 ++ ts2). rewrite Hd2, Hd1, fmap_app, app_assoc.
    reflexivity.
  - intros k Hk. destruct (Ho1 k Hk) as [Ha Hb].
    destruct (Ho2 k Hk) as [Hc Hd]. split; congruence.
Qed.

Lemma enforceRateLimit_touches key (s : QueueState T) :
  touches_only key s (enforceRateLimit config key s).
Proof.
  unfold enforceRateLimit, record_dispatch.
  destruct (clock s - default 0 (lastRequestTime s !! key)
            <? requestDelay config); split; simpl.
  - eexists [_]. reflexivity.
  - intros k Hk. rewrite !lookup_insert_ne by congruence.
    split; reflexivity.
  - eexists [_]. reflexivity.
  - intros k Hk. rewrite !lookup_insert_ne by congruence.
    split; reflexivity.
Qed.

Lemma kept_touches (key : string) (s0 : QueueState T) :
  kept random (touches_only key s0) key.
Proof.
  assert (Hsame : forall s s' : QueueState T,
            dispatched s' = dispatched s ->
            lastRequestTime s' = lastRequestTime s ->
            requestCounts s' = requestCounts s ->
            touches_only key s0 s -> touches_only key s0 s').
  { intros s s' Hd Hl Hc H.
    eapply touches_only_trans; [exact H |].
    apply touches_only_refl; assumption. }
  unfold kept. split; [| split; [| split]].
  - intros t s. apply Hsame; reflexivity.
  - intros e s _. apply Hsame; reflexivity.
  - intros s. apply Hsame; reflexivity.
  - intros s H. eapply touches_only_trans; [exact H |].
    split; simpl.
    + eexists [_]. reflexivity.
    + intros k Hk. rewrite !lookup_insert_ne by congruence.
      split; reflexivity.
Qed.

Lemma add_touches (taskFn : Task T) (options : AddOptions)
    (s : QueueState T) :
  touches_only (getDomain hostname (default "unknown" (url options))) s
    (add taskFn options s).2.
Proof.
  destruct (add_good
              (touches_only
                 (getDomain hostname (default "unknown" (url options))) s)
              (λ _, True) taskFn options s) as [_ H].
  - apply kept_touches.
  - left. intros e s' H.
    eapply touches_only_trans; [exact H |].
    apply touches_only_refl; reflexivity.
  - exact Logic.I.
  - apply touches_only_refl; reflexivity.
  - exact H.
Qed.

End Facts.

Import Examples.

Lemma addBatch_returns_the_fulfilled_witness :
  1 <= default (batchSize default_config) (opt_batchSize no_batch_options)
  /\ no_unhandled_error default_config
       [succeeds 1; always_fails; succeeds 3] listening
  /\ ((exists s',
         addBatch default_config no_draw no_host doubling in_turn 3
           [succeeds 1; always_fails; succeeds 3] no_batch_options listening
         = Some (omap settled_value
                   (outcome (maxRetries default_config)
                      <$> [succeeds 1; always_fails; succeeds 3]),
                 s')
         /\ unhandled s' = unhandled listening)
      /\ (length (omap settled_value
                    (outcome (maxRetries default_config)
                       <$> [succeeds 1; always_fails; succeeds 3]))
          + length (failedResults
                      (outcome (maxRetries default_config)
                         <$> [succeeds 1; always_fails; succeeds 3])))%nat
         = length [succeeds 1; always_fails; succeeds 3]).
Proof.
  split; [vm_compute; intros Hc; discriminate Hc |].
  split; [left; reflexivity |].
  apply (addBatch_returns_the_fulfilled default_config no_draw no_host
           doubling in_turn [succeeds 1; always_fails; succeeds 3]
           no_batch_options listening).
  - vm_compute. intros Hc. discriminate Hc.
  - left. reflexivity.
Defined.

(** C1, counterexample.  Three tasks, the second of which is rejected at
    every attempt, on a queue with a listener for ['error']: the array
    [addBatch] resolves with has two entries, [1] and [3], for three
    inputs, and carries nothing for the second. *)
Lemma addBatch_omits_the_rejected :
  ~ (forall (tasks : list (Task Z)) rs s',
       addBatch default_config no_draw no_host doubling in_turn
         (length tasks) tasks no_batch_options listening = Some (rs, s') ->
       length rs = length tasks).
Proof.
  intros H.
  destruct (addBatch default_config no_draw no_host doubling in_turn 3
              [succeeds 1; always_fails; succeeds 3] no_batch_options
              listening) as [[rs s'] |] eqn:E.
  - specialize (H [succeeds 1; always_fails; succeeds 3] rs s' E).
    assert (Hrs : fst <$> Some (rs, s') = Some [1; 3]).
    { rewrite <- E. vm_compute. reflexivity. }
    simpl in Hrs. injection Hrs as Hrs. subst rs. simpl in H. lia.
  - assert (Hnone : fst <$> (None : option (list Z * QueueState Z))
                    = Some [1; 3]).
    { rewrite <- E. vm_compute. reflexivity. }
    discriminate Hnone.
Qed.

(** The same batch on a queue as the repository uses it, without a
    listener: the rejected task leaves an ['error'] that nobody has
    taken. *)
Example rejected_task_without_listener :
  (unhandled ∘ snd)
    <$> addBatch default_config no_draw no_host doubling in_turn 3
          [succeeds 1; always_fails; succeeds 3] no_batch_options
          (new_queue t0)
  = Some [OtherError "boom"].
Proof. vm_compute. reflexivity. Qed.

(** Errors with the messages a, a, b, thrown in this order: [p-retry]
    rejects with the second, not with the last; and a [TypeError] that
    is no network error ends the call at the first attempt. *)
Example rejects_with_the_most_frequent :
  outcome 2
    (λ k, if (k <? 3)%nat then Rejected (OtherError "a")
          else Rejected (OtherError "b") : Settled Z)
  = Rejected (OtherError "a").
Proof. vm_compute. reflexivity. Qed.

Example type_error_is_not_retried :
  (add default_config no_draw no_host doubling
     (λ k, if (k <? 2)%nat then Rejected (TypeError "x is not a function" false)
           else Fulfilled 7)
     no_options (new_queue t0)).1
  = Rejected (TypeError "x is not a function" false).
Proof. vm_compute. reflexivity. Qed.

Lemma add_after_destroy_is_accepted_witness :
  rateLimitMap (destroy used_queue) = ∅
  /\ requestCounts (destroy used_queue) = ∅
  /\ lastRequestTime (destroy used_queue) = ∅
  /\ (add default_config no_draw example_host doubling (succeeds 42)
        to_example (destroy used_queue)).1 = Fulfilled 42
  /\ exists t,
       clock used_queue <= t
       /\ dispatched
            (add default_config no_draw example_host doubling (succeeds 42)
               to_example (destroy used_queue)).2
          = dispatched used_queue
            ++ [(getDomain example_host
                   (default "unknown" (url to_example)), t)]
       /\ requestCounts
            (add default_config no_draw example_host doubling (succeeds 42)
               to_example (destroy used_queue)).2
          = {[ getDomain example_host (default "unknown" (url to_example))
               := 1 ]}
       /\ lastRequestTime
            (add default_config no_draw example_host doubling (succeeds 42)
               to_example (destroy used_queue)).2
          = {[ getDomain example_host (default "unknown" (url to_example))
               := t ]}.
Proof.
  apply (add_after_destroy_is_accepted default_config no_draw example_host
           doubling (succeeds 42) to_example used_queue 42).
  - reflexivity.
  - reflexivity.
  - vm_compute. intros Hc. discriminate Hc.
Defined.

(** The queue of the witness has served a request to the same host:
    before [destroy] its count for the host is 1, and the request made
    after [destroy] does not bring it to 2. *)
Example used_queue_counts :
  requestCounts used_queue !! "example.com" = Some 1
  /\ requestCounts
       (add default_config no_draw example_host doubling (succeeds 42)
          to_example (destroy used_queue)).2 !! "example.com" = Some 1
  /\ requestCounts
       (add default_config no_draw example_host doubling (succeeds 42)
          to_example used_queue).2 !! "example.com" = Some 2.
Proof. repeat split; vm_compute; reflexivity. Qed.

(** C5, counterexample.  A queue is used, destroyed, and handed a task
    that succeeds: [add] does not reject it, it fulfils with the task's
    value. *)
Lemma add_after_destroy_fulfils :
  ~ (forall (taskFn : Task Z) (s : QueueState Z),
       exists reason,
         (add default_config no_draw no_host doubling taskFn no_options
            (destroy s)).1 = Rejected reason).
Proof.
  intros H.
  destruct (H (succeeds 42)
              (add default_config no_draw no_host doubling (succeeds 1)
                 no_options (new_queue t0)).2) as [reason Hr].
  vm_compute in Hr. discriminate Hr.
Qed.

End RequestQueueFacts.

(* ===================================================================== *)
(** * Theorems: overlapping calls of the rate limiter                     *)
(* ===================================================================== *)

Module InterleavingFacts.
Import RequestQueue Interleaving Examples.

Lemma setTimeout_delay_pos (ms : Q) : 1 <= setTimeout_delay ms.
Proof.
  unfold setTimeout_delay.
  destruct (Qle_bool 1 ms) eqn:Hlo; simpl; [| lia].
  destruct (Qle_bool ms (inject_Z TIMEOUT_MAX)); [| lia].
  apply Qle_bool_iff in Hlo.
  apply Qfloor_resp_le in Hlo. exact Hlo.
Qed.

(** A call that no other call overlaps is [enforceRateLimit] of the
    sequential reading: run it, let its timer elapse, run it again. *)
Lemma alone_is_enforceRateLimit {T : Type} (config : QueueConfig)
    (l : Loop T) (i : nat) (domain : string) :
  calls l !! i = Some (Called domain) ->
  exists schedule,
    run config schedule l
    = Some {| queue := enforceRateLimit config domain (queue l);
              calls := <[i := Returned domain]> (calls l) |}.
Proof.
  intros Hcall.
  assert (Hi : (i < length (calls l))%nat) by (eapply lookup_lt_Some; eauto).
  unfold enforceRateLimit.
  destruct (clock (queue l) - default 0 (lastRequestTime (queue l) !! domain)
            <? requestDelay config) eqn:Hwait.
  - set (w := setTimeout_delay
                (inject_Z (requestDelay config
                           - (clock (queue l)
                              - default 0 (lastRequestTime (queue l) !! domain))))).
    exists [Run i; Elapse w; Run i].
    pose proof (setTimeout_delay_pos
                  (inject_Z (requestDelay config
                             - (clock (queue l)
                                - default 0 (lastRequestTime (queue l) !! domain)))))
      as Hw. fold w in Hw.
    simpl. rewrite Hcall. unfold enter. rewrite Hwait. fold w. simpl.
    assert (Hge : (0 <=? w) = true) by lia. rewrite Hge. simpl.
    rewrite list_lookup_insert_eq by exact Hi.
    assert (Hfire : (clock (queue l) + w <=? clock (queue l) + w) = true)
      by lia.
    rewrite Hfire. rewrite list_insert_insert_eq. reflexivity.
  - exists [Run i]. simpl. rewrite Hcall. unfold enter. rewrite Hwait.
    reflexivity.
Qed.

(** ** Calls that do not overlap are spaced *)

Lemma spaced_from_app (d : Z) (previous : gmap string Z)
    (l1 l2 : list (string * Z)) :
  spaced_from d previous (l1 ++ l2)
  = spaced_from d previous l1 && spaced_from d (latest previous l1) l2.
Proof.
  revert previous. induction l1 as [| [k t] l1 IH]; intros previous; simpl.
  - reflexivity.
  - rewrite IH, andb_assoc. reflexivity.
Qed.

Lemma latest_app (previous : gmap string Z) (l1 l2 : list (string * Z)) :
  latest previous (l1 ++ l2) = latest (latest previous l1) l2.
Proof. apply foldl_app. Qed.

Lemma enforceRateLimit_keeps_settled {T : Type} (config : QueueConfig)
    (domain : string) (s : QueueState T) :
  requestDelay config <= TIMEOUT_MAX ->
  settled_queue (requestDelay config) s ->
  settled_queue (requestDelay config) (enforceRateLimit config domain s).
Proof.
  intros Hmax (Hpast & Hlatest & Hspaced).
  assert (Hclock : clock s <= clock (enforceRateLimit config domain s)).
  { unfold enforceRateLimit.
    destruct (_ <? _); simpl; [| lia].
    pose proof (setTimeout_delay_pos
                  (inject_Z (requestDelay config
                             - (clock s
                                - default 0 (lastRequestTime s !! domain))))).
    lia. }
  assert (Hlog : dispatched (enforceRateLimit config domain s)
                 = dispatched s
                   ++ [(domain, clock (enforceRateLimit config domain s))]).
  { unfold enforceRateLimit. destruct (_ <? _); reflexivity. }
  assert (Hmap : lastRequestTime (enforceRateLimit config domain s)
                 = <[domain := clock (enforceRateLimit config domain s)]>
                     (lastRequestTime s)).
  { unfold enforceRateLimit. destruct (_ <? _); reflexivity. }
  split; [| split].
  - intros k t. rewrite Hmap.
    destruct (decide (domain = k)) as [-> | Hne].
    + rewrite lookup_insert_eq. intros [= <-]. apply Z.le_refl.
    + rewrite lookup_insert_ne by exact Hne. intros Hk.
      specialize (Hpast k t Hk). lia.
  - rewrite Hlog, latest_app, Hlatest, Hmap. reflexivity.
  - unfold spaced in *. rewrite Hlog, spaced_from_app, Hspaced, Hlatest.
    cbn [spaced_from andb]. rewrite andb_true_r.
    destruct (lastRequestTime s !! domain) as [t1 |] eqn:Hlast;
      [| reflexivity].
    pose proof (RequestQueueFacts.enforceRateLimit_alone config domain s t1
                  Hlast (Hpast domain t1 Hlast) Hmax) as [Hgap _].
    apply Z.leb_le. exact Hgap.
Qed.

(** Whatever a sequential caller does on a fresh queue, every dispatch to
    a key comes at least [requestDelay] after the previous one. *)
Lemma sequential_calls_are_spaced {T : Type} (config : QueueConfig)
    (script : list Sequential) (now : Z) :
  requestDelay config <= TIMEOUT_MAX ->
  spaced (requestDelay config)
    (dispatched (run_sequential (T := T) config script (new_queue now)))
  = true.
Proof.
  intros Hmax.
  assert (Hinit : settled_queue (requestDelay config) (new_queue (T := T) now)).
  { split; [| split]; try reflexivity.
    intros k t. simpl. rewrite lookup_empty. discriminate. }
  revert Hinit. generalize (new_queue (T := T) now).
  unfold run_sequential.
  induction script as [| a script IH]; intros s Hs; simpl.
  - apply Hs.
  - apply IH. destruct a as [ms | domain].
    + destruct Hs as (Hpast & Hlatest & Hspaced).
      split; [| split]; simpl; try assumption.
      intros k t Hk. specialize (Hpast k t Hk). lia.
    + apply enforceRateLimit_keeps_settled; assumption.
Qed.

(** C2 (the code departs from the claim).  Three calls for one key start
    together on a fresh queue with the default [requestDelay] of 1500 ms.
    The first finds no earlier dispatch and goes ahead at [t0].  The
    second and the third both read [t0] as the last dispatch and both go
    to sleep until [t0 + 1500]; when their timers fire, each writes
    [t0 + 1500].  Two consecutive dispatches to the key are 0 ms apart. *)
Theorem overlapping_calls_dispatch_together :
  (dispatched ∘ queue)
    <$> run default_config overlapping (three_calls "example.com")
  = Some [("example.com", t0); ("example.com", t0 + 1500);
          ("example.com", t0 + 1500)]
  /\ (spaced (requestDelay default_config) ∘ dispatched ∘ queue)
       <$> run default_config overlapping (three_calls "example.com")
     = Some false.
Proof. split; vm_compute; reflexivity. Qed.

(** C9 (the code departs from the claim).  An [add] without [url], and so
    every task of [addBatch], is rate limited under the key ["unknown"],
    whatever the URL parser does, and touches the rate-limit state of no
    other key.  The spacing does not follow: the three tasks of a batch
    start together, and the second and the third are dispatched at the
    same instant, [t0 + 1500]. *)
Theorem batch_tasks_share_unknown_and_overlap :
  (forall (T : Type) (config : QueueConfig) random hostname retryTimeout
          (taskFn : Task T) (s : QueueState T),
      touches_only "unknown" s
        (add config random hostname retryTimeout taskFn no_options s).2)
  /\ (dispatched ∘ queue) <$> run default_config overlapping batch_of_three
     = Some [("unknown", t0); ("unknown", t0 + 1500);
             ("unknown", t0 + 1500)]
  /\ (spaced (requestDelay default_config) ∘ dispatched ∘ queue)
       <$> run default_config overlapping batch_of_three
     = Some false.
Proof.
  split.
  - intros T config random hostname retryTimeout taskFn s.
    apply (RequestQueueFacts.add_touches config random hostname
             retryTimeout taskFn no_options s).
  - split; vm_compute; reflexivity.
Qed.

End InterleavingFacts.

(* ===================================================================== *)
(** * Theorems: ProgressTracker                                           *)
(* ===================================================================== *)

Module ProgressTrackerFacts.
Import ProgressTracker Examples.

Local Open Scope Q_scope.

Example tracking_a_entry :
  (λ e, (status e, currentPage e, totalPages e, calculateETA e))
    <$> activeProgress tracking_a !! "a"
  = Some (DOWNLOADING, 12%Z, 10%Z, 0).
Proof. vm_compute. reflexivity. Qed.

(** ** Estimated time *)

Lemma calculateETA_zero (e : ProgressEntry) :
  (totalPages e <= currentPage e)%Z \/ speed e <= 0 ->
  calculateETA e = 0.
Proof.
  intros [Hdone | Hslow]; unfold calculateETA.
  - assert (Hb : (totalPages e <=? currentPage e)%Z = true) by lia.
    rewrite Hb, orb_true_r. reflexivity.
  - apply Qle_bool_iff in Hslow. rewrite Hslow. reflexivity.
Qed.

(** C8.  When [complete(id, true)] finds the record, the record it files
    has [currentPage] equal to [totalPages], hence not above it, and an
    estimated time of zero; and [calculateETA] is zero for every record
    whose [currentPage] has reached [totalPages] or whose speed is zero
    or negative. *)
Theorem complete_clamps_and_eta_is_zero (t : Tracker) (key : string)
    (now : Z) (e e0 : ProgressEntry) :
  activeProgress t !! key = Some e ->
  ((totalPages e0 <= currentPage e0)%Z \/ speed e0 <= 0) ->
  (exists e',
     completedProgress (complete now key true t) !! key = Some e'
     /\ status e' = COMPLETED
     /\ currentPage e' = totalPages e
     /\ totalPages e' = totalPages e
     /\ ~ (totalPages e' < currentPage e')%Z
     /\ calculateETA e' = 0)
  /\ activeProgress (complete now key true t) !! key = None
  /\ calculateETA e0 = 0.
Proof.
  intros Hactive Hzero. unfold complete. rewrite Hactive. simpl.
  repeat split.
  - eexists. rewrite lookup_insert_eq. split; [reflexivity |].
    simpl. repeat split; try reflexivity; try lia.
    apply calculateETA_zero. left. simpl. lia.
  - apply lookup_delete_eq.
  - apply calculateETA_zero, Hzero.
Qed.

Lemma complete_clamps_and_eta_is_zero_witness :
  (exists e',
     completedProgress (complete (t0 + 3000) "a" true tracking_a) !! "a"
     = Some e'
     /\ status e' = COMPLETED
     /\ currentPage e' = 10%Z
     /\ totalPages e' = 10%Z
     /\ ~ (totalPages e' < currentPage e')%Z
     /\ calculateETA e' = 0)
  /\ activeProgress (complete (t0 + 3000) "a" true tracking_a) !! "a" = None
  /\ calculateETA
       {| id := "b"; seriesName := "s"; episodeName := "e";
          status := PAUSED; currentPage := 2; totalPages := 10;
          downloadedBytes := 100; totalBytes := 1000; startTime := t0;
          lastUpdate := t0; speed := 0; errors := [];
          lastDownloadedBytes := None |} = 0.
Proof.
  destruct (activeProgress tracking_a !! "a") as [e |] eqn:E;
    [| vm_compute in E; discriminate E].
  assert (Htotal : totalPages e = 10%Z).
  { assert (H : totalPages <$> activeProgress tracking_a !! "a" = Some 10%Z)
      by (vm_compute; reflexivity).
    rewrite E in H. injection H as H. exact H. }
  rewrite <- Htotal.
  apply (complete_clamps_and_eta_is_zero tracking_a "a" (t0 + 3000) e
           {| id := "b"; seriesName := "s"; episodeName := "e";
              status := PAUSED; currentPage := 2; totalPages := 10;
              downloadedBytes := 100; totalBytes := 1000; startTime := t0;
              lastUpdate := t0; speed := 0; errors := [];
              lastDownloadedBytes := None |}).
  - exact E.
  - right. simpl. intros Hc. discriminate Hc.
Defined.

(** ** Cancelling *)

Lemma all_statuses_complete (st : DownloadStatus) : st ∈ all_statuses.
Proof. destruct st; unfold all_statuses; set_solver. Qed.

(** C4, counterexample.  A record is started and cancelled: what is
    filed under its id does not carry a status named "cancelled".  It
    carries [FAILED]; the enumeration has five members, none of which is
    bound to "cancelled". *)
Lemma cancel_files_under_failed :
  status
    <$> completedProgress
          (cancel "a" (start t0 "a" 10 None None new_tracker)) !! "a"
  = Some FAILED
  /\ ~ (exists e,
          completedProgress
            (cancel "a" (start t0 "a" 10 None None new_tracker)) !! "a"
          = Some e
          /\ status_value (status e) = "cancelled").
Proof.
  assert (H : status <$> completedProgress
                (cancel "a" (start t0 "a" 10 None None new_tracker)) !! "a"
              = Some FAILED) by (vm_compute; reflexivity).
  split; [exact H |].
  intros [e [He Hname]]. rewrite He in H. injection H as H.
  rewrite H in Hname. discriminate Hname.
Qed.

Lemma no_cancelled_status :
  length all_statuses = 5%nat
  /\ forall st, status_value st ≠ "cancelled".
Proof. split; [reflexivity | intros st; destruct st; discriminate]. Qed.

Lemma apply_keeps_completed (op : Op) (t : Tracker) :
  writes_completed op = false ->
  completedProgress (apply op t) = completedProgress t.
Proof.
  destruct op; simpl; intros Hw; try discriminate Hw.
  - reflexivity.
  - unfold updateProgress. destruct (activeProgress t !! key); reflexivity.
  - unfold pause. destruct (activeProgress t !! key); reflexivity.
  - unfold resume. destruct (activeProgress t !! key); reflexivity.
  - reflexivity.
Qed.

Lemma apply_all_keeps_completed (ops : list Op) (t : Tracker) :
  forallb (λ op, negb (writes_completed op)) ops = true ->
  completedProgress (apply_all ops t) = completedProgress t.
Proof.
  revert t. induction ops as [| op ops IH]; intros t Hops; simpl in *.
  - reflexivity.
  - apply andb_prop in Hops as [Hop Hrest].
    unfold apply_all in *. rewrite (IH _ Hrest).
    apply apply_keeps_completed. destruct (writes_completed op);
      [discriminate Hop | reflexivity].
Qed.

Lemma apply_keeps_final (key : string) (op : Op) (t : Tracker) :
  filed_as_final key t -> filed_as_final key (apply op t).
Proof.
  unfold filed_as_final. intros Hfinal.
  destruct (writes_completed op) eqn:Hw.
  - destruct op; simpl in *; try discriminate Hw.
    + unfold complete.
      destruct (activeProgress t !! key0) as [e |]; [| exact Hfinal].
      simpl. destruct (decide (key0 = key)) as [-> | Hne].
      * rewrite lookup_insert_eq. destruct success; reflexivity.
      * rewrite lookup_insert_ne by exact Hne. exact Hfinal.
    + unfold cancel.
      destruct (activeProgress t !! key0) as [e |]; [| exact Hfinal].
      simpl. destruct (decide (key0 = key)) as [-> | Hne].
      * rewrite lookup_insert_eq. reflexivity.
      * rewrite lookup_insert_ne by exact Hne. exact Hfinal.
    + rewrite lookup_empty. exact I.
    + rewrite lookup_empty. exact I.
  - rewrite (apply_keeps_completed op t Hw). exact Hfinal.
Qed.

Lemma apply_all_keeps_final (key : string) (ops : list Op) (t : Tracker) :
  filed_as_final key t -> filed_as_final key (apply_all ops t).
Proof.
  revert t. induction ops as [| op ops IH]; intros t Hfinal; simpl.
  - exact Hfinal.
  - apply IH, apply_keeps_final, Hfinal.
Qed.

(** C4, amended.  [cancel(id)] on a record of the active set removes it
    from there and files it in the completed set with status [FAILED].
    [start], [updateProgress], [pause], [resume] and the periodic update
    leave the filed record as it is; and after any sequence of
    operations, whatever is filed under that id (a later [complete] or
    [cancel] of a restarted id may replace the record, a clear may drop
    it) has status [COMPLETED] or [FAILED]. *)
Theorem cancel_files_the_record_as_failed (t : Tracker) (key : string)
    (e : ProgressEntry) (quiet ops : list Op) :
  activeProgress t !! key = Some e ->
  forallb (λ op, negb (writes_completed op)) quiet = true ->
  activeProgress (cancel key t) !! key = None
  /\ completedProgress (cancel key t) !! key = Some (set_status FAILED e)
  /\ completedProgress (apply_all quiet (cancel key t)) !! key
     = Some (set_status FAILED e)
  /\ filed_as_final key (apply_all ops (cancel key t)).
Proof.
  intros Hactive Hquiet.
  assert (Hfiled : completedProgress (cancel key t) !! key
                   = Some (set_status FAILED e)).
  { unfold cancel. rewrite Hactive. simpl. apply lookup_insert_eq. }
  repeat split.
  - unfold cancel. rewrite Hactive. simpl. apply lookup_delete_eq.
  - exact Hfiled.
  - rewrite apply_all_keeps_completed by exact Hquiet. exact Hfiled.
  - apply apply_all_keeps_final. unfold filed_as_final.
    rewrite Hfiled. reflexivity.
Qed.

Lemma cancel_files_the_record_as_failed_witness :
  activeProgress tracking_a !! "a"
  = Some {| id := "a"; seriesName := "Unknown Series";
            episodeName := "Unknown Episode"; status := DOWNLOADING;
            currentPage := 12; totalPages := 10; downloadedBytes := 4096;
            totalBytes := 8192; startTime := t0;
            lastUpdate := (t0 + 2000)%Z; speed := 3072000 # 1000;
            errors := []; lastDownloadedBytes := Some 4096%Z |}
  /\ activeProgress (cancel "a" tracking_a) !! "a" = None
  /\ status <$> completedProgress (cancel "a" tracking_a) !! "a"
     = Some FAILED
  /\ status
       <$> completedProgress
             (apply_all [OpPause "a"; OpUpdateProgress (t0 + 4000) "a" 5 None;
                         OpTick (t0 + 5000); OpResume "a"]
                (cancel "a" tracking_a)) !! "a"
     = Some FAILED
  /\ filed_as_final "a"
       (apply_all [OpStart (t0 + 6000) "a" 10 None None;
                   OpComplete (t0 + 7000) "a" true]
          (cancel "a" tracking_a)).
Proof.
  assert (E : activeProgress tracking_a !! "a"
              = Some {| id := "a"; seriesName := "Unknown Series";
                        episodeName := "Unknown Episode";
                        status := DOWNLOADING;
                        currentPage := 12; totalPages := 10;
                        downloadedBytes := 4096;
                        totalBytes := 8192; startTime := t0;
                        lastUpdate := (t0 + 2000)%Z;
                        speed := 3072000 # 1000;
                        errors := []; lastDownloadedBytes := Some 4096%Z |})
    by (vm_compute; reflexivity).
  split; [exact E |].
  destruct (cancel_files_the_record_as_failed tracking_a "a" _
              [OpPause "a"; OpUpdateProgress (t0 + 4000) "a" 5 None;
               OpTick (t0 + 5000); OpResume "a"]
              [OpStart (t0 + 6000) "a" 10 None None;
               OpComplete (t0 + 7000) "a" true]
              E eq_refl) as (H1 & H2 & H3 & H4).
  split; [exact H1 |].
  split; [rewrite H2; reflexivity |].
  split; [rewrite H3; reflexivity | exact H4].
Defined.

(** ** An id that is not being tracked *)

(** C10.  For an id with no record in the active set, [updateProgress],
    [pause], [resume], [cancel] and [complete] return the tracker as it
    was: the same active records, the same completed records, and no
    event added.  None of the five has a [throw] on that path. *)
Theorem untracked_id_is_a_no_op (t : Tracker) (key : string) (now page : Z)
    (additionalData : option AdditionalData) (success : bool) :
  activeProgress t !! key = None ->
  updateProgress now key page additionalData t = t
  /\ pause key t = t
  /\ resume key t = t
  /\ cancel key t = t
  /\ complete now key success t = t.
Proof.
  intros Hnone.
  unfold updateProgress, pause, resume, cancel, complete.
  rewrite Hnone. repeat split.
Qed.

Lemma untracked_id_is_a_no_op_witness :
  updateProgress (t0 + 5000) "b" 4 None tracking_a = tracking_a
  /\ pause "b" tracking_a = tracking_a
  /\ resume "b" tracking_a = tracking_a
  /\ cancel "b" tracking_a = tracking_a
  /\ complete (t0 + 5000) "b" false tracking_a = tracking_a.
Proof.
  apply (untracked_id_is_a_no_op tracking_a "b" (t0 + 5000) 4 None false).
  vm_compute. reflexivity.
Defined.

End ProgressTrackerFacts.

(* ===================================================================== *)
(** * Theorems: ImageDownloader                                           *)
(* ===================================================================== *)

Module ImageDownloaderFacts.
Import ImageDownloader Examples.

Lemma on_data_total (reports : bool) (contentLength : Z)
    (received : list (list byte)) (downloadedBytes : Z) :
  (on_data reports contentLength received downloadedBytes).1
  = downloadedBytes + Z.of_nat (length (concat received)).
Proof.
  revert downloadedBytes.
  induction received as [| chunk rest IH]; intros downloadedBytes; simpl.
  - lia.
  - specialize (IH (downloadedBytes + Z.of_nat (length chunk))).
    destruct (on_data reports contentLength rest
                (downloadedBytes + Z.of_nat (length chunk))) as [total calls].
    simpl in *. rewrite IH, length_app. lia.
Qed.

(** When [unlinkSync] does not throw, the [catch] block leaves nothing at
    the path. *)
Lemma on_failure_leaves_no_file (env : Environment)
    (filepath imageUrl errorText : string) (fs : FileSystem) :
  unlinkThrows env = false ->
  (on_failure env filepath imageUrl errorText fs).1
  = Threw (download_failed imageUrl filepath errorText)
  /\ (on_failure env filepath imageUrl errorText fs).2 !! filepath = None.
Proof.
  intros Hunlink. unfold on_failure, try_unlink, existsSync.
  rewrite Hunlink. simpl. split; [reflexivity |].
  case_bool_decide as Hex.
  - apply lookup_delete_eq.
  - destruct (fs !! filepath) eqn:E; [| reflexivity].
    exfalso. apply Hex. eauto.
Qed.

(** The cleanup ignores an [unlinkSync] that throws: the partial file then
    stays, and the call still fails with [DOWNLOAD_FAILED]. *)
Example failed_cleanup_leaves_the_partial_file :
  (downloadSingleImage broken_stream_env "https://cdn.example.com/1.jpg"
     "out/page-001.jpg" "jpg" plain_options true ∅).1
  = (Threw (download_failed "https://cdn.example.com/1.jpg"
              "out/page-001.jpg" "Error: socket hang up"),
     {["out/page-001.jpg" := ten_bytes]}).
Proof. vm_compute. reflexivity. Qed.

(** C6, counterexample.  The response declares [image/jpeg] and its
    stream ends, without error, after ten bytes.  The download path
    compares the byte count with nothing: the call resolves with
    [success: true] and the ten bytes stay at the sink path. *)
Lemma short_image_is_accepted :
  (downloadSingleImage tiny_image_env "https://cdn.example.com/1.jpg"
     "out/page-001.jpg" "jpg" plain_options true ∅).1.1
  = Resolved true 10
  /\ (downloadSingleImage tiny_image_env "https://cdn.example.com/1.jpg"
        "out/page-001.jpg" "jpg" plain_options true ∅).1.2
       !! "out/page-001.jpg"
     = Some ten_bytes
  /\ ~ (exists error,
          (downloadSingleImage tiny_image_env "https://cdn.example.com/1.jpg"
             "out/page-001.jpg" "jpg" plain_options true ∅).1.1
          = Threw error).
Proof.
  assert (H : (downloadSingleImage tiny_image_env
                 "https://cdn.example.com/1.jpg" "out/page-001.jpg" "jpg"
                 plain_options true ∅).1.1 = Resolved true 10)
    by (vm_compute; reflexivity).
  split; [exact H |]. split.
  - vm_compute. reflexivity.
  - intros [error He]. rewrite H in He. discriminate He.
Qed.

(** C6, amended.  Outside the skip-existing shortcut and with an
    [unlinkSync] that does not throw: a response whose content type does
    not contain "image" makes the call fail with a [DownloadError] of
    code [DOWNLOAD_FAILED] that wraps "Invalid content type"; a request
    or a stream that errors makes it fail likewise; and on each of these
    failures no file is left at the sink path.  The number of bytes
    received is not checked: a stream that ends without error resolves
    with [success: true] and the byte count, however small. *)
Theorem downloadSingleImage_failures (env : Environment)
    (imageUrl filepath urlFormat : string) (options : Options)
    (reports : bool) (fs : FileSystem) :
  existsSync filepath fs && skipExisting options
    && (1000 <? stat_size filepath fs) = false ->
  unlinkThrows env = false ->
  match axiosResult env with
  | AxiosError name message =>
      (downloadSingleImage env imageUrl filepath urlFormat options reports
         fs).1.1
      = Threw (download_failed imageUrl filepath (name +:+ ": " +:+ message))
      /\ (downloadSingleImage env imageUrl filepath urlFormat options
            reports fs).1.2 !! filepath = None
  | AxiosResponse response =>
      if declares_image response then
        match streamError response with
        | Some message =>
            (downloadSingleImage env imageUrl filepath urlFormat options
               reports fs).1.1
            = Threw (download_failed imageUrl filepath ("Error: " +:+ message))
            /\ (downloadSingleImage env imageUrl filepath urlFormat options
                  reports fs).1.2 !! filepath = None
        | None =>
            (downloadSingleImage env imageUrl filepath urlFormat options
               reports fs).1.1
            = Resolved true (Z.of_nat (length (concat (chunks response))))
        end
      else
        (downloadSingleImage env imageUrl filepath urlFormat options
           reports fs).1.1
        = Threw (download_failed imageUrl filepath
                   "DownloadError: Invalid content type")
        /\ (downloadSingleImage env imageUrl filepath urlFormat options
              reports fs).1.2 !! filepath = None
  end.
Proof.
  intros Hskip Hunlink. unfold downloadSingleImage. rewrite Hskip.
  unfold download.
  destruct (axiosResult env) as [name message | response].
  - simpl. apply on_failure_leaves_no_file, Hunlink.
  - destruct (declares_image response); simpl.
    + pose proof (on_data_total reports (default 0 (content_length response))
                    (chunks response) 0) as Htotal.
      destruct (on_data reports (default 0 (content_length response))
                  (chunks response) 0) as [total calls].
      simpl in Htotal. subst total.
      destruct (streamError response) as [message |]; simpl.
      * apply on_failure_leaves_no_file, Hunlink.
      * reflexivity.
    + apply on_failure_leaves_no_file, Hunlink.
Qed.

Lemma downloadSingleImage_failures_witness :
  (downloadSingleImage html_env "https://cdn.example.com/1.jpg"
     "out/page-001.jpg" "jpg" plain_options true ∅).1.1
  = Threw (download_failed "https://cdn.example.com/1.jpg" "out/page-001.jpg"
             "DownloadError: Invalid content type")
  /\ (downloadSingleImage html_env "https://cdn.example.com/1.jpg"
        "out/page-001.jpg" "jpg" plain_options true ∅).1.2
       !! "out/page-001.jpg" = None.
Proof.
  apply (downloadSingleImage_failures html_env
           "https://cdn.example.com/1.jpg" "out/page-001.jpg" "jpg"
           plain_options true ∅); reflexivity.
Defined.

End ImageDownloaderFacts.

(* ===================================================================== *)
(** * Further theorems: RequestQueue                                      *)
(* ===================================================================== *)

Module QueueLedgerFacts.
Import RequestQueue Interleaving QueueLedger Examples.

(** ** Calls of [enforceRateLimit] that do not overlap *)

(** When the calls of [enforceRateLimit] do not overlap, each being
    awaited before the next is made, with any waits in between, and
    [requestDelay] is a delay that a timer can hold, the queue stays in
    order. *)
Lemma awaited_calls_stay_spaced {T : Type} (config : QueueConfig)
    (script : list Sequential) (s : QueueState T) :
  requestDelay config <= TIMEOUT_MAX ->
  settled_queue (requestDelay config) s ->
  settled_queue (requestDelay config) (run_sequential config script s).
Proof.
  intros Hmax. revert s. unfold run_sequential.
  induction script as [| a script IH]; intros s Hs; simpl.
  - exact Hs.
  - apply IH. destruct a as [ms | domain].
    + destruct Hs as (Hpast & Hlatest & Hspaced).
      split; [| split]; simpl; try assumption.
      intros k t Hk. specialize (Hpast k t Hk). lia.
    + apply InterleavingFacts.enforceRateLimit_keeps_settled; assumption.
Qed.

Example awaited_calls_log :
  dispatched
    (run_sequential default_config
       [Limit "a.example"; Wait 10; Limit "a.example"; Limit "b.example";
        Wait 2000; Limit "a.example"]
       (new_queue (T := Z) t0))
  = [("a.example", t0); ("a.example", t0 + 1500); ("b.example", t0 + 1500);
     ("a.example", t0 + 3500)].
Proof. vm_compute. reflexivity. Qed.


(** ** Spacing when the tasks run one at a time *)

Section Alone.

Context {T : Type}.
Variable config : QueueConfig.
Variable random : nat -> Q.
Variable hostname : string -> option string.
Variable retryTimeout : nat -> Z.

Hypothesis delay_fits : requestDelay config <= TIMEOUT_MAX.

Local Abbreviation J := (settled_queue (T := T) (requestDelay config)).

Lemma set_clock_twice (t1 t2 : Z) (s : QueueState T) :
  set_clock t2 (set_clock t1 s) = set_clock t2 s.
Proof. reflexivity. Qed.

Lemma settled_queue_later (t : Z) (s : QueueState T) :
  clock s <= t -> J s -> J (set_clock t s).
Proof.
  intros Ht (Hpast & Hlatest & Hspaced).
  split; [| split]; simpl; try assumption.
  intros k t1 Hk. specialize (Hpast k t1 Hk). lia.
Qed.

Lemma record_dispatch_keeps_settled (domain : string) (s : QueueState T) :
  J s ->
  (forall t1, lastRequestTime s !! domain = Some t1 ->
     requestDelay config <= clock s - t1) ->
  J (record_dispatch domain s).
Proof.
  intros (Hpast & Hlatest & Hspaced) Hgap.
  unfold record_dispatch. split; [| split]; cbn [clock lastRequestTime
                                                  dispatched].
  - intros k t.
    destruct (decide (domain = k)) as [-> | Hne].
    + rewrite lookup_insert_eq. intros [= <-]. apply Z.le_refl.
    + rewrite lookup_insert_ne by exact Hne. apply Hpast.
  - rewrite InterleavingFacts.latest_app, Hlatest. reflexivity.
  - unfold spaced in *.
    rewrite InterleavingFacts.spaced_from_app, Hspaced, Hlatest.
    cbn [spaced_from andb]. rewrite andb_true_r.
    destruct (lastRequestTime s !! domain) as [t1 |] eqn:Hlast;
      [| reflexivity].
    apply Z.leb_le. apply Hgap. reflexivity.
Qed.

Lemma ready_wake (w : Suspension) (since now : Z) :
  ready w since (wake w since now) = true /\ now <= wake w since now.
Proof.
  destruct w as [ms |]; simpl; split; lia.
Qed.

Lemma alone_holds (p : Proc T) (since : Z) (s : QueueState T) :
  alone J p since s -> J s.
Proof. intros H. inversion H; assumption. Qed.

Lemma awaits_runs_alone (w : Suspension) (k : QueueState T -> Turn T)
    (since : Z) (s : QueueState T) :
  J s -> runs_alone J k -> alone J (Awaits w k) since s.
Proof.
  intros Hs Hk. apply alone_awaits; [exact Hs |].
  intros t Ht _. apply Hk. apply settled_queue_later; assumption.
Qed.

(** Run to its end, whenever it starts. *)
Lemma run_from_alone (p : Proc T) (since : Z) (s0 : QueueState T) :
  alone J p since s0 ->
  forall t, clock s0 <= t -> J (run_from since p (set_clock t s0)).2.
Proof.
  intros H. induction H as [r since s Hs | w k since s Hs Hk IH];
    intros t Ht.
  - apply settled_queue_later; assumption.
  - cbn [run_from]. rewrite set_clock_twice.
    change (clock (set_clock t s)) with t.
    destruct (ready_wake w since t) as [Hready Hnow].
    specialize (IH (wake w since t) ltac:(lia) Hready).
    destruct (k (set_clock (wake w since t) s)) as [s1 p1].
    cbn [proc_of state_of] in IH.
    specialize (IH (clock s1) ltac:(lia)).
    rewrite RequestQueueFacts.set_clock_same in IH. exact IH.
Qed.

(** Resumed by the event loop, with time passing in between. *)
Lemma moves_alone (turns : list Move) :
  forall (p : Proc T) (since : Z) (s0 : QueueState T) (t : Z),
    alone J p since s0 -> clock s0 <= t ->
    exists p' since' s0' t',
      moves turns [(p, since)] (set_clock t s0)
      = ([(p', since')], set_clock t' s0')
      /\ alone J p' since' s0'
      /\ clock s0' <= t'.
Proof.
  induction turns as [| m rest IH]; intros p since s0 t Hp Ht.
  - exists p, since, s0, t. repeat split; assumption.
  - cbn [moves]. destruct m as [ms | i].
    + cbn [move]. rewrite set_clock_twice.
      change (clock (set_clock t s0)) with t.
      apply IH; [exact Hp | lia].
    + destruct i as [| i].
      * cbn [move lookup list_lookup].
        destruct p as [r | w k]; [apply IH; assumption |].
        change (clock (set_clock t s0)) with t.
        destruct (ready w since t) eqn:Hready; [| apply IH; assumption].
        inversion Hp as [| w' k' since' s' Hs Hk]; subst.
        specialize (Hk t Ht Hready).
        destruct (k (set_clock t s0)) as [s1 p1].
        cbn [proc_of state_of] in Hk. cbn [insert list_insert].
        rewrite <- (RequestQueueFacts.set_clock_same s1).
        apply IH; [exact Hk | lia].
      * cbn [move]. simpl. apply IH; assumption.
Qed.

Lemma moves_none (turns : list Move) :
  forall (s : QueueState T),
    J s ->
    (moves turns [] s).1 = [] /\ J (moves turns [] s).2.
Proof.
  induction turns as [| m rest IH]; intros s Hs.
  - split; [reflexivity | exact Hs].
  - cbn [moves]. destruct m as [ms | i]; cbn [move].
    + apply IH. apply settled_queue_later; [simpl; lia | exact Hs].
    + simpl. apply IH. exact Hs.
Qed.

Section Job.

Variable taskFn : Task T.
Variable id : TaskId.
Variable domain : string.
Variable nretries : nat.
Variable aborted : bool.
Variable reports : bool.

Lemma finish_alone (r : Settled T) (s : QueueState T) :
  J s ->
  alone J (proc_of (finish r s)) (clock (state_of (finish r s)))
    (state_of (finish r s)).
Proof.
  intros Hs. destruct r as [v | e]; simpl; apply alone_settles; exact Hs.
Qed.

Lemma failed_runs_alone
    (again : option (list TaskError -> QueueState T -> Turn T))
    (attempt retriesLeft : nat) (thrown : list TaskError) (e : TaskError) :
  (forall next thrown', again = Some next -> runs_alone J (next thrown')) ->
  runs_alone J
    (failed retryTimeout reports again attempt retriesLeft thrown e).
Proof.
  intros Hnext s Hs. unfold failed.
  destruct (retried e); [| apply finish_alone; exact Hs].
  assert (Hs1 : J (if reports
                   then emit (onProgressCall attempt retriesLeft e) s
                   else s))
    by (destruct reports; exact Hs).
  destruct again as [next |].
  - cbn [proc_of state_of]. apply awaits_runs_alone; [exact Hs1 |].
    apply (Hnext next). reflexivity.
  - apply finish_alone. exact Hs1.
Qed.

Lemma backoff_runs_alone
    (again : option (list TaskError -> QueueState T -> Turn T))
    (attempt retriesLeft : nat) (thrown : list TaskError) (e : TaskError) :
  (forall next thrown', again = Some next -> runs_alone J (next thrown')) ->
  runs_alone J
    (backoff config random retryTimeout reports again attempt retriesLeft
       thrown e).
Proof.
  intros Hnext s Hs. unfold backoff. cbn [draw proc_of state_of].
  apply awaits_runs_alone; [exact Hs |].
  apply failed_runs_alone. exact Hnext.
Qed.

Lemma settled_runs_alone
    (again : option (list TaskError -> QueueState T -> Turn T))
    (attempt retriesLeft : nat) (thrown : list TaskError) :
  (forall next thrown', again = Some next -> runs_alone J (next thrown')) ->
  runs_alone J
    (RequestQueue.settled config random retryTimeout taskFn id nretries
       reports again attempt retriesLeft thrown).
Proof.
  intros Hnext s Hs. unfold RequestQueue.settled.
  destruct (taskFn attempt) as [v | e].
  - apply finish_alone. exact Hs.
  - destruct e as [msg retryAfter | msg network | msg].
    + destruct retryAfter as [ms |];
        [| apply backoff_runs_alone; assumption].
      destruct (ms =? 0); [apply backoff_runs_alone; assumption |].
      cbn [proc_of state_of]. apply awaits_runs_alone; [exact Hs |].
      apply failed_runs_alone. exact Hnext.
    + destruct (attempt =? nretries + 1)%nat;
        [| apply backoff_runs_alone; assumption].
      apply failed_runs_alone; [exact Hnext | exact Hs].
    + destruct (attempt =? nretries + 1)%nat;
        [| apply backoff_runs_alone; assumption].
      apply failed_runs_alone; [exact Hnext | exact Hs].
Qed.

(** The rate limiter of a call that is alone: when its timer has fired,
    the last dispatch to its key is [requestDelay] back or more. *)
Lemma input_runs_alone
    (again : option (list TaskError -> QueueState T -> Turn T))
    (attempt retriesLeft : nat) (thrown : list TaskError) :
  (forall next thrown', again = Some next -> runs_alone J (next thrown')) ->
  runs_alone J
    (input config random retryTimeout taskFn id domain nretries aborted
       reports again attempt retriesLeft thrown).
Proof.
  intros Hnext s Hs. unfold input.
  destruct aborted; [apply failed_runs_alone; assumption |].
  cbv zeta.
  destruct (clock s - default 0 (lastRequestTime s !! domain)
            <? requestDelay config) eqn:Hwait.
  - cbn [proc_of state_of]. apply alone_awaits; [exact Hs |].
    intros t Ht Hready. unfold call. cbn [proc_of state_of].
    apply awaits_runs_alone;
      [| apply settled_runs_alone; exact Hnext].
    apply record_dispatch_keeps_settled.
    + apply settled_queue_later; assumption.
    + cbn [clock lastRequestTime set_clock]. intros t1 Hlast.
      rewrite Hlast in Hwait, Hready.
      cbn [default from_option Datatypes.id] in Hwait, Hready.
      destruct Hs as (Hpast & _). specialize (Hpast domain t1 Hlast).
      cbn [ready] in Hready.
      apply Z.ltb_lt in Hwait.
      rewrite RequestQueueFacts.setTimeout_delay_exact in Hready
        by (split; lia).
      apply Z.leb_le in Hready. lia.
  - unfold call. cbn [proc_of state_of].
    apply awaits_runs_alone;
      [| apply settled_runs_alone; exact Hnext].
    apply record_dispatch_keeps_settled; [exact Hs |].
    intros t1 Hlast. rewrite Hlast in Hwait.
    cbn [default from_option Datatypes.id] in Hwait.
    apply Z.ltb_ge in Hwait. lia.
Qed.

Lemma pRetry_runs_alone (retriesLeft : nat) :
  forall (attempt : nat) (thrown : list TaskError),
    runs_alone J
      (pRetry config random retryTimeout taskFn id domain nretries aborted
         reports retriesLeft attempt thrown).
Proof.
  induction retriesLeft as [| n IH]; intros attempt thrown;
    cbn [pRetry]; apply input_runs_alone.
  - intros next thrown' Hnone. discriminate Hnone.
  - intros next thrown' [= <-]. apply IH.
Qed.

End Job.

Lemma submit_alone (taskFn : Task T) (options : AddOptions)
    (s : QueueState T) :
  J s ->
  alone J (submit config random hostname retryTimeout taskFn options s).1
    (clock (submit config random hostname retryTimeout taskFn options s).2)
    (submit config random hostname retryTimeout taskFn options s).2.
Proof.
  intros Hs. unfold submit. cbn [draw fst snd].
  apply awaits_runs_alone; [exact Hs |]. apply pRetry_runs_alone.
Qed.

(** A batch of at most one task. *)
Lemma allSettled_alone (turns : list Move) (batch : list (Task T))
    (s : QueueState T) :
  (length batch <= 1)%nat ->
  J s ->
  J (allSettled config random hostname retryTimeout turns batch s).2.
Proof.
  intros Hlen Hs. unfold allSettled.
  destruct batch as [| task [| task2 rest]]; [| | simpl in Hlen; lia].
  - cbn [submit_all].
    destruct (moves_none turns s Hs) as [Hpool Hs2].
    destruct (moves turns [] s) as [pool s2]. simpl in Hpool, Hs2.
    subst pool. exact Hs2.
  - cbn [submit_all].
    pose proof (submit_alone task no_options s Hs) as Hp.
    destruct (submit config random hostname retryTimeout task no_options s)
      as [p s1]. cbn [fst snd] in Hp.
    destruct (moves_alone turns p (clock s1) s1 (clock s1) Hp ltac:(lia))
      as (p' & since' & s0' & t' & Hmoves & Hp' & Ht').
    rewrite RequestQueueFacts.set_clock_same in Hmoves.
    cbn [submit_all]. rewrite Hmoves. cbn [drain].
    pose proof (run_from_alone p' since' s0' Hp' t' Ht') as Hend.
    destruct (run_from since' p' (set_clock t' s0')) as [r s3].
    exact Hend.
Qed.

Lemma slice_of_one {A : Type} (l : list A) (i : Z) :
  0 <= i -> (length (slice l i (i + 1)) <= 1)%nat.
Proof.
  intros Hi. unfold slice.
  assert (H1 : (i <? 0) = false) by lia.
  assert (H2 : (i + 1 <? 0) = false) by lia.
  rewrite H1, H2, length_take.
  assert (Hk : (Z.to_nat (Z.min (i + 1) (Z.of_nat (length l))
                          - Z.min i (Z.of_nat (length l))) <= 1)%nat)
    by (destruct (Z.min_spec (i + 1) (Z.of_nat (length l))) as [[? ->] | [? ->]];
        destruct (Z.min_spec i (Z.of_nat (length l))) as [[? ->] | [? ->]];
        lia).
  etransitivity; [apply Nat.le_min_l | exact Hk].
Qed.

Lemma addBatch_loop_alone (schedule : Z -> list Move)
    (tasks : list (Task T)) (delay : Z) (callback : bool) :
  forall (fuel : nat) (i : Z) (results out : list T) (s s' : QueueState T),
    0 <= i ->
    addBatch_loop config random hostname retryTimeout schedule fuel tasks
      1 delay callback i results s = Some (out, s') ->
    J s -> J s'.
Proof.
  induction fuel as [| fuel IH]; intros i results out s s' Hi Hrun Hs;
    simpl in Hrun; destruct (i <? Z.of_nat (length tasks));
    try discriminate Hrun;
    try (injection Hrun as _ <-; exact Hs).
  pose proof (allSettled_alone (schedule i) (slice tasks i (i + 1)) s
                (slice_of_one tasks i Hi) Hs) as Hstep.
  destruct (allSettled config random hostname retryTimeout (schedule i)
              (slice tasks i (i + 1)) s) as [rs s1].
  assert (Hnext : 0 <= i + 1) by lia.
  apply (IH _ _ _ _ _ Hnext Hrun). simpl in Hstep.
  assert (Hs2 : J (if callback
                   then emit (onBatchCompleteCall (successfulResults rs)
                                (i / 1)) s1
                   else s1))
    by (destruct callback; exact Hstep).
  destruct ((i + 1 <? Z.of_nat (length tasks)) && (0 <? delay));
    [| exact Hs2].
  unfold sleep. apply settled_queue_later; [| exact Hs2].
  pose proof (InterleavingFacts.setTimeout_delay_pos (inject_Z delay)).
  lia.
Qed.

End Alone.

(** X1.  With a batch size of one the tasks of [addBatch] run one at a
    time, each call of [add] being settled before the next is made.
    Then, for a [requestDelay] that a timer can hold, a call of
    [addBatch] that returns leaves the queue in order if it found it in
    order: [lastRequestTime] holds the latest dispatch of every key,
    none of them in the future, and every dispatch to a key, retries
    included, comes at least [requestDelay] after the previous dispatch
    to that key, whenever [PQueue] starts the calls and the event loop
    resumes them. *)
Theorem addBatch_one_at_a_time_is_spaced {T : Type} (config : QueueConfig)
    (random : nat -> Q) (hostname : string -> option string)
    (retryTimeout : nat -> Z) (schedule : Z -> list Move) (fuel : nat)
    (tasks : list (Task T)) (options : BatchOptions)
    (s s' : QueueState T) (out : list T) :
  requestDelay config <= TIMEOUT_MAX ->
  default (batchSize config) (opt_batchSize options) = 1 ->
  settled_queue (requestDelay config) s ->
  addBatch config random hostname retryTimeout schedule fuel tasks options s
  = Some (out, s') ->
  settled_queue (requestDelay config) s'.
Proof.
  intros Hmax Hone Hs Hrun. unfold addBatch in Hrun. rewrite Hone in Hrun.
  apply (addBatch_loop_alone config random hostname retryTimeout Hmax
           schedule tasks _ _ fuel 0 [] out s s' ltac:(lia) Hrun Hs).
Qed.

Lemma addBatch_one_at_a_time_is_spaced_witness :
  match
    addBatch default_config no_draw no_host doubling in_turn 3
      [succeeds 1; always_fails; third_time_lucky 3]
      {| opt_batchSize := Some 1; delayBetweenBatches := None;
         onBatchComplete := false |}
      listening
  with
  | Some (_, s') => settled_queue (requestDelay default_config) s'
  | None => False
  end.
Proof.
  destruct (addBatch default_config no_draw no_host doubling in_turn 3
              [succeeds 1; always_fails; third_time_lucky 3]
              {| opt_batchSize := Some 1; delayBetweenBatches := None;
                 onBatchComplete := false |}
              listening) as [[out s'] |] eqn:Hrun.
  - apply (addBatch_one_at_a_time_is_spaced default_config no_draw no_host
             doubling in_turn 3
             [succeeds 1; always_fails; third_time_lucky 3]
             {| opt_batchSize := Some 1; delayBetweenBatches := None;
                onBatchComplete := false |}
             listening s' out).
    + vm_compute. intros Hc. discriminate Hc.
    + reflexivity.
    + split; [| split]; try reflexivity.
      intros k t. simpl. rewrite lookup_empty. discriminate.
    + exact Hrun.
  - vm_compute in Hrun. discriminate Hrun.
Defined.

(** X27.  A call of [add] that is awaited with no other call under
    way, for a [requestDelay] that a timer can hold, leaves the queue in
    order if it found it in order: each of its attempts passes the rate
    limiter at least [requestDelay] after the previous dispatch to its
    key, that of its own previous attempt included. *)
Theorem add_alone_is_spaced {T : Type} (config : QueueConfig)
    (random : nat -> Q) (hostname : string -> option string)
    (retryTimeout : nat -> Z) (taskFn : Task T) (options : AddOptions)
    (s : QueueState T) :
  requestDelay config <= TIMEOUT_MAX ->
  settled_queue (requestDelay config) s ->
  settled_queue (requestDelay config)
    (add config random hostname retryTimeout taskFn options s).2.
Proof.
  intros Hmax Hs. unfold add.
  pose proof (submit_alone config random hostname retryTimeout Hmax taskFn
                options s Hs) as Hp.
  destruct (submit config random hostname retryTimeout taskFn options s)
    as [p s1]. cbn [fst snd] in Hp.
  pose proof (run_from_alone config p (clock s1) s1 Hp (clock s1)
                ltac:(lia)) as Hend.
  rewrite RequestQueueFacts.set_clock_same in Hend. exact Hend.
Qed.

Lemma add_alone_is_spaced_witness :
  settled_queue (requestDelay default_config)
    (add default_config no_draw example_host doubling always_fails
       to_example (new_queue t0)).2.
Proof.
  apply (add_alone_is_spaced default_config no_draw example_host doubling
           always_fails to_example (new_queue t0)).
  - vm_compute. intros Hc. discriminate Hc.
  - split; [| split]; try reflexivity.
    intros k t. simpl. rewrite lookup_empty. discriminate.
Defined.

Example add_alone_log :
  dispatched
    (add default_config no_draw example_host doubling always_fails
       to_example used_queue).2
  = [("example.com", t0); ("example.com", t0 + 1500);
     ("example.com", t0 + 4500); ("example.com", t0 + 10500);
     ("example.com", t0 + 22500)].
Proof. vm_compute. reflexivity. Qed.

Example one_at_a_time_log :
  (λ r, dispatched r.2)
    <$> addBatch default_config no_draw no_host doubling in_turn 3
          [succeeds 1; always_fails; third_time_lucky 3]
          {| opt_batchSize := Some 1; delayBetweenBatches := None;
             onBatchComplete := false |}
          listening
  = Some [("unknown", t0); ("unknown", t0 + 1500); ("unknown", t0 + 4500);
          ("unknown", t0 + 10500); ("unknown", t0 + 22500);
          ("unknown", t0 + 24000); ("unknown", t0 + 27000);
          ("unknown", t0 + 33000)].
Proof. vm_compute. reflexivity. Qed.

(** With the default batch size the calls of a batch overlap, and the
    second and the third task are dispatched together. *)
Example batch_of_three_log :
  (λ r, (dispatched r.2, spaced (requestDelay default_config)
                           (dispatched r.2)))
    <$> addBatch default_config no_draw no_host doubling together 3
          [succeeds 1; succeeds 2; succeeds 3] no_batch_options
          (new_queue t0)
  = Some ([("unknown", t0); ("unknown", t0 + 1500);
           ("unknown", t0 + 1500)], false).
Proof. vm_compute. reflexivity. Qed.

(** ** The request counts *)

Lemma dispatches_to_app (key : string) (l1 l2 : list (string * Z)) :
  dispatches_to key (l1 ++ l2)
  = (dispatches_to key l1 + dispatches_to key l2)%nat.
Proof. unfold dispatches_to. rewrite filter_app, length_app. reflexivity. Qed.

Lemma dispatches_to_one (key domain : string) (t : Z) :
  dispatches_to key [(domain, t)]
  = if decide (domain = key) then 1%nat else 0%nat.
Proof.
  unfold dispatches_to. rewrite filter_cons. simpl.
  destruct (decide (domain = key)); reflexivity.
Qed.

Lemma record_dispatch_counts {T : Type} (domain : string)
    (s : QueueState T) :
  counts_agree s -> counts_agree (record_dispatch domain s).
Proof.
  intros Hs key. unfold record_dispatch. cbn [requestCounts dispatched].
  rewrite dispatches_to_app, dispatches_to_one.
  pose proof (Hs key) as Hkey.
  destruct (decide (domain = key)) as [-> | Hne].
  - rewrite lookup_insert_eq.
    rewrite decide_False by lia. f_equal.
    destruct (decide (dispatches_to key (dispatched s) = 0%nat)) as [Hz | Hnz];
      rewrite Hkey; simpl; lia.
  - rewrite lookup_insert_ne by exact Hne.
    rewrite !Nat.add_0_r. exact Hkey.
Qed.

Lemma kept_counts {T : Type} (random : nat -> Q) (domain : string) :
  kept random (counts_agree (T := T)) domain.
Proof.
  unfold kept. split; [| split; [| split]].
  - intros t s H. exact H.
  - intros e s _ H. exact H.
  - intros s H. exact H.
  - intros s. apply record_dispatch_counts.
Qed.

(** What every step of every call keeps is kept by a call of [addBatch]
    that returns. *)
Lemma addBatch_loop_keeps {T : Type} (config : QueueConfig)
    (random : nat -> Q) (hostname : string -> option string)
    (retryTimeout : nat -> Z) (schedule : Z -> list Move)
    (I : QueueState T -> Prop) (tasks : list (Task T))
    (size delay : Z) (callback : bool) :
  kept random I "unknown" ->
  relay_keeps I ->
  (forall rs i s, I s -> I (emit (onBatchCompleteCall rs i) s)) ->
  forall (fuel : nat) (i : Z) (results out : list T) (s s' : QueueState T),
    addBatch_loop config random hostname retryTimeout schedule fuel tasks
      size delay callback i results s = Some (out, s') ->
    I s -> I s'.
Proof.
  intros Hkept Hrelay Hcallback.
  induction fuel as [| fuel IH]; intros i results out s s' Hrun Hs;
    simpl in Hrun; destruct (i <? Z.of_nat (length tasks));
    try discriminate Hrun;
    try (injection Hrun as _ <-; exact Hs).
  destruct (RequestQueueFacts.allSettled_spec config random hostname
              retryTimeout I (schedule i) (slice tasks i (i + size)) s
              Hkept (or_introl Hrelay) Hs) as [_ Hstep].
  destruct (allSettled config random hostname retryTimeout (schedule i)
              (slice tasks i (i + size)) s) as [rs s1].
  apply (IH _ _ _ _ _ Hrun). simpl in Hstep.
  assert (Hs2 : I (if callback
                   then emit (onBatchCompleteCall (successfulResults rs)
                                (i / size)) s1
                   else s1)).
  { destruct callback; [apply Hcallback |]; exact Hstep. }
  destruct ((i + size <? Z.of_nat (length tasks)) && (0 <? delay));
    [apply (proj1 Hkept) |]; exact Hs2.
Qed.

(** X2.  The counts [getStats()] reports are the dispatch counts: if the
    count kept for every key is the number of dispatches made under it
    when [addBatch] is called, this holds again when the call has
    returned, however many attempts and batches it took and whatever
    turns the event loop took among the calls of a batch. *)
Theorem addBatch_keeps_the_counts {T : Type} (config : QueueConfig)
    (random : nat -> Q) (hostname : string -> option string)
    (retryTimeout : nat -> Z) (schedule : Z -> list Move) (fuel : nat)
    (tasks : list (Task T)) (options : BatchOptions)
    (s s' : QueueState T) (out : list T) :
  addBatch config random hostname retryTimeout schedule fuel tasks options s
  = Some (out, s') ->
  counts_agree s ->
  counts_agree s'.
Proof.
  unfold addBatch. intros Hrun Hs.
  eapply (addBatch_loop_keeps config random hostname retryTimeout schedule
            counts_agree); [| | | exact Hrun | exact Hs].
  - apply kept_counts.
  - intros e s0 H0. exact H0.
  - intros rs i s0 H0. exact H0.
Qed.

Lemma addBatch_keeps_the_counts_witness :
  match
    addBatch default_config no_draw no_host doubling in_turn 3
      [succeeds 1; always_fails; third_time_lucky 3] no_batch_options
      listening
  with
  | Some (_, s') => counts_agree s'
  | None => False
  end.
Proof.
  destruct (addBatch default_config no_draw no_host doubling in_turn 3
              [succeeds 1; always_fails; third_time_lucky 3]
              no_batch_options listening) as [[out s'] |] eqn:Hrun.
  - apply (addBatch_keeps_the_counts default_config no_draw no_host doubling
             in_turn 3 [succeeds 1; always_fails; third_time_lucky 3]
             no_batch_options listening s' out Hrun).
    intros key. reflexivity.
  - vm_compute in Hrun. discriminate Hrun.
Defined.

Example counts_after_a_batch :
  (λ r, requestCounts r.2 !! "unknown")
    <$> addBatch default_config no_draw no_host doubling in_turn 3
          [succeeds 1; always_fails; third_time_lucky 3] no_batch_options
          listening
  = Some (Some 8).
Proof. vm_compute. reflexivity. Qed.

(** ** A batch size that is not positive *)

(** X3.  With a batch size of zero or less and at least one task, the
    loop of [addBatch] never ends: whatever number of iterations is
    allowed, it has not returned. *)
Theorem addBatch_never_returns {T : Type} (config : QueueConfig)
    (random : nat -> Q) (hostname : string -> option string)
    (retryTimeout : nat -> Z) (schedule : Z -> list Move) (fuel : nat)
    (tasks : list (Task T)) (options : BatchOptions) (s : QueueState T) :
  default (batchSize config) (opt_batchSize options) <= 0 ->
  tasks ≠ [] ->
  addBatch config random hostname retryTimeout schedule fuel tasks options s
  = None.
Proof.
  intros Hsize Htasks. unfold addBatch.
  apply RequestQueueFacts.addBatch_loop_never_returns;
    [exact Hsize | exact Htasks | lia].
Qed.

Lemma addBatch_never_returns_witness :
  addBatch default_config no_draw no_host doubling in_turn 50 [succeeds 1]
    {| opt_batchSize := Some 0; delayBetweenBatches := None;
       onBatchComplete := false |}
    (new_queue t0) = None.
Proof.
  apply (addBatch_never_returns default_config no_draw no_host doubling
           in_turn 50 [succeeds 1]
           {| opt_batchSize := Some 0; delayBetweenBatches := None;
              onBatchComplete := false |} (new_queue t0)).
  - vm_compute. intros Hc. discriminate Hc.
  - discriminate.
Defined.

(** ** One call of [add], awaited alone *)

Section Attempts.

Context {T : Type}.
Variable config : QueueConfig.
Variable random : nat -> Q.
Variable hostname : string -> option string.
Variable retryTimeout : nat -> Z.

Lemma run_turn_awaits (s : QueueState T) (w : Suspension)
    (k : QueueState T -> Turn T) :
  run_turn (turn s (Awaits w k))
  = run_turn (k (set_clock (wake w (clock s) (clock s)) s)).
Proof. reflexivity. Qed.

Lemma run_turn_awaits_from (s : QueueState T)
    (k : QueueState T -> Turn T) :
  run_from (clock s) (Awaits Elsewhere k) s = run_turn (k s).
Proof.
  simpl. rewrite RequestQueueFacts.set_clock_same. reflexivity.
Qed.

Lemma run_turn_finish (r : Settled T) (s : QueueState T) :
  run_turn (finish r s)
  = (r, match r with
        | Fulfilled _ => s
        | Rejected e => relay_error e s
        end).
Proof. destruct r; reflexivity. Qed.

(** What the attempts of a task amount to, read off the task. *)
Lemma attempts_from_spec (taskFn : Task T) (retriesLeft : nat) :
  forall a thrown,
    (1 <= attempts_from taskFn retriesLeft a <= retriesLeft + 1)%nat
    /\ (forall j, (a <= j < a + attempts_from taskFn retriesLeft a - 1)%nat ->
          exists e, taskFn j = Rejected e /\ retried e = true)
    /\ ((attempts_from taskFn retriesLeft a < retriesLeft + 1)%nat ->
        is_fulfilled (taskFn (a + attempts_from taskFn retriesLeft a - 1)%nat)
        = true
        \/ exists e,
             taskFn (a + attempts_from taskFn retriesLeft a - 1)%nat
             = Rejected e
             /\ retried e = false)
    /\ (forall v,
          taskFn (a + attempts_from taskFn retriesLeft a - 1)%nat
          = Fulfilled v ->
          outcome_from taskFn retriesLeft a thrown = Fulfilled v)
    /\ (forall e,
          taskFn (a + attempts_from taskFn retriesLeft a - 1)%nat
          = Rejected e ->
          retried e = false ->
          outcome_from taskFn retriesLeft a thrown = Rejected e)
    /\ (forall e,
          taskFn (a + attempts_from taskFn retriesLeft a - 1)%nat
          = Rejected e ->
          retried e = true ->
          exists errors,
            Forall2 (λ j e', taskFn j = Rejected e')
              (seq a (attempts_from taskFn retriesLeft a)) errors
            /\ outcome_from taskFn retriesLeft a thrown
               = Rejected (default e (mainError (thrown ++ errors)))).
Proof.
  induction retriesLeft as [| n IH]; intros a thrown; simpl.
  - assert (Hk : attempts_from taskFn 0 a = 1%nat).
    { simpl. destruct (taskFn a) as [v | e]; [reflexivity |].
      destruct (retried e); reflexivity. }
    simpl in Hk. rewrite Hk.
    replace (a + 1 - 1)%nat with a by lia.
    split; [lia |]. split; [intros j Hj; lia |].
    split; [intros Hlt; lia |].
    destruct (taskFn a) as [v | e] eqn:Ea.
    + split; [intros v' [= <-]; reflexivity |].
      split; intros e' He'; discriminate He'.
    + split; [intros v' Hv; discriminate Hv |].
      split; intros e' [= <-] Hr; rewrite Hr; [reflexivity |].
      exists [e]. split; [| reflexivity].
      simpl. constructor; [exact Ea | constructor].
  - destruct (taskFn a) as [v | e] eqn:Ea.
    + replace (a + 1 - 1)%nat with a by lia. rewrite Ea.
      split; [lia |]. split; [intros j Hj; lia |].
      split; [intros _; left; reflexivity |].
      split; [intros v' [= <-]; reflexivity |].
      split; intros e' He'; discriminate He'.
    + destruct (retried e) eqn:Hr.
      * destruct (IH (S a) (thrown ++ [e]))
          as (Hb & Hrej & Hearly & Hv & Hstop & Hmain).
        replace (a + S (attempts_from taskFn n (S a)) - 1)%nat
          with (S a + attempts_from taskFn n (S a) - 1)%nat by lia.
        split; [lia |]. split; [| split; [| split; [| split]]].
        -- intros j Hj. destruct (decide (j = a)) as [-> | Hne].
           ++ exists e. split; [exact Ea | exact Hr].
           ++ apply Hrej. lia.
        -- intros Hlt. apply Hearly. lia.
        -- exact Hv.
        -- exact Hstop.
        -- intros e' He' Hr'.
           destruct (Hmain e' He' Hr') as (errors & Hall & Hout).
           exists (e :: errors). split.
           ++ simpl. constructor; [exact Ea | exact Hall].
           ++ rewrite Hout. rewrite <- app_assoc. reflexivity.
      * replace (a + 1 - 1)%nat with a by lia. rewrite Ea.
        split; [lia |]. split; [intros j Hj; lia |].
        split; [intros _; right; exists e; split; [reflexivity | exact Hr] |].
        split; [intros v' Hv; discriminate Hv |].
        split; intros e' [= <-] Hr'; [reflexivity | congruence].
Qed.

Section Job.

Variable taskFn : Task T.
Variable id : TaskId.
Variable domain : string.
Variable nretries : nat.
Variable reports : bool.

Local Abbreviation input aborted :=
  (input config random retryTimeout taskFn id domain nretries aborted reports).
Local Abbreviation failed := (failed (T := T) retryTimeout reports).
Local Abbreviation pRetry aborted :=
  (pRetry config random retryTimeout taskFn id domain nretries aborted
     reports).

(** One attempt, as far as [p-retry] gets the error or the call
    settles: the rate limiter is passed once, and the queue emits what
    the attempt ends with. *)
Lemma attempt_alone
    (again : option (list TaskError -> QueueState T -> Turn T))
    (attempt retriesLeft : nat) (thrown : list TaskError)
    (s : QueueState T) :
  exists s2,
    length (dispatched s2) = S (length (dispatched s))
    /\ task_events s2
       = task_events s ++ closing_events id nretries attempt (taskFn attempt)
    /\ relayed s2 = relayed s
    /\ errorListener s2 = errorListener s
    /\ run_turn (input false again attempt retriesLeft thrown s)
       = match taskFn attempt with
         | Fulfilled v => (Fulfilled v, s2)
         | Rejected e =>
             run_turn (failed again attempt retriesLeft thrown e s2)
         end.
Proof.
  unfold RequestQueue.input.
  set (s1 := if clock s - default 0 (lastRequestTime s !! domain)
                <? requestDelay config
             then set_clock
                    (wake (Timer (inject_Z
                                    (requestDelay config
                                     - (clock s
                                        - default 0
                                            (lastRequestTime s !! domain)))))
                       (clock s) (clock s)) s
             else s).
  assert (Hrun :
    run_turn
      (if clock s - default 0 (lastRequestTime s !! domain)
          <? requestDelay config
       then turn s
              (Awaits
                 (Timer (inject_Z
                           (requestDelay config
                            - (clock s
                               - default 0 (lastRequestTime s !! domain)))))
                 (call config random retryTimeout taskFn id domain nretries
                    reports again attempt retriesLeft thrown))
       else call config random retryTimeout taskFn id domain nretries
              reports again attempt retriesLeft thrown s)
    = run_turn
        (RequestQueue.settled config random retryTimeout taskFn id
           nretries reports again attempt retriesLeft thrown
           (set_clock (clock (record_dispatch domain s1))
              (record_dispatch domain s1)))).
  { subst s1.
    destruct (clock s - default 0 (lastRequestTime s !! domain)
              <? requestDelay config); reflexivity. }
  cbv zeta. rewrite Hrun. clear Hrun.
  rewrite RequestQueueFacts.set_clock_same.
  assert (H1 : length (dispatched (record_dispatch domain s1))
               = S (length (dispatched s))
               /\ emitted (record_dispatch domain s1) = emitted s
               /\ relayed (record_dispatch domain s1) = relayed s
               /\ errorListener (record_dispatch domain s1)
                  = errorListener s).
  { subst s1. unfold record_dispatch. cbn [dispatched emitted relayed
                                             errorListener].
    rewrite length_app. simpl.
    destruct (clock s - default 0 (lastRequestTime s !! domain)
              <? requestDelay config); simpl;
      (split; [lia |]); repeat split. }
  destruct H1 as (Hd & He & Hr & Hl).
  set (s1' := record_dispatch domain s1) in *. clearbody s1'. clear s1.
  unfold RequestQueue.settled, closing_events.
  assert (Hsame : task_events s1' = task_events s).
  { unfold task_events. rewrite He. reflexivity. }
  assert (Hbackoff : forall e,
    exists s2,
      length (dispatched s2) = S (length (dispatched s))
      /\ task_events s2 = task_events s ++ []
      /\ relayed s2 = relayed s
      /\ errorListener s2 = errorListener s
      /\ run_turn (backoff config random retryTimeout reports again attempt
                     retriesLeft thrown e s1')
         = run_turn (failed again attempt retriesLeft thrown e s2)).
  { intros e. unfold backoff. simpl. eexists.
    split; [| split; [| split; [| split]]]; [| | | | reflexivity];
      simpl; rewrite ?app_nil_r; assumption. }
  destruct (taskFn attempt) as [v | e].
  - eexists. split; [| split; [| split; [| split]]];
      [| | | | apply run_turn_finish]; simpl; try assumption.
    unfold task_events. simpl. rewrite filter_app, He. reflexivity.
  - destruct e as [msg retryAfter | msg network | msg].
    + destruct retryAfter as [ms |]; [| apply Hbackoff].
      destruct (ms =? 0); [apply Hbackoff |].
      rewrite run_turn_awaits. eexists.
      split; [| split; [| split; [| split]]]; [| | | | reflexivity];
        simpl; rewrite ?app_nil_r; assumption.
    + destruct (attempt =? nretries + 1)%nat; [| apply Hbackoff].
      eexists. split; [| split; [| split; [| split]]];
        [| | | | reflexivity]; simpl; try assumption.
      unfold task_events. simpl. rewrite filter_app, He. reflexivity.
    + destruct (attempt =? nretries + 1)%nat; [| apply Hbackoff].
      eexists. split; [| split; [| split; [| split]]];
        [| | | | reflexivity]; simpl; try assumption.
      unfold task_events. simpl. rewrite filter_app, He. reflexivity.
Qed.

Lemma task_events_set_clock (t : Z) (s : QueueState T) :
  task_events (set_clock t s) = task_events s.
Proof. reflexivity. Qed.

Lemma task_events_report (a n : nat) (e : TaskError) (s : QueueState T) :
  task_events (emit (onProgressCall a n e) s) = task_events s.
Proof.
  unfold task_events. simpl. rewrite filter_app. simpl.
  apply app_nil_r.
Qed.

Lemma closing_events_early (attempt : nat) (e : TaskError) :
  (attempt < nretries + 1)%nat ->
  closing_events (T := T) id nretries attempt (Rejected e) = [].
Proof.
  intros Hlt. unfold closing_events.
  assert (Hne : (attempt =? nretries + 1)%nat = false)
    by (apply Nat.eqb_neq; lia).
  rewrite Hne. destruct e; reflexivity.
Qed.

(** The attempts of a call whose abort signal is not set, from attempt
    [attempt] on. *)
Lemma pRetry_alone (retriesLeft : nat) :
  forall (attempt : nat) (thrown : list TaskError) (s : QueueState T),
    (attempt + retriesLeft = nretries + 1)%nat ->
    (run_turn (pRetry false retriesLeft attempt thrown s)).1
    = outcome_from taskFn retriesLeft attempt thrown
    /\ length (dispatched
                 (run_turn (pRetry false retriesLeft attempt thrown s)).2)
       = (length (dispatched s)
          + attempts_from taskFn retriesLeft attempt)%nat
    /\ task_events (run_turn (pRetry false retriesLeft attempt thrown s)).2
       = task_events s
         ++ closing_events id nretries
              (attempt + attempts_from taskFn retriesLeft attempt - 1)
              (taskFn
                 (attempt + attempts_from taskFn retriesLeft attempt - 1)%nat)
    /\ relayed (run_turn (pRetry false retriesLeft attempt thrown s)).2
       = relayed s
         ++ relay_of (outcome_from taskFn retriesLeft attempt thrown)
              (errorListener s)
    /\ errorListener (run_turn (pRetry false retriesLeft attempt thrown s)).2
       = errorListener s.
Proof.
  induction retriesLeft as [| n IH]; intros attempt thrown s Hsum.
  - destruct (attempt_alone None attempt 0 thrown s)
      as (s2 & Hd & He & Hr & Hl & Hrun).
    change (RequestQueue.pRetry config random retryTimeout taskFn id domain
              nretries false reports 0 attempt thrown s)
      with (input false None attempt 0 thrown s).
    rewrite Hrun. clear Hrun. simpl.
    destruct (taskFn attempt) as [v | e] eqn:Ea.
    + replace (attempt + 1 - 1)%nat with attempt by lia. rewrite Ea. simpl.
      rewrite app_nil_r. repeat split; try assumption. lia.
    + assert (Hk : (if retried e then 1 else 1)%nat = 1%nat)
        by (destruct (retried e); reflexivity).
      rewrite Hk. replace (attempt + 1 - 1)%nat with attempt by lia.
      rewrite Ea. unfold RequestQueue.failed.
      destruct (retried e).
      * rewrite run_turn_finish. cbn [fst snd relay_of].
        destruct reports; unfold relay_error; cbn [dispatched relayed
          errorListener emit]; rewrite ?task_events_report;
          unfold task_events in *; cbn [emitted emit];
          rewrite ?filter_app, ?Hr, ?Hl, ?Hd; simpl; rewrite ?app_nil_r;
          (split; [reflexivity |]); (split; [lia |]);
          (split; [exact He |]); split; reflexivity.
      * rewrite run_turn_finish. cbn [fst snd relay_of].
        unfold relay_error; cbn [dispatched relayed errorListener].
        unfold task_events in *; cbn [emitted].
        rewrite ?Hr, ?Hl, ?Hd.
        (split; [reflexivity |]); (split; [lia |]);
          (split; [exact He |]); split; reflexivity.
  - destruct (attempt_alone
                (Some (RequestQueue.pRetry config random retryTimeout taskFn
                         id domain nretries false reports n (S attempt)))
                attempt (S n) thrown s)
      as (s2 & Hd & He & Hr & Hl & Hrun).
    change (RequestQueue.pRetry config random retryTimeout taskFn id domain
              nretries false reports (S n) attempt thrown s)
      with (input false
              (Some (RequestQueue.pRetry config random retryTimeout taskFn
                       id domain nretries false reports n (S attempt)))
              attempt (S n) thrown s).
    rewrite Hrun. clear Hrun. simpl.
    destruct (taskFn attempt) as [v | e] eqn:Ea.
    + replace (attempt + 1 - 1)%nat with attempt by lia. rewrite Ea. simpl.
      rewrite app_nil_r. repeat split; try assumption. lia.
    + unfold RequestQueue.failed. destruct (retried e).
      * rewrite run_turn_awaits.
        match goal with
        | |- context [run_turn (RequestQueue.pRetry _ _ _ _ _ _ _ _ _ _ _ _
                                  ?s0)] =>
            destruct (IH (S attempt) (thrown ++ [e]) s0 ltac:(lia))
              as (I1 & I2 & I3 & I4 & I5);
            assert (Hd0 : dispatched s0 = dispatched s2)
              by (destruct reports; reflexivity);
            assert (He0 : task_events s0 = task_events s2)
              by (destruct reports;
                  rewrite task_events_set_clock,
                    ?task_events_report; reflexivity);
            assert (Hr0 : relayed s0 = relayed s2)
              by (destruct reports; reflexivity);
            assert (Hl0 : errorListener s0 = errorListener s2)
              by (destruct reports; reflexivity)
        end.
        replace (attempt + S (attempts_from taskFn n (S attempt)) - 1)%nat
          with (S attempt + attempts_from taskFn n (S attempt) - 1)%nat
          by lia.
        rewrite I1, I2, I3, I4, I5, Hd0, He0, Hr0, Hl0, Hd, He, Hr, Hl.
        rewrite (closing_events_early attempt e) by lia.
        rewrite app_nil_r.
        split; [reflexivity |]. split; [lia |].
        split; [reflexivity |]. split; reflexivity.
      * rewrite run_turn_finish. cbn [fst snd relay_of].
        unfold relay_error; cbn [dispatched relayed errorListener].
        replace (attempt + 1 - 1)%nat with attempt by lia. rewrite Ea.
        unfold task_events in *; cbn [emitted].
        rewrite ?Hr, ?Hl, ?Hd.
        (split; [reflexivity |]); (split; [lia |]);
          (split; [exact He |]); split; reflexivity.
Qed.

(** The attempts of a call whose abort signal is set. *)
Lemma pRetry_aborted (retriesLeft : nat) :
  forall (attempt m : nat) (s : QueueState T),
    (run_turn (pRetry true retriesLeft attempt
                 (replicate m (OtherError "Request aborted")) s)).1
    = Rejected (OtherError "Request aborted")
    /\ dispatched
         (run_turn (pRetry true retriesLeft attempt
                      (replicate m (OtherError "Request aborted")) s)).2
       = dispatched s
    /\ lastRequestTime
         (run_turn (pRetry true retriesLeft attempt
                      (replicate m (OtherError "Request aborted")) s)).2
       = lastRequestTime s
    /\ requestCounts
         (run_turn (pRetry true retriesLeft attempt
                      (replicate m (OtherError "Request aborted")) s)).2
       = requestCounts s
    /\ length
         (emitted
            (run_turn (pRetry true retriesLeft attempt
                         (replicate m (OtherError "Request aborted")) s)).2)
       = (length (emitted s) + if reports then retriesLeft + 1 else 0)%nat
    /\ task_events
         (run_turn (pRetry true retriesLeft attempt
                      (replicate m (OtherError "Request aborted")) s)).2
       = task_events s
    /\ relayed
         (run_turn (pRetry true retriesLeft attempt
                      (replicate m (OtherError "Request aborted")) s)).2
       = relayed s ++ [(OtherError "Request aborted", errorListener s)]
    /\ errorListener
         (run_turn (pRetry true retriesLeft attempt
                      (replicate m (OtherError "Request aborted")) s)).2
       = errorListener s.
Proof.
  induction retriesLeft as [| n IH]; intros attempt m s.
  - cbn [RequestQueue.pRetry RequestQueue.input RequestQueue.failed retried].
    rewrite run_turn_finish, <- replicate_S_end,
      RequestQueueFacts.mainError_same.
    cbn [fst snd default].
    destruct reports; unfold relay_error, task_events;
      cbn [dispatched lastRequestTime requestCounts emitted relayed
           errorListener emit];
      rewrite ?length_app, ?filter_app; simpl; rewrite ?app_nil_r;
      repeat split; lia.
  - cbn [RequestQueue.pRetry RequestQueue.input RequestQueue.failed retried].
    rewrite run_turn_awaits, <- replicate_S_end.
    match goal with
    | |- context [run_turn (RequestQueue.pRetry _ _ _ _ _ _ _ _ _ _ _ _
                              ?s0)] =>
        destruct (IH (S attempt) (S m) s0)
          as (I1 & I2 & I3 & I4 & I5 & I6 & I7 & I8)
    end.
    rewrite I1, I2, I3, I4, I5, I6, I7, I8.
    destruct reports; unfold task_events;
      cbn [dispatched lastRequestTime requestCounts emitted relayed
           errorListener emit set_clock];
      rewrite ?length_app, ?filter_app; simpl; rewrite ?app_nil_r;
      repeat split; lia.
Qed.

End Job.

(** X4.  An [add] whose abort signal is not set tries the task [k] times,
    where [1 <= k <= retries + 1], and passes the rate limiter once per
    attempt.  Every attempt before the [k]-th was rejected with an error
    that [p-retry] retries, and the call stops before attempt
    [retries + 1] only on a fulfilled attempt or on an error that
    [p-retry] does not retry (a [TypeError] that is not a network error).
    It fulfils with the value of attempt [k]; it rejects with the error
    of attempt [k] when that error is not retried; otherwise it rejects
    with the main error of the [k] errors thrown, the one [retry] counts
    as the most frequent, which is one of them. *)
Theorem add_attempts (taskFn : Task T) (options : AddOptions)
    (s : QueueState T) :
  default false (abortSignal options) = false ->
  exists k : nat,
    (1 <= k <= default (maxRetries config) (retries options) + 1)%nat
    /\ length (dispatched
                 (add config random hostname retryTimeout taskFn options s).2)
       = (length (dispatched s) + k)%nat
    /\ (forall j, (1 <= j < k)%nat ->
          exists e, taskFn j = Rejected e /\ retried e = true)
    /\ ((k < default (maxRetries config) (retries options) + 1)%nat ->
        is_fulfilled (taskFn k) = true
        \/ exists e, taskFn k = Rejected e /\ retried e = false)
    /\ (forall v, taskFn k = Fulfilled v ->
          (add config random hostname retryTimeout taskFn options s).1
          = Fulfilled v)
    /\ (forall e, taskFn k = Rejected e -> retried e = false ->
          (add config random hostname retryTimeout taskFn options s).1
          = Rejected e)
    /\ (forall e, taskFn k = Rejected e -> retried e = true ->
          exists errors main,
            Forall2 (λ j e', taskFn j = Rejected e') (seq 1 k) errors
            /\ mainError errors = Some main
            /\ main ∈ errors
            /\ (add config random hostname retryTimeout taskFn options s).1
               = Rejected main).
Proof.
  intros Hab.
  set (n := default (maxRetries config) (retries options)).
  destruct (attempts_from_spec taskFn n 1%nat [])
    as (Hb & Hrej & Hearly & Hv & Hstop & Hmain).
  exists (attempts_from taskFn n 1).
  replace (1 + attempts_from taskFn n 1 - 1)%nat
    with (attempts_from taskFn n 1) in * by lia.
  assert (Hfst : (add config random hostname retryTimeout taskFn options s).1
                 = outcome_from taskFn n 1 []).
  { rewrite RequestQueueFacts.add_fst, Hab. reflexivity. }
  split; [exact Hb |]. split; [| split; [| split; [| split; [| split]]]].
  - unfold add, submit. cbn [draw]. rewrite Hab. fold n.
    rewrite run_turn_awaits_from.
    match goal with
    | |- context [run_turn (RequestQueue.pRetry _ _ _ _ ?i ?d _ _ ?r _ _ _
                              ?s0)] =>
        destruct (pRetry_alone taskFn i d n r n 1%nat [] s0 ltac:(lia))
          as (_ & I2 & _)
    end.
    rewrite I2. reflexivity.
  - intros j Hj. apply Hrej. lia.
  - exact Hearly.
  - intros v Hk. rewrite Hfst. apply Hv. exact Hk.
  - intros e Hk Hr. rewrite Hfst. apply Hstop; assumption.
  - intros e Hk Hr. destruct (Hmain e Hk Hr) as (errors & Hall & Hout).
    simpl in Hout.
    assert (Hsome : is_Some (mainError errors)).
    { destruct errors as [| e0 rest] using rev_ind.
      - apply Forall2_length in Hall. rewrite length_seq in Hall.
        simpl in Hall. lia.
      - apply RequestQueueFacts.mainError_some. }
    destruct Hsome as [main Hsome].
    exists errors, main. split; [exact Hall |]. split; [exact Hsome |].
    split; [apply RequestQueueFacts.mainError_in; exact Hsome |].
    rewrite Hfst, Hout, Hsome. reflexivity.
Qed.

(** X6.  The events of its own that an [add] whose abort signal is not
    set emits on the queue are at most one, after its last attempt:
    [taskComplete] with the value when the attempt fulfils, [taskError]
    when attempt [retries + 1] fails with an error other than a
    [RateLimitError], and none when the last attempt fails with a
    [RateLimitError], or fails before attempt [retries + 1] with an
    error that [p-retry] does not retry.  Failed attempts before the
    last emit none.  (The ['error'] event of a rejected call is counted
    apart, in [relayed].) *)
Theorem add_emits_one_closing_event (taskFn : Task T) (options : AddOptions)
    (s : QueueState T) :
  default false (abortSignal options) = false ->
  task_events (add config random hostname retryTimeout taskFn options s).2
  = task_events s
    ++ closing_events
         {| id_domain := getDomain hostname (default "unknown" (url options));
            id_time := clock s;
            id_random := random (draws s) |}
         (default (maxRetries config) (retries options))
         (attempts_from taskFn
            (default (maxRetries config) (retries options)) 1)
         (taskFn
            (attempts_from taskFn
               (default (maxRetries config) (retries options)) 1)).
Proof.
  intros Hab.
  set (n := default (maxRetries config) (retries options)).
  unfold add, submit. cbn [draw]. rewrite Hab.
  rewrite run_turn_awaits_from.
  match goal with
  | |- context [run_turn (RequestQueue.pRetry _ _ _ _ ?i ?d _ _ ?r _ _ _
                            ?s0)] =>
      destruct (pRetry_alone taskFn i d n r n 1%nat [] s0 ltac:(lia))
        as (_ & _ & I3 & _)
  end.
  fold n. rewrite I3.
  replace (1 + attempts_from taskFn n 1 - 1)%nat
    with (attempts_from taskFn n 1)
    by (pose proof (attempts_from_spec taskFn n 1%nat []) as [Hb _]; lia).
  reflexivity.
Qed.

(** X5.  An [add] whose abort signal is already set never calls the task
    and never passes the rate limiter: no dispatch is logged and no count
    changes.  It is still retried like any failure: it rejects with
    "Request aborted" only after [retries + 1] attempts, each reported to
    [onProgress] when one was given. *)
Theorem add_aborted (taskFn : Task T) (options : AddOptions)
    (s : QueueState T) :
  abortSignal options = Some true ->
  (add config random hostname retryTimeout taskFn options s).1
  = Rejected (OtherError "Request aborted")
  /\ dispatched (add config random hostname retryTimeout taskFn options s).2
     = dispatched s
  /\ lastRequestTime
       (add config random hostname retryTimeout taskFn options s).2
     = lastRequestTime s
  /\ requestCounts
       (add config random hostname retryTimeout taskFn options s).2
     = requestCounts s
  /\ length (emitted
               (add config random hostname retryTimeout taskFn options s).2)
     = (length (emitted s)
        + if onProgress options
          then default (maxRetries config) (retries options) + 1
          else 0)%nat.
Proof.
  intros Hab. unfold add, submit. cbn [draw]. rewrite Hab.
  rewrite run_turn_awaits_from. cbn [default].
  match goal with
  | |- context [run_turn (RequestQueue.pRetry _ _ _ ?f ?i ?d ?n _ ?r _ _ _
                            ?s0)] =>
      destruct (pRetry_aborted f i d n r n 1%nat 0%nat s0)
        as (H1 & H2 & H3 & H4 & H5 & _)
  end.
  cbn [replicate] in H1, H2, H3, H4, H5.
  split; [exact H1 |]. split; [exact H2 |]. split; [exact H3 |].
  split; [exact H4 | exact H5].
Qed.

(** X26.  A call of [add] that rejects ends with one ['error'] event on
    the queue, carrying the error it rejects with; a call that fulfils
    ends with none.  The event finds the listener that was registered
    when the call was made, or none. *)
Theorem add_relays_its_error (taskFn : Task T) (options : AddOptions)
    (s : QueueState T) :
  relayed (add config random hostname retryTimeout taskFn options s).2
  = relayed s
    ++ relay_of (add config random hostname retryTimeout taskFn options s).1
         (errorListener s)
  /\ errorListener (add config random hostname retryTimeout taskFn options s).2
     = errorListener s.
Proof.
  rewrite RequestQueueFacts.add_fst.
  unfold add, submit. cbn [draw].
  rewrite run_turn_awaits_from.
  destruct (default false (abortSignal options)) eqn:Hab.
  - match goal with
    | |- context [run_turn (RequestQueue.pRetry _ _ _ ?f ?i ?d ?n _ ?r _ _ _
                              ?s0)] =>
        destruct (pRetry_aborted f i d n r n 1%nat 0%nat s0)
          as (H1 & _ & _ & _ & _ & _ & H7 & H8);
        pose proof (RequestQueueFacts.add_fst config random hostname
                      retryTimeout taskFn options s) as Hfst
    end.
    cbn [replicate] in H1, H7, H8.
    unfold add, submit in Hfst. cbn [draw] in Hfst.
    rewrite run_turn_awaits_from, Hab in Hfst.
    rewrite <- Hfst, H1, H7, H8. split; reflexivity.
  - match goal with
    | |- context [run_turn (RequestQueue.pRetry _ _ _ ?f ?i ?d ?n _ ?r _ _ _
                              ?s0)] =>
        destruct (pRetry_alone f i d n r n 1%nat [] s0 ltac:(lia))
          as (_ & _ & _ & I4 & I5)
    end.
    rewrite I4, I5. split; reflexivity.
Qed.

End Attempts.

Lemma add_attempts_witness :
  exists k : nat,
    (1 <= k <= default (maxRetries default_config) (retries no_options) + 1)%nat
    /\ length (dispatched
                 (add default_config no_draw no_host doubling
                    (third_time_lucky 7) no_options (new_queue t0)).2)
       = (length (dispatched (new_queue (T := Z) t0)) + k)%nat
    /\ (forall j, (1 <= j < k)%nat ->
          exists e, third_time_lucky 7 j = Rejected e /\ retried e = true)
    /\ ((k < default (maxRetries default_config) (retries no_options) + 1)%nat ->
        is_fulfilled (third_time_lucky 7 k) = true
        \/ exists e, third_time_lucky 7 k = Rejected e /\ retried e = false)
    /\ (forall v, third_time_lucky 7 k = Fulfilled v ->
          (add default_config no_draw no_host doubling (third_time_lucky 7)
             no_options (new_queue t0)).1
          = Fulfilled v)
    /\ (forall e, third_time_lucky 7 k = Rejected e -> retried e = false ->
          (add default_config no_draw no_host doubling (third_time_lucky 7)
             no_options (new_queue t0)).1
          = Rejected e)
    /\ (forall e, third_time_lucky 7 k = Rejected e -> retried e = true ->
          exists errors main,
            Forall2 (λ j e', third_time_lucky 7 j = Rejected e') (seq 1 k)
              errors
            /\ mainError errors = Some main
            /\ main ∈ errors
            /\ (add default_config no_draw no_host doubling
                  (third_time_lucky 7) no_options (new_queue t0)).1
               = Rejected main).
Proof.
  apply (add_attempts default_config no_draw no_host doubling
           (third_time_lucky 7) no_options (new_queue t0)).
  reflexivity.
Defined.

Example third_time_lucky_takes_three :
  (add default_config no_draw no_host doubling (third_time_lucky 7)
     no_options (new_queue t0)).1 = Fulfilled 7
  /\ length (dispatched
               (add default_config no_draw no_host doubling
                  (third_time_lucky 7) no_options (new_queue t0)).2)
     = 3%nat.
Proof. vm_compute. split; reflexivity. Qed.

Example wrong_type_takes_one :
  (add default_config no_draw no_host doubling wrong_type no_options
     (new_queue t0)).1
  = Rejected (TypeError "page.url is not a function" false)
  /\ length (dispatched
               (add default_config no_draw no_host doubling wrong_type
                  no_options (new_queue t0)).2)
     = 1%nat
  /\ emitted
       (add default_config no_draw no_host doubling wrong_type no_options
          (new_queue t0)).2
     = [].
Proof. vm_compute. repeat split; reflexivity. Qed.

Lemma add_emits_one_closing_event_witness :
  task_events (add default_config no_draw no_host doubling rate_limited
                 no_options (new_queue t0)).2
  = task_events (new_queue (T := Z) t0)
    ++ closing_events
         {| id_domain := getDomain no_host (default "unknown" (url no_options));
            id_time := clock (new_queue (T := Z) t0);
            id_random := no_draw (draws (new_queue (T := Z) t0)) |}
         (default (maxRetries default_config) (retries no_options))
         (attempts_from rate_limited
            (default (maxRetries default_config) (retries no_options)) 1)
         (rate_limited
            (attempts_from rate_limited
               (default (maxRetries default_config) (retries no_options)) 1)).
Proof.
  apply (add_emits_one_closing_event default_config no_draw no_host doubling
           rate_limited no_options (new_queue t0)).
  reflexivity.
Defined.

Example rate_limited_to_the_end_emits_nothing :
  emitted (add default_config no_draw no_host doubling rate_limited
             no_options (new_queue t0)).2 = []
  /\ length (dispatched
               (add default_config no_draw no_host doubling rate_limited
                  no_options (new_queue t0)).2)
     = 4%nat.
Proof. vm_compute. split; reflexivity. Qed.

Example always_fails_emits_taskError :
  emitted (add default_config no_draw no_host doubling always_fails
             no_options (new_queue t0)).2
  = [taskError {| id_domain := "unknown"; id_time := t0; id_random := 0 |}
       (OtherError "boom")].
Proof. vm_compute. reflexivity. Qed.

Lemma add_aborted_witness :
  (add default_config no_draw no_host doubling (succeeds 1)
     {| priority := None; retries := None; url := None; onProgress := true;
        abortSignal := Some true |} (new_queue t0)).1
  = Rejected (OtherError "Request aborted")
  /\ dispatched
       (add default_config no_draw no_host doubling (succeeds 1)
          {| priority := None; retries := None; url := None;
             onProgress := true; abortSignal := Some true |}
          (new_queue t0)).2
     = dispatched (new_queue (T := Z) t0)
  /\ lastRequestTime
       (add default_config no_draw no_host doubling (succeeds 1)
          {| priority := None; retries := None; url := None;
             onProgress := true; abortSignal := Some true |}
          (new_queue t0)).2
     = lastRequestTime (new_queue (T := Z) t0)
  /\ requestCounts
       (add default_config no_draw no_host doubling (succeeds 1)
          {| priority := None; retries := None; url := None;
             onProgress := true; abortSignal := Some true |}
          (new_queue t0)).2
     = requestCounts (new_queue (T := Z) t0)
  /\ length (emitted
               (add default_config no_draw no_host doubling (succeeds 1)
                  {| priority := None; retries := None; url := None;
                     onProgress := true; abortSignal := Some true |}
                  (new_queue t0)).2)
     = (length (emitted (new_queue (T := Z) t0))
        + if onProgress
               {| priority := None; retries := None; url := None;
                  onProgress := true; abortSignal := Some true |}
          then default (maxRetries default_config)
                 (retries {| priority := None; retries := None; url := None;
                             onProgress := true; abortSignal := Some true |})
               + 1
          else 0)%nat.
Proof.
  apply (add_aborted default_config no_draw no_host doubling (succeeds 1)
           {| priority := None; retries := None; url := None;
              onProgress := true; abortSignal := Some true |}
           (new_queue t0)).
  reflexivity.
Defined.

Example rejected_call_without_listener :
  relayed (add default_config no_draw no_host doubling always_fails
             no_options (new_queue t0)).2
  = [(OtherError "boom", false)]
  /\ relayed (add default_config no_draw no_host doubling always_fails
                no_options listening).2
     = [(OtherError "boom", true)]
  /\ relayed (add default_config no_draw no_host doubling (succeeds 1)
                no_options (new_queue t0)).2
     = [].
Proof. vm_compute. repeat split; reflexivity. Qed.

(** ** The ['error'] events of a batch *)

Section Relays.

Context {T : Type}.
Variable config : QueueConfig.
Variable random : nat -> Q.
Variable hostname : string -> option string.
Variable retryTimeout : nat -> Z.

Lemma relaying_awaits (w : Suspension) (k : QueueState T -> Turn T) :
  relaying k -> relays (Awaits w k).
Proof.
  intros (H1 & H2 & H3 & H4). apply relays_awaits; assumption.
Qed.

(** A segment that ends in a wait for a segment of this kind. *)
Lemma relaying_wait (step : QueueState T -> QueueState T)
    (w : QueueState T -> Suspension)
    (k : QueueState T -> QueueState T -> Turn T) :
  (forall s, errorListener (step s) = errorListener s) ->
  (forall s, relayed (step s) = relayed s) ->
  (forall s, relaying (k s)) ->
  relaying (λ s, turn (step s) (Awaits (w s) (k s))).
Proof.
  intros Hl Hr Hk. split; [| split; [| split]]; intros s; cbn [state_of proc_of].
  - apply Hl.
  - exists []. rewrite app_nil_r. apply Hr.
  - intros e He. discriminate He.
  - apply relaying_awaits, Hk.
Qed.

Lemma relaying_finish (step : QueueState T -> QueueState T)
    (r : Settled T) :
  (forall s, errorListener (step s) = errorListener s) ->
  (forall s, relayed (step s) = relayed s) ->
  relaying (λ s, finish r (step s)).
Proof.
  intros Hl Hr. split; [| split; [| split]]; intros s;
    destruct r as [v | e]; cbn [finish state_of proc_of relay_error
                                 errorListener relayed].
  - apply Hl.
  - apply Hl.
  - exists []. rewrite app_nil_r. apply Hr.
  - exists [(e, errorListener (step s))]. rewrite Hr. reflexivity.
  - intros e He. discriminate He.
  - intros e' [= <-]. rewrite Hr, Hl.
    apply elem_of_app. right. apply list_elem_of_singleton. reflexivity.
  - apply relays_settles.
  - apply relays_settles.
Qed.

Lemma relaying_ext (k k' : QueueState T -> Turn T) :
  (forall s, k s = k' s) -> relaying k' -> relaying k.
Proof.
  intros Heq (H1 & H2 & H3 & H4).
  split; [| split; [| split]]; intros s; rewrite Heq; auto.
Qed.

Section Job.

Variable taskFn : Task T.
Variable id : TaskId.
Variable domain : string.
Variable nretries : nat.
Variable aborted : bool.
Variable reports : bool.

Lemma failed_relaying
    (again : option (list TaskError -> QueueState T -> Turn T))
    (attempt retriesLeft : nat) (thrown : list TaskError) (e : TaskError)
    (step : QueueState T -> QueueState T) :
  (forall next thrown', again = Some next -> relaying (next thrown')) ->
  (forall s, errorListener (step s) = errorListener s) ->
  (forall s, relayed (step s) = relayed s) ->
  relaying
    (λ s, failed retryTimeout reports again attempt retriesLeft thrown e
            (step s)).
Proof.
  intros Hnext Hl Hr. unfold failed.
  destruct (retried e); [| apply relaying_finish; assumption].
  destruct again as [next |].
  - apply (relaying_wait
             (λ s, if reports
                   then emit (onProgressCall attempt retriesLeft e) (step s)
                   else step s)
             (λ _, Timer (inject_Z (retryTimeout attempt)))
             (λ _, next (thrown ++ [e]))).
    + intros s. destruct reports; apply Hl.
    + intros s. destruct reports; apply Hr.
    + intros _. apply (Hnext next). reflexivity.
  - apply (relaying_finish
             (λ s, if reports
                   then emit (onProgressCall attempt retriesLeft e) (step s)
                   else step s)).
    + intros s. destruct reports; apply Hl.
    + intros s. destruct reports; apply Hr.
Qed.

Lemma backoff_relaying
    (again : option (list TaskError -> QueueState T -> Turn T))
    (attempt retriesLeft : nat) (thrown : list TaskError) (e : TaskError) :
  (forall next thrown', again = Some next -> relaying (next thrown')) ->
  relaying
    (backoff config random retryTimeout reports again attempt retriesLeft
       thrown e).
Proof.
  intros Hnext. unfold backoff. cbn [draw].
  apply (relaying_wait
           (λ s, (draw random s).2)
           (λ s, Timer (Backoff.calculateBackoff config (Z.of_nat attempt)
                          (random (draws s))))
           (λ _, failed retryTimeout reports again attempt retriesLeft
                   thrown e)).
  - reflexivity.
  - reflexivity.
  - intros _. apply (failed_relaying again attempt retriesLeft thrown e
                       (λ s, s)); auto.
Qed.

Lemma settled_relaying
    (again : option (list TaskError -> QueueState T -> Turn T))
    (attempt retriesLeft : nat) (thrown : list TaskError) :
  (forall next thrown', again = Some next -> relaying (next thrown')) ->
  relaying
    (RequestQueue.settled config random retryTimeout taskFn id nretries
       reports again attempt retriesLeft thrown).
Proof.
  intros Hnext. unfold RequestQueue.settled.
  destruct (taskFn attempt) as [v | e].
  - apply (relaying_finish (λ s, emit (taskComplete id v) s)); reflexivity.
  - destruct e as [msg retryAfter | msg network | msg].
    + destruct retryAfter as [ms |];
        [| apply backoff_relaying; assumption].
      destruct (ms =? 0); [apply backoff_relaying; assumption |].
      apply (relaying_wait (λ s, s) (λ _, Timer (inject_Z ms))
               (λ _, failed retryTimeout reports again attempt retriesLeft
                       thrown (RateLimitError msg (Some ms)))).
      * reflexivity.
      * reflexivity.
      * intros _. apply (failed_relaying again attempt retriesLeft thrown
                           _ (λ s, s)); auto.
    + destruct (attempt =? nretries + 1)%nat;
        [| apply backoff_relaying; assumption].
      apply (failed_relaying again attempt retriesLeft thrown _
               (λ s, emit (taskError id (TypeError msg network)) s));
        auto.
    + destruct (attempt =? nretries + 1)%nat;
        [| apply backoff_relaying; assumption].
      apply (failed_relaying again attempt retriesLeft thrown _
               (λ s, emit (taskError id (OtherError msg)) s));
        auto.
Qed.

Lemma call_relaying
    (again : option (list TaskError -> QueueState T -> Turn T))
    (attempt retriesLeft : nat) (thrown : list TaskError) :
  (forall next thrown', again = Some next -> relaying (next thrown')) ->
  relaying
    (call config random retryTimeout taskFn id domain nretries reports
       again attempt retriesLeft thrown).
Proof.
  intros Hnext. unfold call.
  apply (relaying_wait (record_dispatch domain) (λ _, Elsewhere)
           (λ _, RequestQueue.settled config random retryTimeout taskFn id
                   nretries reports again attempt retriesLeft thrown)).
  - reflexivity.
  - reflexivity.
  - intros _. apply settled_relaying. exact Hnext.
Qed.

Lemma input_relaying
    (again : option (list TaskError -> QueueState T -> Turn T))
    (attempt retriesLeft : nat) (thrown : list TaskError) :
  (forall next thrown', again = Some next -> relaying (next thrown')) ->
  relaying
    (input config random retryTimeout taskFn id domain nretries aborted
       reports again attempt retriesLeft thrown).
Proof.
  intros Hnext. unfold input.
  destruct aborted.
  { apply (failed_relaying again attempt retriesLeft thrown _ (λ s, s));
      auto. }
  pose proof (call_relaying again attempt retriesLeft thrown Hnext)
    as (C1 & C2 & C3 & C4).
  split; [| split; [| split]]; intros s; cbv zeta;
    destruct (clock s - default 0 (lastRequestTime s !! domain)
              <? requestDelay config);
    cbn [state_of proc_of]; auto.
  - exists []. rewrite app_nil_r. reflexivity.
  - intros e He. discriminate He.
  - apply relaying_awaits. apply call_relaying. exact Hnext.
Qed.

Lemma pRetry_relaying (retriesLeft : nat) :
  forall (attempt : nat) (thrown : list TaskError),
    relaying
      (pRetry config random retryTimeout taskFn id domain nretries aborted
         reports retriesLeft attempt thrown).
Proof.
  induction retriesLeft as [| n IH]; intros attempt thrown;
    cbn [pRetry]; apply input_relaying.
  - intros next thrown' Hnone. discriminate Hnone.
  - intros next thrown' [= <-]. apply IH.
Qed.

End Job.

Lemma submit_relays (taskFn : Task T) (options : AddOptions)
    (s : QueueState T) :
  relays (submit config random hostname retryTimeout taskFn options s).1
  /\ (exists k,
        (submit config random hostname retryTimeout taskFn options s).1
        = Awaits Elsewhere k)
  /\ errorListener
       (submit config random hostname retryTimeout taskFn options s).2
     = errorListener s
  /\ relayed (submit config random hostname retryTimeout taskFn options s).2
     = relayed s.
Proof.
  unfold submit. cbn [draw fst snd].
  split; [apply relaying_awaits, pRetry_relaying |].
  split; [eexists; reflexivity |]. split; reflexivity.
Qed.

Lemma pool_relays_more (l : bool) (pool : list (Proc T * Z))
    (s s1 : QueueState T) (more : list (TaskError * bool)) :
  pool_relays l pool s ->
  errorListener s1 = l ->
  relayed s1 = relayed s ++ more ->
  pool_relays l pool s1.
Proof.
  intros [Hl Hpool] Hl1 Hr1. split; [exact Hl1 |].
  eapply Forall_impl; [exact Hpool |].
  intros slot [Hrel Hin]. split; [exact Hrel |].
  intros e He. rewrite Hr1. apply elem_of_app. left. apply Hin, He.
Qed.

Lemma submit_all_relays (l : bool) (batch : list (Task T)) :
  forall s,
    errorListener s = l ->
    pool_relays l (submit_all config random hostname retryTimeout batch s).1
      (submit_all config random hostname retryTimeout batch s).2
    /\ relayed (submit_all config random hostname retryTimeout batch s).2
       = relayed s.
Proof.
  induction batch as [| task rest IH]; intros s Hl.
  - split; [| reflexivity]. split; [exact Hl | constructor].
  - cbn [submit_all].
    destruct (submit_relays task no_options s) as (Hp & [k Hk] & Hl1 & Hr1).
    destruct (submit config random hostname retryTimeout task no_options s)
      as [p s1]. cbn [fst snd] in Hp, Hk, Hl1, Hr1.
    destruct (IH s1 ltac:(congruence)) as [[Hl2 Hpool] Hr2].
    destruct (submit_all config random hostname retryTimeout rest s1)
      as [pool s2]. cbn [fst snd] in *.
    split; [| congruence]. split; [exact Hl2 |].
    constructor; [| exact Hpool]. cbn [fst]. split; [exact Hp |].
    intros e He. rewrite Hk in He. discriminate He.
Qed.

Lemma move_relays (l : bool) (m : Move) (pool : list (Proc T * Z))
    (s : QueueState T) :
  pool_relays l pool s ->
  pool_relays l (move m pool s).1 (move m pool s).2
  /\ exists more, relayed (move m pool s).2 = relayed s ++ more.
Proof.
  intros Hinv. pose proof Hinv as [Hl Hpool].
  assert (Hsame : pool_relays l pool s
                  /\ exists more, relayed s = relayed s ++ more).
  { split; [exact Hinv |]. exists []. rewrite app_nil_r. reflexivity. }
  destruct m as [ms | i]; cbn [move].
  - cbn [fst snd]. split; [| exists []; rewrite app_nil_r; reflexivity].
    apply (pool_relays_more l pool s _ []); [exact Hinv | exact Hl |].
    rewrite app_nil_r. reflexivity.
  - destruct (pool !! i) as [[[r | w k] since] |] eqn:E;
      [exact Hsame | | exact Hsame].
    destruct (ready w since (clock s)); [| exact Hsame].
    pose proof (proj1 (Forall_lookup _ _) Hpool i _ E) as [Hrel _].
    cbn [fst] in Hrel.
    inversion Hrel as [| w' k' K1 K2 K3 K4]; subst.
    specialize (K1 s). destruct (K2 s) as [more Hmore].
    specialize (K3 s). specialize (K4 s).
    destruct (k s) as [s1 p1]. cbn [state_of proc_of fst snd] in *.
    split; [| exists more; exact Hmore].
    destruct (pool_relays_more (errorListener s) pool s s1 more Hinv K1
                Hmore) as [Hl1 Hpool1].
    split; [exact Hl1 |].
    apply Forall_insert; [exact Hpool1 |].
    cbn [fst]. split; [exact K4 |].
    intros e He. apply K3. exact He.
Qed.

Lemma moves_relays (l : bool) (turns : list Move) :
  forall (pool : list (Proc T * Z)) (s : QueueState T),
    pool_relays l pool s ->
    pool_relays l (moves turns pool s).1 (moves turns pool s).2
    /\ exists more, relayed (moves turns pool s).2 = relayed s ++ more.
Proof.
  induction turns as [| m rest IH]; intros pool s Hinv.
  - split; [exact Hinv |]. exists []. rewrite app_nil_r. reflexivity.
  - cbn [moves].
    destruct (move_relays l m pool s Hinv) as [Hinv1 [more1 Hmore1]].
    destruct (move m pool s) as [pool1 s1]. cbn [fst snd] in *.
    destruct (IH pool1 s1 Hinv1) as [Hinv2 [more2 Hmore2]].
    split; [exact Hinv2 |].
    exists (more1 ++ more2). rewrite Hmore2, Hmore1, app_assoc.
    reflexivity.
Qed.

Lemma run_from_relays (p : Proc T) :
  relays p ->
  forall since s,
    errorListener (run_from since p s).2 = errorListener s
    /\ (exists more, relayed (run_from since p s).2 = relayed s ++ more)
    /\ (forall e, (run_from since p s).1 = Rejected e ->
          p = Settles (Rejected e)
          \/ (e, errorListener s) ∈ relayed (run_from since p s).2).
Proof.
  intros H. induction H as [r | w k K1 K2 K3 K4 IH]; intros since s.
  - cbn [run_from fst snd]. split; [reflexivity |].
    split; [exists []; rewrite app_nil_r; reflexivity |].
    intros e ->. left. reflexivity.
  - cbn [run_from].
    set (s0 := set_clock (wake w since (clock s)) s).
    specialize (K1 s0). destruct (K2 s0) as [more Hmore].
    specialize (K3 s0). specialize (IH s0).
    destruct (k s0) as [s1 p1]. cbn [state_of proc_of] in *.
    destruct (IH (clock s1) s1) as (I1 & [more1 I2] & I3).
    change (errorListener s0) with (errorListener s) in *.
    change (relayed s0) with (relayed s) in *.
    split; [congruence |].
    split; [exists (more ++ more1); rewrite I2, Hmore, app_assoc;
            reflexivity |].
    intros e He. right. destruct (I3 e He) as [-> | Hin].
    + cbn [run_from snd]. apply K3. reflexivity.
    + rewrite K1 in Hin. exact Hin.
Qed.

Lemma drain_relays (l : bool) (pool : list (Proc T * Z)) :
  forall s,
    pool_relays l pool s ->
    errorListener (drain pool s).2 = l
    /\ (exists more, relayed (drain pool s).2 = relayed s ++ more)
    /\ (forall e, Rejected e ∈ (drain pool s).1 ->
          (e, l) ∈ relayed (drain pool s).2).
Proof.
  induction pool as [| [p since] pool IH]; intros s [Hl Hpool].
  - cbn [drain fst snd]. split; [exact Hl |].
    split; [exists []; rewrite app_nil_r; reflexivity |].
    intros e He. inversion He.
  - cbn [drain].
    apply Forall_cons in Hpool as [[Hrel Hin] Hpool]. cbn [fst] in Hrel, Hin.
    destruct (run_from_relays p Hrel since s) as (R1 & [more Hmore] & R3).
    destruct (run_from since p s) as [r s1]. cbn [fst snd] in *.
    destruct (IH s1) as (D1 & [more1 D2] & D3).
    { apply (pool_relays_more l pool s s1 more);
        [split; assumption | congruence | exact Hmore]. }
    destruct (drain pool s1) as [rs s2]. cbn [fst snd] in *.
    split; [exact D1 |].
    split; [exists (more ++ more1); rewrite D2, Hmore, app_assoc;
            reflexivity |].
    intros e He. apply elem_of_cons in He as [He | He].
    + rewrite D2. apply elem_of_app. left.
      destruct (R3 e (eq_sym He)) as [Hp | Hthere].
      * rewrite Hmore. apply elem_of_app. left. apply Hin. exact Hp.
      * rewrite Hl in Hthere. exact Hthere.
    + apply D3. exact He.
Qed.

(** Every call of a batch that is rejected has had its ['error'] event
    when the batch is over. *)
Lemma allSettled_relays (turns : list Move) (batch : list (Task T))
    (s : QueueState T) :
  errorListener
    (allSettled config random hostname retryTimeout turns batch s).2
  = errorListener s
  /\ (exists more,
        relayed
          (allSettled config random hostname retryTimeout turns batch s).2
        = relayed s ++ more)
  /\ (forall task e,
        task ∈ batch ->
        outcome (maxRetries config) task = Rejected e ->
        (e, errorListener s)
        ∈ relayed
            (allSettled config random hostname retryTimeout turns batch
               s).2).
Proof.
  pose proof (RequestQueueFacts.allSettled_fst config random hostname
                retryTimeout turns batch s) as Hfst.
  unfold allSettled in *.
  destruct (submit_all_relays (errorListener s) batch s eq_refl)
    as [Hpool Hr0].
  destruct (submit_all config random hostname retryTimeout batch s)
    as [pool s1]. cbn [fst snd] in *.
  destruct (moves_relays (errorListener s) turns pool s1 Hpool)
    as [Hpool1 [more1 Hmore1]].
  destruct (moves turns pool s1) as [pool1 s2]. cbn [fst snd] in *.
  destruct (drain_relays (errorListener s) pool1 s2 Hpool1)
    as (D1 & [more2 D2] & D3).
  destruct (drain pool1 s2) as [rs s3]. cbn [fst snd] in *.
  split; [exact D1 |].
  split; [exists (more1 ++ more2);
          rewrite D2, Hmore1, Hr0, app_assoc; reflexivity |].
  intros task e Hin Hout. apply D3. rewrite Hfst, <- Hout.
  apply list_elem_of_fmap. exists task. split; [reflexivity | exact Hin].
Qed.

Lemma addBatch_loop_relays (schedule : Z -> list Move)
    (tasks : list (Task T)) (size delay : Z) (callback : bool) :
  1 <= size ->
  forall (fuel : nat) (i : Z) (results out : list T) (s s' : QueueState T),
    0 <= i ->
    addBatch_loop config random hostname retryTimeout schedule fuel tasks
      size delay callback i results s = Some (out, s') ->
    errorListener s' = errorListener s
    /\ (exists more, relayed s' = relayed s ++ more)
    /\ (forall task e,
          task ∈ drop (Z.to_nat i) tasks ->
          outcome (maxRetries config) task = Rejected e ->
          (e, errorListener s) ∈ relayed s').
Proof.
  intros Hsize.
  induction fuel as [| fuel IH]; intros i results out s s' Hi Hrun;
    simpl in Hrun; destruct (i <? Z.of_nat (length tasks)) eqn:Hlt;
    try discriminate Hrun.
  - injection Hrun as _ <-. split; [reflexivity |].
    split; [exists []; rewrite app_nil_r; reflexivity |].
    intros task e Hin. rewrite drop_ge in Hin by lia. inversion Hin.
  - destruct (allSettled_relays (schedule i) (slice tasks i (i + size)) s)
      as (A1 & [more A2] & A3).
    destruct (allSettled config random hostname retryTimeout (schedule i)
                (slice tasks i (i + size)) s) as [rs s1].
    cbn [fst snd] in A1, A2, A3.
    assert (Hnext : 0 <= i + size) by lia.
    destruct (IH _ _ _ _ _ Hnext Hrun) as (L1 & [more1 L2] & L3).
    assert (Hl3 : forall s3 : QueueState T,
              s3 = (if (i + size <? Z.of_nat (length tasks)) && (0 <? delay)
                    then sleep (inject_Z delay)
                           (if callback
                            then emit (onBatchCompleteCall
                                         (successfulResults rs) (i / size))
                                   s1
                            else s1)
                    else if callback
                         then emit (onBatchCompleteCall
                                      (successfulResults rs) (i / size)) s1
                         else s1) ->
              errorListener s3 = errorListener s1
              /\ relayed s3 = relayed s1).
    { intros s3 ->.
      destruct ((i + size <? Z.of_nat (length tasks)) && (0 <? delay));
        destruct callback; split; reflexivity. }
    destruct (Hl3 _ eq_refl) as [E1 E2].
    rewrite E1 in L1, L3. rewrite E2 in L2.
    split; [congruence |].
    split; [exists (more ++ more1); rewrite L2, A2, app_assoc;
            reflexivity |].
    intros task e Hin Hout.
    rewrite (RequestQueueFacts.slice_forward tasks i size Hi Hsize) in Hin.
    apply elem_of_app in Hin as [Hin | Hin].
    + rewrite L2. apply elem_of_app. left. apply (A3 task e Hin Hout).
    + rewrite <- A1. apply (L3 task e Hin Hout).
  - injection Hrun as _ <-. split; [reflexivity |].
    split; [exists []; rewrite app_nil_r; reflexivity |].
    intros task e Hin. rewrite drop_ge in Hin by lia. inversion Hin.
Qed.

End Relays.

(** X28.  On a queue on which nothing listens for ['error'], which is
    how the repository leaves every queue it makes, every task of
    [addBatch] that is rejected for good leaves an ['error'] event that
    nobody has taken: when a call with a batch size of at least one has
    come to its [return], the error of each such task is among the
    unhandled ones, whatever turns the event loop took. *)
Theorem addBatch_leaves_errors_unhandled {T : Type} (config : QueueConfig)
    (random : nat -> Q) (hostname : string -> option string)
    (retryTimeout : nat -> Z) (schedule : Z -> list Move) (fuel : nat)
    (tasks : list (Task T)) (options : BatchOptions)
    (s s' : QueueState T) (out : list T) (task : Task T) (e : TaskError) :
  1 <= default (batchSize config) (opt_batchSize options) ->
  errorListener s = false ->
  addBatch config random hostname retryTimeout schedule fuel tasks options s
  = Some (out, s') ->
  task ∈ tasks ->
  outcome (maxRetries config) task = Rejected e ->
  e ∈ unhandled s'.
Proof.
  intros Hsize Hnone Hrun Hin Hout. unfold addBatch in Hrun.
  destruct (addBatch_loop_relays config random hostname retryTimeout
              schedule tasks _ _ _ Hsize fuel 0 [] out s s' ltac:(lia) Hrun)
    as (_ & _ & Hall).
  specialize (Hall task e Hin Hout). rewrite Hnone in Hall.
  unfold unhandled. apply list_elem_of_fmap. exists (e, false).
  split; [reflexivity |]. apply list_elem_of_filter. split; [reflexivity |].
  exact Hall.
Qed.

Lemma addBatch_leaves_errors_unhandled_witness :
  match
    addBatch default_config no_draw no_host doubling in_turn 3
      [succeeds 1; wrong_type; always_fails] no_batch_options
      (new_queue t0)
  with
  | Some (_, s') =>
      TypeError "page.url is not a function" false ∈ unhandled s'
  | None => False
  end.
Proof.
  destruct (addBatch default_config no_draw no_host doubling in_turn 3
              [succeeds 1; wrong_type; always_fails] no_batch_options
              (new_queue t0)) as [[out s'] |] eqn:Hrun.
  - apply (addBatch_leaves_errors_unhandled default_config no_draw no_host
             doubling in_turn 3 [succeeds 1; wrong_type; always_fails]
             no_batch_options (new_queue t0) s' out wrong_type
             (TypeError "page.url is not a function" false)).
    + vm_compute. intros Hc. discriminate Hc.
    + reflexivity.
    + exact Hrun.
    + apply elem_of_cons. right. apply elem_of_cons. left. reflexivity.
    + reflexivity.
  - vm_compute in Hrun. discriminate Hrun.
Defined.

Example errors_of_a_batch_without_listener :
  (unhandled ∘ snd)
    <$> addBatch default_config no_draw no_host doubling in_turn 3
          [succeeds 1; wrong_type; always_fails] no_batch_options
          (new_queue t0)
  = Some [TypeError "page.url is not a function" false; OtherError "boom"].
Proof. vm_compute. reflexivity. Qed.

End QueueLedgerFacts.

(* ===================================================================== *)
(** * Further theorems: chunks and batches                                *)
(* ===================================================================== *)

Module BatchFacts.
Import RequestQueue QueueLedger Helpers Examples.

Lemma slice_split {A : Type} (l : list A) (i size : Z) :
  0 <= i -> 1 <= size ->
  drop (Z.to_nat i) l = slice l i (i + size) ++ drop (Z.to_nat (i + size)) l.
Proof.
  intros Hi Hsize. unfold slice.
  assert (Hneg1 : (i <? 0) = false) by lia.
  assert (Hneg2 : (i + size <? 0) = false) by lia.
  rewrite Hneg1, Hneg2.
  destruct (Z_le_gt_dec (Z.of_nat (length l)) i) as [Hout | Hin].
  - rewrite !Z.min_r by lia.
    rewrite !drop_ge by lia. rewrite take_nil. reflexivity.
  - rewrite (Z.min_l i) by lia.
    destruct (Z_le_gt_dec (i + size) (Z.of_nat (length l))) as [Hfit | Hcut].
    + rewrite Z.min_l by lia.
      replace (Z.to_nat (i + size - i)) with (Z.to_nat size) by lia.
      replace (Z.to_nat (i + size)) with (Z.to_nat i + Z.to_nat size)%nat
        by lia.
      rewrite <- drop_drop. symmetry. apply take_drop.
    + rewrite Z.min_r by lia.
      rewrite (drop_ge l (Z.to_nat (i + size))) by lia.
      rewrite app_nil_r. symmetry. apply take_ge.
      rewrite length_drop. lia.
Qed.

Lemma slice_length {A : Type} (l : list A) (i size : Z) :
  0 <= i -> 1 <= size ->
  Z.of_nat (length (slice l i (i + size)))
  = Z.max 0 (Z.min size (Z.of_nat (length l) - i)).
Proof.
  intros Hi Hsize. unfold slice.
  assert (Hneg1 : (i <? 0) = false) by lia.
  assert (Hneg2 : (i + size <? 0) = false) by lia.
  rewrite Hneg1, Hneg2, length_take, length_drop. lia.
Qed.

Lemma chunk_loop_spec {A : Type} (array : list A) (size : Z) (fuel : nat) :
  1 <= size ->
  forall (i : Z) (acc : list (list A)),
    0 <= i ->
    Z.of_nat (length array) - i <= Z.of_nat fuel ->
    exists rest,
      chunk_loop fuel array size i acc = Some (acc ++ rest)
      /\ concat rest = drop (Z.to_nat i) array
      /\ Forall (λ c, 1 <= Z.of_nat (length c) <= size) rest
      /\ (forall j c, rest !! j = Some c -> (S j < length rest)%nat ->
            Z.of_nat (length c) = size)
      /\ (Z.of_nat (length array) <= i -> rest = []).
Proof.
  intros Hsize.
  induction fuel as [| fuel IH]; intros i acc Hi Hfuel; simpl.
  - assert (Hdone : (i <? Z.of_nat (length array)) = false) by lia.
    rewrite Hdone. exists []. rewrite app_nil_r, drop_ge by lia.
    repeat split; try constructor.
    intros j c Hc. rewrite lookup_nil in Hc. discriminate Hc.
  - destruct (i <? Z.of_nat (length array)) eqn:Hlt.
    + destruct (IH (i + size) (acc ++ [slice array i (i + size)])
                  ltac:(lia) ltac:(lia))
        as (rest & Hrun & Hcat & Hall & Hfull & Hempty).
      exists (slice array i (i + size) :: rest).
      pose proof (slice_length array i size Hi Hsize) as Hlen.
      split; [| split; [| split; [| split]]].
      * rewrite Hrun, <- app_assoc. reflexivity.
      * simpl. rewrite Hcat. symmetry. apply slice_split; assumption.
      * constructor; [lia | exact Hall].
      * intros j c Hc Hj. destruct j as [| j]; simpl in *.
        -- injection Hc as <-.
           destruct (Z_le_gt_dec (Z.of_nat (length array)) (i + size))
             as [Hend | Hmore]; [| lia].
           rewrite (Hempty Hend) in Hj. simpl in Hj. lia.
        -- apply (Hfull j c Hc). lia.
      * intros Hout. lia.
    + exists []. rewrite app_nil_r, drop_ge by lia.
      repeat split; try constructor.
      intros j c Hc. rewrite lookup_nil in Hc. discriminate Hc.
Qed.

(** X7.  For a size of at least one, [Helpers.chunk] returns, and what it
    returns partitions the array: the chunks put end to end are the array,
    no chunk is empty or longer than [size], and every chunk but the last
    has exactly [size] elements. *)
Theorem chunk_partitions {A : Type} (array : list A) (size : Z) :
  1 <= size ->
  exists chunks,
    chunk (length array) array size = Some chunks
    /\ concat chunks = array
    /\ Forall (λ c, 1 <= Z.of_nat (length c) <= size) chunks
    /\ (forall j c, chunks !! j = Some c -> (S j < length chunks)%nat ->
          Z.of_nat (length c) = size).
Proof.
  intros Hsize.
  destruct (chunk_loop_spec array size (length array) Hsize 0 []
              ltac:(lia) ltac:(lia))
    as (rest & Hrun & Hcat & Hall & Hfull & _).
  exists rest. unfold chunk. rewrite Hrun. simpl in *.
  repeat split; assumption.
Qed.

Lemma chunk_partitions_witness :
  exists chunks,
    chunk (length [1; 2; 3; 4; 5; 6; 7]) [1; 2; 3; 4; 5; 6; 7] 3
    = Some chunks
    /\ concat chunks = [1; 2; 3; 4; 5; 6; 7]
    /\ Forall (λ c, 1 <= Z.of_nat (length c) <= 3) chunks
    /\ (forall j c, chunks !! j = Some c -> (S j < length chunks)%nat ->
          Z.of_nat (length c) = 3).
Proof.
  apply (chunk_partitions [1; 2; 3; 4; 5; 6; 7] 3). lia.
Defined.

Example chunk_seven_by_three :
  chunk 7 [1; 2; 3; 4; 5; 6; 7] 3 = Some [[1; 2; 3]; [4; 5; 6]; [7]].
Proof. reflexivity. Qed.

(** ** The calls to [onBatchComplete] *)

Section Callbacks.

Context {T : Type}.
Variable config : QueueConfig.
Variable random : nat -> Q.
Variable hostname : string -> option string.
Variable retryTimeout : nat -> Z.
Variable schedule : Z -> list Move.

Local Abbreviation fulfilled_of := (fulfilled_of (T := T) config).

Lemma batch_calls_made_emit (e : QueueEvent T) (s : QueueState T) :
  batch_calls_made (emit e s)
  = batch_calls_made s ++ from_option (λ c, [c]) [] (batch_call e).
Proof.
  unfold batch_calls_made. simpl. rewrite omap_app. reflexivity.
Qed.

(** The calls made so far, the listener and the errors nobody took. *)
Lemma kept_batch_calls (made : list (list T * Z)) (l : bool)
    (es : list TaskError) (domain : string) :
  kept random
    (λ s : QueueState T,
       batch_calls_made s = made /\ errorListener s = l /\ unhandled s = es)
    domain.
Proof.
  unfold kept. split; [| split; [| split]].
  - intros t s H. exact H.
  - intros e s He (H1 & H2 & H3). split; [| split; assumption].
    rewrite batch_calls_made_emit, <- H1.
    destruct e as [i v | i e | a n e | rs i]; simpl;
      try apply app_nil_r.
    exfalso. apply (He rs i). reflexivity.
  - intros s H. exact H.
  - intros s H. exact H.
Qed.

Lemma allSettled_makes_no_batch_call (turns : list Move)
    (batch : list (Task T)) (s : QueueState T) :
  errorListener s = true
  \/ Forall (λ task, is_fulfilled (outcome (maxRetries config) task) = true)
       batch ->
  batch_calls_made
    (allSettled config random hostname retryTimeout turns batch s).2
  = batch_calls_made s
  /\ errorListener
       (allSettled config random hostname retryTimeout turns batch s).2
     = errorListener s
  /\ unhandled
       (allSettled config random hostname retryTimeout turns batch s).2
     = unhandled s.
Proof.
  intros Hsafe.
  apply (RequestQueueFacts.allSettled_spec config random hostname
           retryTimeout
           (λ s', batch_calls_made s' = batch_calls_made s
                  /\ errorListener s' = errorListener s
                  /\ unhandled s' = unhandled s)
           turns batch s).
  - apply kept_batch_calls.
  - destruct Hsafe as [Hl | Hall]; [left | right; exact Hall].
    intros e s0 (H1 & H2 & H3).
    split; [exact H1 |]. split; [exact H2 |].
    rewrite RequestQueueFacts.unhandled_relay, H2, Hl, app_nil_r.
    exact H3.
  - repeat split.
Qed.

Lemma addBatch_loop_chunks (tasks : list (Task T)) (size delay : Z)
    (fuel : nat) :
  1 <= size ->
  forall (j : nat) (acc : list (list (Task T))) (results : list T)
         (s : QueueState T),
    Z.of_nat (length tasks) - Z.of_nat j * size <= Z.of_nat fuel ->
    errorListener s = true
    \/ Forall (λ task,
                 is_fulfilled (outcome (maxRetries config) task) = true)
         (drop (Z.to_nat (Z.of_nat j * size)) tasks) ->
    exists s' rest,
      chunk_loop fuel tasks size (Z.of_nat j * size) acc = Some (acc ++ rest)
      /\ addBatch_loop config random hostname retryTimeout schedule fuel
           tasks size delay true (Z.of_nat j * size) results s
         = Some (results ++ concat (fulfilled_of <$> rest), s')
      /\ batch_calls_made s'
         = batch_calls_made s
           ++ imap (λ k c, (fulfilled_of c, Z.of_nat (j + k))) rest
      /\ errorListener s' = errorListener s
      /\ unhandled s' = unhandled s.
Proof.
  intros Hsize.
  induction fuel as [| fuel IH]; intros j acc results s Hfuel Hsafe;
    cbn [chunk_loop addBatch_loop].
  - assert (Hdone : (Z.of_nat j * size <? Z.of_nat (length tasks)) = false)
      by lia.
    rewrite Hdone. exists s, []. simpl. rewrite !app_nil_r.
    repeat split; reflexivity.
  - destruct (Z.of_nat j * size <? Z.of_nat (length tasks)) eqn:Hlt.
    + set (c := slice tasks (Z.of_nat j * size) (Z.of_nat j * size + size)).
      rewrite (slice_split tasks (Z.of_nat j * size) size ltac:(lia) Hsize)
        in Hsafe.
      fold c in Hsafe.
      pose proof (RequestQueueFacts.allSettled_fst config random hostname
                    retryTimeout (schedule (Z.of_nat j * size)) c s) as Hfst.
      destruct (allSettled_makes_no_batch_call
                  (schedule (Z.of_nat j * size)) c s)
        as (Hcalls & Hl1 & Hu1).
      { destruct Hsafe as [Hl | Hall]; [left; exact Hl | right].
        apply Forall_app in Hall as [Hall _]. exact Hall. }
      destruct (allSettled config random hostname retryTimeout
                  (schedule (Z.of_nat j * size)) c s)
        as [rs s1]. cbn [fst snd] in Hfst, Hcalls, Hl1, Hu1. subst rs.
      rewrite RequestQueueFacts.successfulResults_omap.
      fold (fulfilled_of c).
      assert (Hidx : (Z.of_nat j * size) `div` size = Z.of_nat j)
        by (apply Z.div_mul; lia).
      rewrite Hidx.
      assert (Hnext : Z.of_nat j * size + size = Z.of_nat (S j) * size)
        by lia.
      rewrite Hnext in *.
      set (s3 := if (Z.of_nat (S j) * size <? Z.of_nat (length tasks))
                    && (0 <? delay)
                 then sleep (inject_Z delay)
                        (emit (onBatchCompleteCall (fulfilled_of c)
                                 (Z.of_nat j)) s1)
                 else emit (onBatchCompleteCall (fulfilled_of c)
                              (Z.of_nat j)) s1).
      assert (Hs3 : batch_calls_made s3
                    = batch_calls_made s ++ [(fulfilled_of c, Z.of_nat j)]
                    /\ errorListener s3 = errorListener s
                    /\ unhandled s3 = unhandled s).
      { unfold s3.
        destruct ((Z.of_nat (S j) * size <? Z.of_nat (length tasks))
                  && (0 <? delay));
          [change (batch_calls_made
                     (sleep (inject_Z delay)
                        (emit (onBatchCompleteCall (fulfilled_of c)
                                 (Z.of_nat j)) s1)))
             with (batch_calls_made
                     (emit (onBatchCompleteCall (fulfilled_of c)
                              (Z.of_nat j)) s1)) |];
          rewrite batch_calls_made_emit, Hcalls;
          (split; [reflexivity |]); split; assumption. }
      destruct Hs3 as (Hs3 & Hl3 & Hu3).
      destruct (IH (S j) (acc ++ [c]) (results ++ fulfilled_of c) s3
                  ltac:(lia))
        as (s' & rest & Hchunk & Hrun & Hmade & Hl' & Hu').
      { destruct Hsafe as [Hl | Hall];
          [left; rewrite Hl3; exact Hl | right].
        apply Forall_app in Hall as [_ Hall]. exact Hall. }
      exists s', (c :: rest). split; [| split; [| split; [| split]]].
      * rewrite Hchunk, <- app_assoc. reflexivity.
      * rewrite Hrun, <- app_assoc. reflexivity.
      * rewrite Hmade, Hs3, <- app_assoc. f_equal. simpl.
        rewrite Nat.add_0_r. f_equal.
        apply imap_ext. intros k x _. simpl. do 2 f_equal. lia.
      * rewrite Hl'. exact Hl3.
      * rewrite Hu'. exact Hu3.
    + exists s, []. simpl. rewrite !app_nil_r. repeat split; reflexivity.
Qed.

(** X8.  With a batch size of at least one and an [onBatchComplete]
    callback, on a queue with a listener for ['error'] or with tasks
    none of which is rejected for good, [addBatch] calls the callback
    once per chunk of [Helpers.chunk(tasks, batchSize)], in order, with
    the values of the chunk's tasks that fulfilled and with the indices
    0, 1, 2, ...; the array it returns is the arguments of these calls
    put end to end, and no ['error'] is left without a listener.  This
    holds whatever turns the event loop takes among the calls of a
    batch. *)
Theorem addBatch_reports_each_chunk (tasks : list (Task T))
    (options : BatchOptions) (s : QueueState T) :
  1 <= default (batchSize config) (opt_batchSize options) ->
  onBatchComplete options = true ->
  no_unhandled_error config tasks s ->
  exists out s' chunks,
    addBatch config random hostname retryTimeout schedule (length tasks)
      tasks options s = Some (out, s')
    /\ chunk (length tasks) tasks
         (default (batchSize config) (opt_batchSize options)) = Some chunks
    /\ batch_calls_made s'
       = batch_calls_made s
         ++ imap (λ k c, (fulfilled_of c, Z.of_nat k)) chunks
    /\ out = concat (fulfilled_of <$> chunks)
    /\ unhandled s' = unhandled s.
Proof.
  intros Hsize Hcb Hsafe. unfold addBatch, chunk. rewrite Hcb.
  destruct (addBatch_loop_chunks tasks
              (default (batchSize config) (opt_batchSize options))
              (default (requestDelay config) (delayBetweenBatches options))
              (length tasks) Hsize 0%nat [] [] s ltac:(lia))
    as (s' & rest & Hchunk & Hrun & Hmade & _ & Hun).
  { exact Hsafe. }
  change (Z.of_nat 0 * default (batchSize config) (opt_batchSize options))
    with 0 in *.
  exists (concat (fulfilled_of <$> rest)), s', rest.
  split; [exact Hrun |]. split; [exact Hchunk |].
  split; [exact Hmade |]. split; [reflexivity | exact Hun].
Qed.

End Callbacks.

Lemma addBatch_reports_each_chunk_witness :
  exists out s' chunks,
    addBatch default_config no_draw no_host doubling in_turn
      (length [succeeds 1; always_fails; succeeds 3; succeeds 4])
      [succeeds 1; always_fails; succeeds 3; succeeds 4]
      {| opt_batchSize := Some 3; delayBetweenBatches := Some 500;
         onBatchComplete := true |}
      listening = Some (out, s')
    /\ chunk (length [succeeds 1; always_fails; succeeds 3; succeeds 4])
         [succeeds 1; always_fails; succeeds 3; succeeds 4]
         (default (batchSize default_config)
            (opt_batchSize
               {| opt_batchSize := Some 3; delayBetweenBatches := Some 500;
                  onBatchComplete := true |})) = Some chunks
    /\ batch_calls_made s'
       = batch_calls_made listening
         ++ imap (λ k c, (fulfilled_of default_config c, Z.of_nat k)) chunks
    /\ out = concat (fulfilled_of default_config <$> chunks)
    /\ unhandled s' = unhandled listening.
Proof.
  apply (addBatch_reports_each_chunk default_config no_draw no_host doubling
           in_turn [succeeds 1; always_fails; succeeds 3; succeeds 4]
           {| opt_batchSize := Some 3; delayBetweenBatches := Some 500;
              onBatchComplete := true |}
           listening).
  - vm_compute. intros Hc. discriminate Hc.
  - reflexivity.
  - left. reflexivity.
Defined.

Example callbacks_of_four_by_three :
  (λ r, (r.1, batch_calls_made r.2))
    <$> addBatch default_config no_draw no_host doubling in_turn 4
          [succeeds 1; always_fails; succeeds 3; succeeds 4]
          {| opt_batchSize := Some 3; delayBetweenBatches := Some 500;
             onBatchComplete := true |}
          listening
  = Some ([1; 3; 4], [([1; 3], 0); ([4], 1)]).
Proof. vm_compute. reflexivity. Qed.

End BatchFacts.

(* ===================================================================== *)
(** * Further theorems: ProgressTracker                                   *)
(* ===================================================================== *)

Module TrackerStatsFacts.
Import ProgressTracker TrackerStats Examples.

Local Open Scope Q_scope.

Lemma calculateSpeed_id (now : Z) (e : ProgressEntry) :
  id (calculateSpeed now e) = id e
  /\ status (calculateSpeed now e) = status e
  /\ currentPage (calculateSpeed now e) = currentPage e
  /\ totalPages (calculateSpeed now e) = totalPages e.
Proof.
  unfold calculateSpeed. destruct (Qlt_le_dec _ _); repeat split.
Qed.

Lemma updateProgress_entry (now : Z) (key : string) (page : Z)
    (ad : option AdditionalData) (t : Tracker) (entry : ProgressEntry) :
  activeProgress t !! key = Some entry ->
  exists e,
    activeProgress (updateProgress now key page ad t)
    = <[key := e]> (activeProgress t)
    /\ completedProgress (updateProgress now key page ad t)
       = completedProgress t
    /\ id e = id entry
    /\ status e = DOWNLOADING
    /\ currentPage e = page
    /\ totalPages e = totalPages entry.
Proof.
  intros E. unfold updateProgress. rewrite E. cbn [activeProgress completedProgress].
  eexists. split; [reflexivity |]. split; [reflexivity |].
  match goal with
  | |- context [calculateSpeed now ?x] =>
      destruct (calculateSpeed_id now x) as (Hi & Hs & Hc & Ht)
  end.
  rewrite Hi, Hs, Hc, Ht.
  destruct (ad ≫= ad_error) as [msg |];
    [destruct (decide (msg = "")) |];
    destruct (ad ≫= ad_totalBytes); destruct (ad ≫= ad_downloadedBytes);
    repeat split.
Qed.

(** ** Every record is filed where its status says *)

Lemma apply_keeps_well_filed (op : Op) (t : Tracker) :
  well_filed t -> well_filed (apply op t).
Proof.
  intros [Hact Hdone].
  destruct op as [now key total series episode | now key page ad
                 | now key success | key | key | key | now | |]; simpl.
  - (* start *)
    split; simpl; [| exact Hdone].
    intros k e. destruct (decide (key = k)) as [-> | Hne].
    + rewrite lookup_insert_eq. intros [= <-]. split; reflexivity.
    + rewrite lookup_insert_ne by exact Hne. apply Hact.
  - (* updateProgress *)
    destruct (activeProgress t !! key) as [entry |] eqn:E.
    + destruct (updateProgress_entry now key page ad t entry E)
        as (e5 & Ha & Hc & Hi & Hs & _).
      destruct (Hact key entry E) as [_ Hid].
      split; [rewrite Ha | rewrite Hc; exact Hdone].
      intros k e. destruct (decide (key = k)) as [-> | Hne].
      * rewrite lookup_insert_eq. intros [= <-]. rewrite Hs, Hi.
        split; [reflexivity | exact Hid].
      * rewrite lookup_insert_ne by exact Hne. apply Hact.
    + unfold updateProgress. rewrite E. split; assumption.
  - (* complete *)
    unfold complete.
    destruct (activeProgress t !! key) as [entry |] eqn:E;
      [| split; assumption].
    destruct (Hact key entry E) as [_ Hid].
    split; simpl.
    + intros k e. destruct (decide (key = k)) as [-> | Hne].
      * rewrite lookup_delete_eq. discriminate.
      * rewrite lookup_delete_ne by exact Hne. apply Hact.
    + intros k e. destruct (decide (key = k)) as [-> | Hne].
      * rewrite lookup_insert_eq. intros [= <-].
        destruct success; split; try reflexivity; exact Hid.
      * rewrite lookup_insert_ne by exact Hne. apply Hdone.
  - (* pause *)
    unfold pause.
    destruct (activeProgress t !! key) as [entry |] eqn:E;
      [| split; assumption].
    destruct (Hact key entry E) as [_ Hid].
    split; simpl; [| exact Hdone].
    intros k e. destruct (decide (key = k)) as [-> | Hne].
    + rewrite lookup_insert_eq. intros [= <-]. split; [reflexivity | exact Hid].
    + rewrite lookup_insert_ne by exact Hne. apply Hact.
  - (* resume *)
    unfold resume.
    destruct (activeProgress t !! key) as [entry |] eqn:E;
      [| split; assumption].
    destruct (Hact key entry E) as [_ Hid].
    split; simpl; [| exact Hdone].
    intros k e. destruct (decide (key = k)) as [-> | Hne].
    + rewrite lookup_insert_eq. intros [= <-]. split; [reflexivity | exact Hid].
    + rewrite lookup_insert_ne by exact Hne. apply Hact.
  - (* cancel *)
    unfold cancel.
    destruct (activeProgress t !! key) as [entry |] eqn:E;
      [| split; assumption].
    destruct (Hact key entry E) as [_ Hid].
    split; simpl.
    + intros k e. destruct (decide (key = k)) as [-> | Hne].
      * rewrite lookup_delete_eq. discriminate.
      * rewrite lookup_delete_ne by exact Hne. apply Hact.
    + intros k e. destruct (decide (key = k)) as [-> | Hne].
      * rewrite lookup_insert_eq. intros [= <-].
        split; [reflexivity | exact Hid].
      * rewrite lookup_insert_ne by exact Hne. apply Hdone.
  - (* the periodic update *)
    split; simpl; [| exact Hdone].
    intros k e. rewrite lookup_fmap.
    destruct (activeProgress t !! k) as [entry |] eqn:E; simpl;
      [| discriminate].
    intros [= <-]. destruct (calculateSpeed_id now entry) as (Hi & Hs & _).
    rewrite Hi, Hs. apply Hact, E.
  - (* clearCompleted *)
    split; simpl; [exact Hact |].
    intros k e. rewrite lookup_empty. discriminate.
  - (* clearAll *)
    split; simpl; intros k e; rewrite lookup_empty; discriminate.
Qed.

Lemma reachable_well_filed (ops : list Op) :
  well_filed (apply_all ops new_tracker).
Proof.
  assert (Hinit : well_filed new_tracker).
  { split; intros key e; simpl; rewrite lookup_empty; discriminate. }
  revert Hinit. generalize new_tracker. unfold apply_all.
  induction ops as [| op ops IH]; intros t Ht; simpl.
  - exact Ht.
  - apply IH, apply_keeps_well_filed, Ht.
Qed.

(** X9.  Whatever calls a tracker has received since it was created,
    every record of its active set is pending, downloading or paused,
    every record of its completed set is completed or failed, and every
    record is stored under its own id. *)
Theorem tracker_is_well_filed (ops : list Op) :
  well_filed (apply_all ops new_tracker).
Proof. exact (reachable_well_filed ops). Qed.

(** ** Statistics *)

Lemma status_split (l : list ProgressEntry) :
  Forall (λ e, terminal (status e) = true) l ->
  (length (filter (λ entry, status entry = COMPLETED) l)
   + length (filter (λ entry, status entry = FAILED) l))%nat
  = length l.
Proof.
  induction 1 as [| e l He Hl IH]; [reflexivity |].
  rewrite !filter_cons.
  destruct (status e); try discriminate He;
    repeat case_decide; try congruence; simpl; lia.
Qed.

(** X10.  In the statistics of a tracker, whatever calls it has received,
    the successful and the failed downloads add up to the completed ones:
    no completed record is left out of both counts. *)
Theorem stats_account_for_every_completed (ops : list Op) :
  (successfulDownloads (getOverallStats (apply_all ops new_tracker))
   + failedDownloads (getOverallStats (apply_all ops new_tracker)))%nat
  = completedDownloads (getOverallStats (apply_all ops new_tracker)).
Proof.
  destruct (reachable_well_filed ops) as [_ Hdone].
  unfold getOverallStats. simpl. apply status_split.
  apply Forall_forall. intros e He. unfold values in He.
  apply list_elem_of_fmap in He as [[k e'] [-> Hin]].
  apply elem_of_map_to_list in Hin. apply (Hdone k e' Hin).
Qed.

(** ** Pausing and resuming *)

(** X11.  Pausing an active record twice leaves the same records as
    pausing it once, but not the same observations: the second call emits
    a second [progressPause] event. *)
Theorem pause_twice (t : Tracker) (key : string) (e : ProgressEntry) :
  activeProgress t !! key = Some e ->
  activeProgress (pause key (pause key t)) = activeProgress (pause key t)
  /\ completedProgress (pause key (pause key t))
     = completedProgress (pause key t)
  /\ events (pause key (pause key t))
     = (events (pause key t)
        ++ [progressPause (createProgressObject (set_status PAUSED e))])%list.
Proof.
  intros E.
  assert (Hact : activeProgress (pause key t)
                 = <[key := set_status PAUSED e]> (activeProgress t))
    by (unfold pause; rewrite E; reflexivity).
  assert (E1 : activeProgress (pause key t) !! key
               = Some (set_status PAUSED e))
    by (rewrite Hact; apply lookup_insert_eq).
  generalize dependent (pause key t). intros t1 Hact E1.
  unfold pause. rewrite E1. simpl.
  split; [| split; reflexivity].
  rewrite Hact. apply insert_insert_eq.
Qed.

Lemma pause_twice_witness :
  activeProgress (pause "a" (pause "a" tracking_a))
  = activeProgress (pause "a" tracking_a)
  /\ completedProgress (pause "a" (pause "a" tracking_a))
     = completedProgress (pause "a" tracking_a)
  /\ events (pause "a" (pause "a" tracking_a))
     = (events (pause "a" tracking_a)
        ++ [progressPause
              (createProgressObject
                 (set_status PAUSED
                    {| id := "a"; seriesName := "Unknown Series";
                       episodeName := "Unknown Episode";
                       status := DOWNLOADING;
                       currentPage := 12; totalPages := 10;
                       downloadedBytes := 4096;
                       totalBytes := 8192; startTime := t0;
                       lastUpdate := (t0 + 2000)%Z;
                       speed := 3072000 # 1000;
                       errors := [];
                       lastDownloadedBytes := Some 4096%Z |}))])%list.
Proof.
  apply (pause_twice tracking_a "a"). vm_compute. reflexivity.
Defined.

(** X12.  [resume] does not restore what [pause] replaced: after a pause
    and a resume the record is downloading, whatever it was before.  A
    record that was downloading is back exactly as it was, and so are all
    the records of the tracker; a record that was still pending is not. *)
Theorem pause_then_resume (t : Tracker) (key : string) (e : ProgressEntry) :
  activeProgress t !! key = Some e ->
  activeProgress (resume key (pause key t))
  = <[key := set_status DOWNLOADING e]> (activeProgress t)
  /\ completedProgress (resume key (pause key t)) = completedProgress t
  /\ (status e = DOWNLOADING ->
      activeProgress (resume key (pause key t)) = activeProgress t).
Proof.
  intros E.
  assert (Hact : activeProgress (pause key t)
                 = <[key := set_status PAUSED e]> (activeProgress t))
    by (unfold pause; rewrite E; reflexivity).
  assert (Hdone : completedProgress (pause key t) = completedProgress t)
    by (unfold pause; rewrite E; reflexivity).
  assert (E1 : activeProgress (pause key t) !! key
               = Some (set_status PAUSED e))
    by (rewrite Hact; apply lookup_insert_eq).
  generalize dependent (pause key t). intros t1 Hact Hdone E1.
  assert (Hres : activeProgress (resume key t1)
                 = <[key := set_status DOWNLOADING e]> (activeProgress t)).
  { unfold resume. rewrite E1. simpl. rewrite Hact. apply insert_insert_eq. }
  split; [exact Hres |]. split.
  - unfold resume. rewrite E1. simpl. exact Hdone.
  - intros Hst. rewrite Hres. apply insert_id. rewrite E. f_equal.
    destruct e; simpl in *. subst. reflexivity.
Qed.

Lemma pause_then_resume_witness :
  activeProgress (resume "a" (pause "a" tracking_a))
  = <["a" := set_status DOWNLOADING
               {| id := "a"; seriesName := "Unknown Series";
                  episodeName := "Unknown Episode";
                  status := DOWNLOADING;
                  currentPage := 12; totalPages := 10;
                  downloadedBytes := 4096;
                  totalBytes := 8192; startTime := t0;
                  lastUpdate := (t0 + 2000)%Z;
                  speed := 3072000 # 1000;
                  errors := [];
                  lastDownloadedBytes := Some 4096%Z |}]>
      (activeProgress tracking_a)
  /\ completedProgress (resume "a" (pause "a" tracking_a))
     = completedProgress tracking_a
  /\ (status
        {| id := "a"; seriesName := "Unknown Series";
           episodeName := "Unknown Episode";
           status := DOWNLOADING;
           currentPage := 12; totalPages := 10;
           downloadedBytes := 4096;
           totalBytes := 8192; startTime := t0;
           lastUpdate := (t0 + 2000)%Z;
           speed := 3072000 # 1000;
           errors := [];
           lastDownloadedBytes := Some 4096%Z |} = DOWNLOADING ->
      activeProgress (resume "a" (pause "a" tracking_a))
      = activeProgress tracking_a).
Proof.
  apply (pause_then_resume tracking_a "a"). vm_compute. reflexivity.
Defined.

(** ** After the end *)

(** X13.  Once [complete] or [cancel] has filed a record, every later
    call for that id changes nothing and emits nothing, until the id is
    started again: a late progress report is dropped, a second [complete]
    does not emit a second [progressComplete], and [getProgress] keeps
    answering with the filed record. *)
Theorem filed_record_is_left_alone (t : Tracker) (key : string)
    (e : ProgressEntry) (now now' page : Z) (success success' : bool)
    (ad : option AdditionalData) (by_cancel : bool) :
  activeProgress t !! key = Some e ->
  let t' := if by_cancel then cancel key t else complete now key success t in
  updateProgress now' key page ad t' = t'
  /\ pause key t' = t'
  /\ resume key t' = t'
  /\ cancel key t' = t'
  /\ complete now' key success' t' = t'
  /\ getProgress key t'
     = createProgressObject <$> completedProgress t' !! key
  /\ is_Some (completedProgress t' !! key).
Proof.
  intros E t'.
  assert (Hgone : activeProgress t' !! key = None).
  { unfold t'. destruct by_cancel; [unfold cancel | unfold complete];
      rewrite E; simpl; apply lookup_delete_eq. }
  assert (Hfiled : is_Some (completedProgress t' !! key)).
  { unfold t'. destruct by_cancel; [unfold cancel | unfold complete];
      rewrite E; simpl; rewrite lookup_insert_eq; eauto. }
  unfold updateProgress, pause, resume, cancel at 1, complete at 1,
    getProgress.
  rewrite Hgone. repeat split. exact Hfiled.
Qed.

Lemma filed_record_is_left_alone_witness :
  updateProgress (t0 + 9000) "a" 4 None
    (complete (t0 + 3000) "a" true tracking_a)
  = complete (t0 + 3000) "a" true tracking_a
  /\ pause "a" (complete (t0 + 3000) "a" true tracking_a)
     = complete (t0 + 3000) "a" true tracking_a
  /\ resume "a" (complete (t0 + 3000) "a" true tracking_a)
     = complete (t0 + 3000) "a" true tracking_a
  /\ cancel "a" (complete (t0 + 3000) "a" true tracking_a)
     = complete (t0 + 3000) "a" true tracking_a
  /\ complete (t0 + 9000) "a" false (complete (t0 + 3000) "a" true tracking_a)
     = complete (t0 + 3000) "a" true tracking_a
  /\ getProgress "a" (complete (t0 + 3000) "a" true tracking_a)
     = createProgressObject
         <$> completedProgress (complete (t0 + 3000) "a" true tracking_a)
               !! "a"
  /\ is_Some (completedProgress (complete (t0 + 3000) "a" true tracking_a)
                !! "a").
Proof.
  destruct (activeProgress tracking_a !! "a") as [e |] eqn:E;
    [| vm_compute in E; discriminate E].
  apply (filed_record_is_left_alone tracking_a "a" e (t0 + 3000) (t0 + 9000)
           4 true false None false E).
Defined.

(** ** Counting *)

(** X14.  [complete] and [cancel] move exactly one record: the active
    count goes down by one, and the completed count goes up by one unless
    a record was already filed under the id, which is then replaced. *)
Theorem filing_moves_one_record (t : Tracker) (key : string)
    (e : ProgressEntry) (now : Z) (success by_cancel : bool) :
  activeProgress t !! key = Some e ->
  let t' := if by_cancel then cancel key t else complete now key success t in
  S (getActiveCount t') = getActiveCount t
  /\ getCompletedCount t'
     = (getCompletedCount t
        + if bool_decide (completedProgress t !! key = None) then 1 else 0)%nat.
Proof.
  intros E t'. unfold getActiveCount, getCompletedCount.
  assert (Hmaps : exists e',
             activeProgress t' = delete key (activeProgress t)
             /\ completedProgress t' = <[key := e']> (completedProgress t)).
  { unfold t'. destruct by_cancel; [unfold cancel | unfold complete];
      rewrite E; simpl; eexists; split; reflexivity. }
  destruct Hmaps as (e' & -> & ->). split.
  - rewrite map_size_delete, E.
    assert (Hpos : (0 < size (activeProgress t))%nat).
    { destruct (decide (size (activeProgress t) = 0%nat)) as [Hz | Hnz];
        [| lia].
      apply map_size_empty_inv in Hz. rewrite Hz, lookup_empty in E.
      discriminate E. }
    lia.
  - case_bool_decide as Hnew.
    + rewrite map_size_insert_None by exact Hnew. lia.
    + destruct (completedProgress t !! key) as [old |] eqn:Eold;
        [| congruence].
      rewrite map_size_insert_Some by eauto. lia.
Qed.

Lemma filing_moves_one_record_witness :
  S (getActiveCount (cancel "a" tracking_a)) = getActiveCount tracking_a
  /\ getCompletedCount (cancel "a" tracking_a)
     = (getCompletedCount tracking_a
        + if bool_decide (completedProgress tracking_a !! "a" = None)
          then 1 else 0)%nat.
Proof.
  destruct (activeProgress tracking_a !! "a") as [e |] eqn:E;
    [| vm_compute in E; discriminate E].
  apply (filing_moves_one_record tracking_a "a" e t0 true true E).
Defined.

(** ** What observers are shown *)

Lemma Qfloor_half (n : Z) : Qfloor (inject_Z n + (1 # 2)) = n.
Proof.
  assert (Hlo : (n <= Qfloor (inject_Z n + (1 # 2)))%Z).
  { rewrite <- (Qfloor_Z n) at 1. apply Qfloor_resp_le. lra. }
  assert (Hhi : (Qfloor (inject_Z n + (1 # 2)) < n + 1)%Z).
  { rewrite Zlt_Qlt.
    pose proof (Qfloor_le (inject_Z n + (1 # 2))) as Hle.
    rewrite inject_Z_plus. change (inject_Z 1) with 1. lra. }
  lia.
Qed.

Lemma Math_round_between (a b : Z) (x : Q) :
  inject_Z a <= x -> x <= inject_Z b -> (a <= Math_round x <= b)%Z.
Proof.
  intros Ha Hb. unfold Math_round. split.
  - rewrite <- (Qfloor_half a). apply Qfloor_resp_le. lra.
  - rewrite <- (Qfloor_half b). apply Qfloor_resp_le. lra.
Qed.

Lemma ratio_bounds (c t : Z) :
  (0 < t)%Z -> (0 <= c <= t)%Z ->
  0 <= inject_Z c / inject_Z t /\ inject_Z c / inject_Z t <= 1.
Proof.
  intros Ht [Hc0 Hct].
  assert (Htq : 0 < inject_Z t)
    by (change 0 with (inject_Z 0); rewrite <- Zlt_Qlt; exact Ht).
  assert (Hcq : 0 <= inject_Z c)
    by (change 0 with (inject_Z 0); rewrite <- Zle_Qle; exact Hc0).
  assert (Hctq : inject_Z c <= inject_Z t) by (rewrite <- Zle_Qle; exact Hct).
  split.
  - apply Qle_shift_div_l; [exact Htq | lra].
  - apply Qle_shift_div_r; [exact Htq | lra].
Qed.

(** X15.  The percentage shown for a record whose page lies within
    [0 .. totalPages] lies within [0 .. 100]: rounding to two decimals does
    not push it out. *)
Theorem percentage_within_bounds (e : ProgressEntry) :
  (0 <= currentPage e <= totalPages e)%Z ->
  0 <= dp_percentage (createProgressObject e)
  /\ dp_percentage (createProgressObject e) <= 100.
Proof.
  intros [Hc0 Hct]. unfold createProgressObject. cbn [dp_percentage].
  destruct (0 <? totalPages e)%Z eqn:Hpos.
  - destruct (ratio_bounds (currentPage e) (totalPages e) ltac:(lia)
                ltac:(lia)) as [Hlo Hhi].
    set (r := inject_Z (currentPage e) / inject_Z (totalPages e)) in *.
    destruct (Math_round_between 0 10000 (r * 100 * 100)) as [Hm0 Hm1].
    { change (inject_Z 0) with 0. nra. }
    { change (inject_Z 10000) with 10000. nra. }
    rewrite Zle_Qle in Hm0, Hm1.
    change (inject_Z 0) with 0 in Hm0.
    change (inject_Z 10000) with 10000 in Hm1.
    set (m := inject_Z (Math_round (r * 100 * 100))) in *.
    split.
    + apply Qle_shift_div_l; [reflexivity | lra].
    + apply Qle_shift_div_r; [reflexivity | lra].
  - split; intros Hc; discriminate Hc.
Qed.

Lemma percentage_within_bounds_witness :
  0 <= dp_percentage
         (createProgressObject
            {| id := "b"; seriesName := "s"; episodeName := "e";
               status := DOWNLOADING; currentPage := 1; totalPages := 3;
               downloadedBytes := 100; totalBytes := 1000; startTime := t0;
               lastUpdate := t0; speed := 0; errors := [];
               lastDownloadedBytes := None |})
  /\ dp_percentage
       (createProgressObject
          {| id := "b"; seriesName := "s"; episodeName := "e";
             status := DOWNLOADING; currentPage := 1; totalPages := 3;
             downloadedBytes := 100; totalBytes := 1000; startTime := t0;
             lastUpdate := t0; speed := 0; errors := [];
             lastDownloadedBytes := None |}) <= 100.
Proof.
  apply (percentage_within_bounds
           {| id := "b"; seriesName := "s"; episodeName := "e";
              status := DOWNLOADING; currentPage := 1; totalPages := 3;
              downloadedBytes := 100; totalBytes := 1000; startTime := t0;
              lastUpdate := t0; speed := 0; errors := [];
              lastDownloadedBytes := None |}).
  simpl. lia.
Defined.

Example a_third_is_shown_as_33_33 :
  dp_percentage
    (createProgressObject
       {| id := "b"; seriesName := "s"; episodeName := "e";
          status := DOWNLOADING; currentPage := 1; totalPages := 3;
          downloadedBytes := 100; totalBytes := 1000; startTime := t0;
          lastUpdate := t0; speed := 0; errors := [];
          lastDownloadedBytes := None |}) == 3333 # 100.
Proof. vm_compute. reflexivity. Qed.

(** X16.  What observers are shown when a download is completed with
    success: the [progressComplete] event, and [getProgress] afterwards,
    carry a page count equal to the total, an estimated time of "0s" and,
    for a record with at least one page, a percentage of 100; this does
    not depend on the page the record had reached. *)
Theorem completed_download_is_shown_done (t : Tracker) (key : string)
    (e : ProgressEntry) (now : Z) :
  activeProgress t !! key = Some e ->
  (0 < totalPages e)%Z ->
  exists p,
    getProgress key (complete now key true t) = Some p
    /\ events (complete now key true t)
       = (events t ++ [progressComplete p])%list
    /\ dp_currentPage p = totalPages e
    /\ dp_totalPages p = totalPages e
    /\ dp_eta p = "0s"
    /\ dp_percentage p == 100.
Proof.
  intros E Hpos. unfold getProgress, complete. rewrite E. simpl.
  rewrite lookup_delete_eq, lookup_insert_eq. simpl.
  eexists. split; [reflexivity |]. split; [reflexivity |].
  unfold createProgressObject. simpl.
  split; [reflexivity |]. split; [reflexivity |]. split.
  - rewrite ProgressTrackerFacts.calculateETA_zero by (left; simpl; lia).
    reflexivity.
  - assert (Hb : (0 <? totalPages e)%Z = true) by lia. rewrite Hb.
    assert (Hone : inject_Z (totalPages e) / inject_Z (totalPages e) * 100 * 100
                   == inject_Z 10000).
    { assert (Hnz : ~ inject_Z (totalPages e) == 0).
      { intros Hz. assert (H0 : 0 < inject_Z (totalPages e))
          by (change 0 with (inject_Z 0); rewrite <- Zlt_Qlt; exact Hpos).
        lra. }
      field. exact Hnz. }
    unfold Math_round. rewrite Hone, Qfloor_half. reflexivity.
Qed.

Lemma completed_download_is_shown_done_witness :
  exists p,
    getProgress "a" (complete (t0 + 3000) "a" true tracking_a) = Some p
    /\ events (complete (t0 + 3000) "a" true tracking_a)
       = (events tracking_a ++ [progressComplete p])%list
    /\ dp_currentPage p = 10%Z
    /\ dp_totalPages p = 10%Z
    /\ dp_eta p = "0s"
    /\ dp_percentage p == 100.
Proof.
  apply (completed_download_is_shown_done tracking_a "a"
           {| id := "a"; seriesName := "Unknown Series";
              episodeName := "Unknown Episode"; status := DOWNLOADING;
              currentPage := 12; totalPages := 10; downloadedBytes := 4096;
              totalBytes := 8192; startTime := t0;
              lastUpdate := (t0 + 2000)%Z; speed := 3072000 # 1000;
              errors := []; lastDownloadedBytes := Some 4096%Z |}
           (t0 + 3000)).
  - vm_compute. reflexivity.
  - simpl. lia.
Defined.

(** ** The progress bar *)

(** X17.  For a width that is not negative and a page within
    [0 .. total], [createProgressBar] returns a bar of exactly [width]
    cells between its brackets: some number of full cells, at most
    [width], then light cells for the rest. *)
Theorem progress_bar_has_width_cells (current total width : Z) :
  (0 <= width)%Z ->
  (0 <= current <= total)%Z ->
  exists filled : Z,
    (0 <= filled <= width)%Z
    /\ createProgressBar current total width
       = Some ("[" +:+ repeat_string "█" (Z.to_nat filled)
                   +:+ repeat_string "░" (Z.to_nat (width - filled))
                   +:+ "]").
Proof.
  intros Hw [Hc0 Hct]. unfold createProgressBar.
  set (percentage := if (0 <? total)%Z
                     then inject_Z current / inject_Z total else 0).
  assert (Hp : 0 <= percentage /\ percentage <= 1).
  { unfold percentage. destruct (0 <? total)%Z eqn:Hpos.
    - apply ratio_bounds; lia.
    - split; intros Hc; discriminate Hc. }
  destruct Hp as [Hp0 Hp1].
  assert (Hwq : 0 <= inject_Z width)
    by (change 0 with (inject_Z 0); rewrite <- Zle_Qle; exact Hw).
  destruct (Math_round_between 0 width (inject_Z width * percentage))
    as [Hf0 Hf1].
  { change (inject_Z 0) with 0. nra. }
  { nra. }
  exists (Math_round (inject_Z width * percentage)).
  split; [lia |].
  unfold js_repeat.
  assert (H1 : (Math_round (inject_Z width * percentage) <? 0)%Z = false)
    by lia.
  assert (H2 : (width - Math_round (inject_Z width * percentage) <? 0)%Z
               = false) by lia.
  rewrite H1, H2. reflexivity.
Qed.

Lemma progress_bar_has_width_cells_witness :
  exists filled : Z,
    (0 <= filled <= 30)%Z
    /\ createProgressBar 3 10 30
       = Some ("[" +:+ repeat_string "█" (Z.to_nat filled)
                   +:+ repeat_string "░" (Z.to_nat (30 - filled))
                   +:+ "]").
Proof.
  apply (progress_bar_has_width_cells 3 10 30); lia.
Defined.

Lemma nearest_1024th_rounds : rounds_as_doubles nearest_1024th.
Proof.
  unfold rounds_as_doubles, nearest_1024th. split.
  - intros x y Hxy.
    assert (Hf : (Qfloor (x * 1024 + (1 # 2))
                  <= Qfloor (y * 1024 + (1 # 2)))%Z)
      by (apply Qfloor_resp_le; lra).
    rewrite Zle_Qle in Hf.
    apply Qle_shift_div_l; [reflexivity |].
    assert (He : inject_Z (Qfloor (x * 1024 + (1 # 2))) / 1024 * 1024
                 == inject_Z (Qfloor (x * 1024 + (1 # 2))))
      by (field).
    rewrite He. exact Hf.
  - intros n _.
    assert (Hn : Qfloor (inject_Z n * 1024 + (1 # 2)) = (n * 1024)%Z).
    { assert (Hlow : (n * 1024
                      <= Qfloor (inject_Z n * 1024 + (1 # 2)))%Z).
      { rewrite <- (Qfloor_Z (n * 1024)) at 1. apply Qfloor_resp_le.
        rewrite inject_Z_mult. change (inject_Z 1024) with 1024. lra. }
      assert (Hhigh : (Qfloor (inject_Z n * 1024 + (1 # 2))
                       < n * 1024 + 1)%Z).
      { rewrite Zlt_Qlt.
        apply Qle_lt_trans with (inject_Z n * 1024 + (1 # 2));
          [apply Qfloor_le |].
        rewrite inject_Z_plus, inject_Z_mult.
        change (inject_Z 1024) with 1024. change (inject_Z 1) with 1.
        lra. }
      lia. }
    rewrite Hn, inject_Z_mult. change (inject_Z 1024) with 1024. field.
Qed.

Lemma createProgressBar_exact (current total width : Z) :
  createProgressBar_rounded (λ x, x) current total width
  = createProgressBar current total width.
Proof. reflexivity. Qed.

(** X18.  A page at twice the total or beyond breaks the bar, in the
    arithmetic of doubles as in exact arithmetic: for a width of at
    least one, [width * (current / total)] is at least [2 * width]
    however the quotient and the product are rounded, so [filled]
    exceeds [width], the light part would have a negative length,
    [repeat] throws, and no bar is returned. *)
Theorem progress_bar_throws_beyond_total (fl : Q -> Q)
    (current total width : Z) :
  rounds_as_doubles fl ->
  (0 < total)%Z ->
  (1 <= width)%Z ->
  (2 * width <= 2 ^ 53)%Z ->
  (2 * total <= current)%Z ->
  createProgressBar_rounded fl current total width = None.
Proof.
  intros [Hmono Hexact] Ht Hw Hfits Hover. unfold createProgressBar_rounded.
  assert (Hb : (0 <? total)%Z = true) by lia. rewrite Hb.
  assert (Htq : 0 < inject_Z total)
    by (change 0 with (inject_Z 0); rewrite <- Zlt_Qlt; exact Ht).
  assert (Hwq : 1 <= inject_Z width)
    by (change 1 with (inject_Z 1); rewrite <- Zle_Qle; exact Hw).
  assert (Hq : 2 * inject_Z total <= inject_Z current).
  { rewrite Zle_Qle in Hover. rewrite inject_Z_mult in Hover.
    exact Hover. }
  set (r := inject_Z current / inject_Z total).
  assert (Hr : 2 <= r).
  { unfold r. apply Qle_shift_div_l; [exact Htq | exact Hq]. }
  assert (Hfr : 2 <= fl r).
  { assert (H2 : fl (inject_Z 2) == inject_Z 2)
      by (apply Hexact; vm_compute; intros Hc; discriminate Hc).
    change (inject_Z 2) with 2 in H2. rewrite <- H2.
    apply Hmono. exact Hr. }
  assert (Hprod : inject_Z (2 * width) <= fl (inject_Z width * fl r)).
  { rewrite <- (Hexact (2 * width)%Z) by lia.
    apply Hmono. rewrite inject_Z_mult. change (inject_Z 2) with 2. nra. }
  assert (Hfilled : (width + 1
                     <= Math_round (fl (inject_Z width * fl r)%Q))%Z).
  { unfold Math_round. rewrite <- (Qfloor_Z (width + 1)).
    apply Qfloor_resp_le.
    rewrite inject_Z_mult in Hprod. change (inject_Z 2) with 2 in Hprod.
    rewrite inject_Z_plus. change (inject_Z 1) with 1. lra. }
  unfold js_repeat.
  assert (H1 : (Math_round (fl (inject_Z width * fl r)%Q) <? 0)%Z = false)
    by lia.
  assert (H2 : (width - Math_round (fl (inject_Z width * fl r)%Q) <? 0)%Z
               = true) by lia.
  rewrite H1, H2. reflexivity.
Qed.

Lemma progress_bar_throws_beyond_total_witness :
  createProgressBar_rounded nearest_1024th 20 10 30 = None.
Proof.
  apply (progress_bar_throws_beyond_total nearest_1024th 20 10 30).
  - exact nearest_1024th_rounds.
  - lia.
  - lia.
  - vm_compute. intros Hc. discriminate Hc.
  - lia.
Defined.

Example exact_bar_beyond_total :
  createProgressBar 12 10 30 = None
  /\ createProgressBar 59 58 29 = None
  /\ createProgressBar 121 120 30 = Some "[██████████████████████████████]".
Proof. vm_compute. repeat split; reflexivity. Qed.

Example bar_of_three_in_ten :
  createProgressBar 3 10 10 = Some "[███░░░░░░░]".
Proof. vm_compute. reflexivity. Qed.

End TrackerStatsFacts.

(* ===================================================================== *)
(** * Further theorems: ImageDownloader                                   *)
(* ===================================================================== *)

Module ImageDownloaderMore.
Import ImageDownloader Examples.

Lemma on_failure_shape (env : Environment) (filepath imageUrl errorText : string)
    (fs : FileSystem) :
  (on_failure env filepath imageUrl errorText fs).1
  = Threw (download_failed imageUrl filepath errorText).
Proof. reflexivity. Qed.

Lemma convertImage_keeps_one (env : Environment) (filepath : string)
    (fs : FileSystem) :
  is_Some (fs !! filepath) ->
  is_Some (convertImage env filepath fs !! filepath)
  \/ is_Some (convertImage env filepath fs !! outputPath (conversion env)).
Proof.
  intros Hfile. unfold convertImage. unfold FileSystem in *.
  destruct (sharpOutput (conversion env)) as [bytes |]; [| left; exact Hfile].
  right.
  destruct (decide (filepath = outputPath (conversion env))) as [Heq | Hne].
  - rewrite lookup_insert_eq. eauto.
  - destruct (unlinkThrows env).
    + rewrite lookup_insert_eq. eauto.
    + rewrite lookup_delete_ne by exact Hne. rewrite lookup_insert_eq. eauto.
Qed.

(** X19.  Whatever the request, the stream, the conversion and the disk
    do, [downloadSingleImage] ends in one of two ways.  Either it resolves,
    always with [success: true] and a byte count that is not negative, and
    then a file is present at the sink path or, after a conversion, at the
    conversion's output path.  Or it throws a [DownloadError] whose code is
    [DOWNLOAD_FAILED] and which names the URL and the sink path: the code
    [INVALID_CONTENT_TYPE] never reaches the caller. *)
Theorem downloadSingleImage_outcomes (env : Environment)
    (imageUrl filepath urlFormat : string) (options : Options)
    (reports : bool) (fs : FileSystem) :
  match (downloadSingleImage env imageUrl filepath urlFormat options reports
           fs).1.1 with
  | Resolved success downloadedBytes =>
      success = true
      /\ 0 <= downloadedBytes
      /\ (is_Some ((downloadSingleImage env imageUrl filepath urlFormat
                      options reports fs).1.2 !! filepath)
          \/ is_Some ((downloadSingleImage env imageUrl filepath urlFormat
                         options reports fs).1.2
                        !! outputPath (conversion env)))
  | Threw error =>
      de_code error = "DOWNLOAD_FAILED"
      /\ de_url error = imageUrl
      /\ de_filePath error = Some filepath
  end.
Proof.
  unfold FileSystem in *. unfold downloadSingleImage.
  destruct (existsSync filepath fs && skipExisting options
            && (1000 <? stat_size filepath fs)) eqn:Hskip.
  - cbn [fst snd]. split; [reflexivity |]. split.
    + unfold stat_size. lia.
    + left. apply andb_prop in Hskip as [Hskip _].
      apply andb_prop in Hskip as [Hex _].
      unfold existsSync in Hex. apply bool_decide_eq_true in Hex. exact Hex.
  - unfold download.
    destruct (axiosResult env) as [name message | response].
    + cbn [fst snd]. rewrite on_failure_shape. repeat split.
    + destruct (declares_image response); cbn [negb].
      * pose proof (ImageDownloaderFacts.on_data_total reports
                      (default 0 (content_length response))
                      (chunks response) 0) as Htotal.
        destruct (on_data reports (default 0 (content_length response))
                    (chunks response) 0) as [total calls].
        cbn [fst] in Htotal. subst total.
        destruct (streamError response) as [message |].
        -- cbn [fst snd]. rewrite on_failure_shape. repeat split.
        -- cbn [fst snd]. split; [reflexivity |]. split; [lia |].
           assert (Hfile : is_Some
                             (<[filepath := concat (chunks response)]> fs
                                !! filepath))
             by (unfold FileSystem in *; rewrite lookup_insert_eq; eauto).
           destruct (imageFormat options) as [format |];
             [| left; exact Hfile].
           destruct (decide (format = "")); [left; exact Hfile |].
           destruct (decide (format = urlFormat)); [left; exact Hfile |].
           apply convertImage_keeps_one, Hfile.
      * cbn [fst snd]. rewrite on_failure_shape. repeat split.
Qed.

(** X20.  The [data] listener reports to [onProgress] once per chunk, with
    the bytes received so far and the declared length, provided a callback
    was given and the response declared a positive length; the last report
    carries the byte count the download resolves with.  Without a declared
    length the callback is never called. *)
Theorem on_data_reports (reports : bool) (contentLength : Z)
    (received : list (list byte)) (downloadedBytes : Z) :
  (on_data reports contentLength received downloadedBytes).2
  = if reports && (0 <? contentLength)
    then imap
           (λ k _,
              {| pr_downloadedBytes :=
                   downloadedBytes
                   + Z.of_nat (length (concat (take (S k) received)));
                 pr_totalBytes := contentLength |})
           received
    else [].
Proof.
  revert downloadedBytes.
  induction received as [| chunk rest IH]; intros downloadedBytes.
  - simpl. destruct (reports && (0 <? contentLength)); reflexivity.
  - cbn [on_data].
    specialize (IH (downloadedBytes + Z.of_nat (length chunk))).
    destruct (on_data reports contentLength rest
                (downloadedBytes + Z.of_nat (length chunk)))
      as [total calls]. cbn [snd] in *. subst calls.
    destruct (reports && (0 <? contentLength)); [| reflexivity].
    cbn [imap app]. f_equal.
    + f_equal. simpl. rewrite app_nil_r. reflexivity.
    + apply imap_ext. intros k x _. simpl. f_equal.
      rewrite length_app. lia.
Qed.

End ImageDownloaderMore.

(* ===================================================================== *)
(** * Further theorems: the two retry loops                               *)
(* ===================================================================== *)

Module RetryFacts.
Import Helpers ManagerFactory.

(** ** ManagerFactory.createWithRetry *)

Lemma createWithRetry_loop_fails {M : Type} (name : string)
    (create : Z -> M + string) (n : Z) (msg : Z -> string) :
  (forall j, 1 <= j <= n -> create j = inr (msg j)) ->
  forall (fuel : nat) (a : Z) (lastError : option string) (log : CreateLog),
    1 <= a ->
    n + 1 - a <= Z.of_nat fuel ->
    createWithRetry_loop fuel name create n a lastError log
    = Some (inr (failure_text name n
                   (if a <=? n then Some (msg n) else lastError)),
            {| create_calls := create_calls log + Z.to_nat (n + 1 - a);
               timeouts := timeouts log ++ (retry_delay <$> seqZ a (n - a)) |}).
Proof.
  intros Hfail.
  induction fuel as [| fuel IH]; intros a lastError log Ha Hfuel.
  - simpl. assert (Hdone : (a <=? n) = false) by lia. rewrite Hdone.
    rewrite seqZ_nil by lia. replace (Z.to_nat (n + 1 - a)) with 0%nat by lia.
    destruct log as [c w]. simpl. rewrite Nat.add_0_r, app_nil_r.
    reflexivity.
  - cbn [createWithRetry_loop].
    destruct (a <=? n) eqn:Hle.
    + rewrite (Hfail a) by lia.
      rewrite IH by lia.
      f_equal. f_equal.
      * f_equal. destruct (a + 1 <=? n) eqn:Hnext; [reflexivity |].
        replace a with n by lia. reflexivity.
      * destruct (a <? n) eqn:Hlt; destruct log as [c w]; simpl.
        -- f_equal; [lia |].
           rewrite (seqZ_cons a (n - a)) by lia. rewrite fmap_cons.
           rewrite <- app_assoc. simpl.
           replace (Z.succ a) with (a + 1) by lia.
           replace (Z.pred (n - a)) with (n - (a + 1)) by lia.
           reflexivity.
        -- f_equal; [lia |].
           rewrite !seqZ_nil by lia. reflexivity.
    + rewrite seqZ_nil by lia.
      replace (Z.to_nat (n + 1 - a)) with 0%nat by lia.
      destruct log as [c w]. simpl. rewrite Nat.add_0_r, app_nil_r.
      reflexivity.
Qed.

Lemma createWithRetry_loop_succeeds {M : Type} (name : string)
    (create : Z -> M + string) (n k : Z) (msg : Z -> string)
    (manager : M) :
  k <= n ->
  (forall j, 1 <= j < k -> create j = inr (msg j)) ->
  create k = inl manager ->
  forall (fuel : nat) (a : Z) (lastError : option string) (log : CreateLog),
    1 <= a <= k ->
    k + 1 - a <= Z.of_nat fuel ->
    createWithRetry_loop fuel name create n a lastError log
    = Some (inl manager,
            {| create_calls := create_calls log + Z.to_nat (k + 1 - a);
               timeouts := timeouts log ++ (retry_delay <$> seqZ a (k - a)) |}).
Proof.
  intros Hkn Hfail Hok.
  induction fuel as [| fuel IH]; intros a lastError log Ha Hfuel; [lia |].
  cbn [createWithRetry_loop].
  assert (Hle : (a <=? n) = true) by lia. rewrite Hle.
  destruct (decide (a = k)) as [-> | Hne].
  - rewrite Hok. f_equal. f_equal.
    replace (k - k) with 0 by lia. replace (k + 1 - k) with 1 by lia.
    change (Z.to_nat 1) with 1%nat.
    destruct log as [c w]. unfold created. simpl. rewrite app_nil_r.
    f_equal. lia.
  - rewrite (Hfail a) by lia.
    assert (Hlt : (a <? n) = true) by lia. rewrite Hlt.
    rewrite IH by lia.
    f_equal. f_equal. destruct log as [c w]. simpl. f_equal; [lia |].
    rewrite (seqZ_cons a (k - a)) by lia. rewrite fmap_cons.
    rewrite <- app_assoc. simpl.
    replace (Z.succ a) with (a + 1) by lia.
    replace (Z.pred (k - a)) with (k - (a + 1)) by lia.
    reflexivity.
Qed.

Lemma retry_delay_bounds (attempt : Z) :
  1 <= attempt -> 1000 <= retry_delay attempt <= 10000.
Proof.
  intros H. unfold retry_delay.
  assert (0 < 2 ^ (attempt - 1)) by (apply Z.pow_pos_nonneg; lia).
  lia.
Qed.

(** X21.  When every call of [create] throws, [createWithRetry] with
    [maxRetries = n] calls it [n] times in all, not [n + 1]: it waits
    after each failure but the last, [min(1000 * 2^(k-1), 10000)] ms
    after the k-th, and then throws an error that carries the message of
    the last failure.  With [n <= 0] it never calls [create] and the
    message it throws ends in [undefined]. *)
Theorem createWithRetry_gives_up {M : Type} (name : string)
    (create : Z -> M + string) (n : Z) (msg : Z -> string) :
  (forall j, 1 <= j <= n -> create j = inr (msg j)) ->
  createWithRetry (Z.to_nat n) name create n
  = Some (inr (failure_text name n
                 (if 1 <=? n then Some (msg n) else None)),
          {| create_calls := Z.to_nat n;
             timeouts := retry_delay <$> seqZ 1 (n - 1) |})
  /\ Forall (λ d, 1000 <= d <= 10000) (retry_delay <$> seqZ 1 (n - 1)).
Proof.
  intros Hfail. split.
  - unfold createWithRetry.
    rewrite (createWithRetry_loop_fails name create n msg Hfail) by lia.
    simpl. do 3 f_equal. lia.
  - apply Forall_fmap, Forall_forall. intros j Hj.
    apply elem_of_seqZ in Hj. simpl. apply retry_delay_bounds. lia.
Qed.

Lemma createWithRetry_gives_up_witness :
  createWithRetry (M := unit) 3 "site" (λ _, inr "down") 3
  = Some (inr "Failed to create manager for site after 3 attempts: down",
          {| create_calls := 3; timeouts := [1000; 2000] |}).
Proof.
  exact (proj1 (createWithRetry_gives_up (M := unit) "site"
                  (λ _, inr "down") 3 (λ _, "down")
                  (λ j _, eq_refl))).
Defined.

Example createWithRetry_with_no_attempts :
  createWithRetry (M := unit) 0 "site" (λ _, inl tt) 0
  = Some (inr "Failed to create manager for site after 0 attempts: undefined",
          no_create_log).
Proof. reflexivity. Qed.

(** X22.  When the k-th call of [create] is the first to succeed, with
    [k <= maxRetries], [createWithRetry] returns its manager after [k]
    calls and [k - 1] waits, of [min(1000 * 2^(j-1), 10000)] ms after
    the j-th failure. *)
Theorem createWithRetry_returns_the_first_manager {M : Type}
    (name : string) (create : Z -> M + string) (n k : Z)
    (msg : Z -> string) (manager : M) :
  1 <= k <= n ->
  (forall j, 1 <= j < k -> create j = inr (msg j)) ->
  create k = inl manager ->
  createWithRetry (Z.to_nat n) name create n
  = Some (inl manager,
          {| create_calls := Z.to_nat k;
             timeouts := retry_delay <$> seqZ 1 (k - 1) |}).
Proof.
  intros Hk Hfail Hok. unfold createWithRetry.
  rewrite (createWithRetry_loop_succeeds name create n k msg manager
             ltac:(lia) Hfail Hok) by lia.
  simpl. do 3 f_equal. lia.
Qed.

Lemma createWithRetry_returns_the_first_manager_witness :
  createWithRetry 5 "site"
    (λ j, if j <? 3 then inr "down" else inl 7) 5
  = Some (inl 7, {| create_calls := 3; timeouts := [1000; 2000] |}).
Proof.
  apply (createWithRetry_returns_the_first_manager "site"
           (λ j, if j <? 3 then inr "down" else inl 7) 5 3
           (λ _, "down") 7).
  - lia.
  - intros j Hj. assert (H : (j <? 3) = true) by lia. rewrite H.
    reflexivity.
  - reflexivity.
Defined.

(** ** Helpers.retry *)

Lemma retry_loop_fails {T : Type} (fn : Z -> T + string) (n : Z)
    (mult : Q) (msg : Z -> string) :
  (forall j, 1 <= j <= n + 1 -> fn j = inr (msg j)) ->
  forall (fuel : nat) (a : Z) (lastError : option string) (log : RetryLog),
    1 <= a ->
    n + 2 - a <= Z.of_nat fuel ->
    retry_loop fuel fn n mult a lastError log
    = Some (inr (if a <=? n + 1 then Some (msg (n + 1)) else lastError),
            {| fn_calls := fn_calls log + Z.to_nat (n + 2 - a);
               sleeps := sleeps log
                         ++ (retry_sleep mult <$> seqZ a (n + 1 - a)) |}).
Proof.
  intros Hfail.
  induction fuel as [| fuel IH]; intros a lastError log Ha Hfuel.
  - simpl. assert (Hdone : (a <=? n + 1) = false) by lia. rewrite Hdone.
    rewrite seqZ_nil by lia. replace (Z.to_nat (n + 2 - a)) with 0%nat by lia.
    destruct log as [c w]. simpl. rewrite Nat.add_0_r, app_nil_r.
    reflexivity.
  - cbn [retry_loop].
    destruct (a <=? n + 1) eqn:Hle.
    + rewrite (Hfail a) by lia.
      rewrite IH by lia.
      f_equal. f_equal.
      * f_equal. destruct (a + 1 <=? n + 1) eqn:Hnext; [reflexivity |].
        replace a with (n + 1) by lia. reflexivity.
      * destruct (a <=? n) eqn:Hlt; destruct log as [c w]; simpl.
        -- f_equal; [lia |].
           rewrite (seqZ_cons a (n + 1 - a)) by lia. rewrite fmap_cons.
           rewrite <- app_assoc. simpl.
           replace (Z.succ a) with (a + 1) by lia.
           replace (Z.pred (n + 1 - a)) with (n + 1 - (a + 1)) by lia.
           reflexivity.
        -- f_equal; [lia |].
           rewrite !seqZ_nil by lia. reflexivity.
    + rewrite seqZ_nil by lia.
      replace (Z.to_nat (n + 2 - a)) with 0%nat by lia.
      destruct log as [c w]. simpl. rewrite Nat.add_0_r, app_nil_r.
      reflexivity.
Qed.

(** X23.  When every call of [fn] throws, [Helpers.retry] with
    [maxRetries = n] calls it [n + 1] times, sleeps after each failure
    but the last, [1000 * backoffMultiplier^(k-1)] ms after the k-th and
    with no ceiling, and throws the last error.  With [n < 0] it makes
    no call and throws the unassigned [lastError]. *)
Theorem retry_gives_up {T : Type} (fn : Z -> T + string) (n : Z)
    (mult : Q) (msg : Z -> string) :
  (forall j, 1 <= j <= n + 1 -> fn j = inr (msg j)) ->
  retry (Z.to_nat (n + 1)) fn n mult
  = Some (inr (if 1 <=? n + 1 then Some (msg (n + 1)) else None),
          {| fn_calls := Z.to_nat (n + 1);
             sleeps := retry_sleep mult <$> seqZ 1 n |}).
Proof.
  intros Hfail. unfold retry.
  rewrite (retry_loop_fails fn n mult msg Hfail) by lia.
  simpl. replace (n + 2 - 1) with (n + 1) by lia.
  replace (n + 1 - 1) with n by lia. reflexivity.
Qed.

Lemma retry_gives_up_witness :
  retry (T := unit) 4 (λ _, inr "down") 3 2
  = Some (inr (Some "down"),
          {| fn_calls := 4;
             sleeps := retry_sleep 2 <$> [1; 2; 3] |}).
Proof.
  exact (retry_gives_up (T := unit) (λ _, inr "down") 3 2 (λ _, "down")
           (λ j _, eq_refl)).
Defined.

End RetryFacts.

(* ===================================================================== *)
(** * Further theorems: ImageDownloader.downloadChapter                   *)
(* ===================================================================== *)

Module ChapterFacts.
Import RequestQueue ProgressTracker QueueLedger Chapter.

(** The record [start] opens stays among the active ones, with its
    [totalPages] and a status that is not final, through the reports
    made while the batches run; nothing is filed meanwhile. *)
Lemma reports_keep_the_record (progressId : string) (total : Z)
    (rs : list Report) :
  forall (t : Tracker) (e : ProgressEntry),
    activeProgress t !! progressId = Some e ->
    totalPages e = total ->
    terminal (status e) = false ->
    exists e',
      activeProgress (apply_all (report_op progressId <$> rs) t)
        !! progressId = Some e'
      /\ totalPages e' = total
      /\ terminal (status e') = false
      /\ completedProgress (apply_all (report_op progressId <$> rs) t)
         = completedProgress t.
Proof.
  unfold apply_all.
  induction rs as [| r rs IH]; intros t e E Htotal Hstatus.
  - exists e. repeat split; assumption.
  - rewrite fmap_cons. cbn [foldl].
    destruct r as [now index downloaded size | now]; cbn [report_op apply].
    + destruct (TrackerStatsFacts.updateProgress_entry now progressId
                  (Z.of_nat index + 1)
                  (Some {| ad_downloadedBytes := Some downloaded;
                           ad_totalBytes := Some size;
                           ad_error := None |}) t e E)
        as (e5 & Ha & Hc & _ & Hs & _ & Ht).
      destruct (IH (updateProgress now progressId (Z.of_nat index + 1)
                      (Some {| ad_downloadedBytes := Some downloaded;
                               ad_totalBytes := Some size;
                               ad_error := None |}) t) e5)
        as (e' & E' & Ht' & Hs' & Hc').
      * rewrite Ha. apply lookup_insert_eq.
      * rewrite Ht. exact Htotal.
      * rewrite Hs. reflexivity.
      * exists e'. repeat split; try assumption.
        rewrite Hc'. exact Hc.
    + destruct (TrackerStatsFacts.calculateSpeed_id now e)
        as (_ & Hs & _ & Ht).
      destruct (IH (updateAllProgress now t) (calculateSpeed now e))
        as (e' & E' & Ht' & Hs' & Hc').
      * cbn [updateAllProgress activeProgress].
        rewrite lookup_fmap, E. reflexivity.
      * rewrite Ht. exact Htotal.
      * rewrite Hs. exact Hstatus.
      * exists e'. repeat split; try assumption.
Qed.

Section Download.

Variable config : QueueConfig.
Variable random : nat -> Q.
Variable hostname : string -> option string.
Variable retryTimeout : nat -> Z.
Variable schedule : Z -> list Move.

Local Abbreviation downloadChapter :=
  (downloadChapter config random hostname retryTimeout schedule).


(** The same when no ['error'] goes without a listener: none is left
    behind. *)
Lemma chapter_batches_return_clean (tasks : list (Task PageResult))
    (q : QueueState PageResult) :
  1 <= batchSize config ->
  no_unhandled_error config tasks q ->
  exists q',
    addBatch config random hostname retryTimeout schedule (length tasks)
      tasks
      {| opt_batchSize := Some (Z.min (batchSize config) 3);
         delayBetweenBatches := Some 500;
         onBatchComplete := true |} q
    = Some (fulfilled_of config tasks, q')
    /\ unhandled q' = unhandled q.
Proof.
  intros Hsize Hsafe. unfold addBatch.
  destruct (RequestQueueFacts.addBatch_loop_returns config random hostname
              retryTimeout schedule
              (λ s', errorListener s' = errorListener q
                     /\ unhandled s' = unhandled q)
              (RequestQueueFacts.kept_unhandled random _ _ _)
              ltac:(intros rs i s0 H0; exact H0)
              (length tasks) tasks
              (Z.min (batchSize config) 3) 500 true ltac:(lia) 0 [] q)
    as (q' & Hrun & _ & Hun); [lia | lia | | tauto |].
  - destruct Hsafe as [Hlisten | Hall]; [left | right; exact Hall].
    intros e s0 [Hl Hu]. split; [exact Hl |].
    rewrite RequestQueueFacts.unhandled_relay, Hl, Hlisten, app_nil_r.
    exact Hu.
  - exists q'. split; [| exact Hun].
    etransitivity; [exact Hrun |]. f_equal. f_equal.
    rewrite RequestQueueFacts.successfulResults_omap. reflexivity.
Qed.

(** X24.  When the directory can be created, the chapter is not skipped,
    the metadata file can be written, and no page is rejected for good
    (or a listener for ['error'] is registered on the queue, which the
    downloader itself never does), [downloadChapter] returns and no
    ['error'] event is left without a listener.  The pages it reports
    are the tasks that fulfilled with [success] set, and [success] is
    whether there is at least one.  Whatever that number is, the tracker
    files the chapter as [COMPLETED] with [currentPage] equal to
    [totalPages]. *)
Theorem downloadChapter_files_the_chapter_as_completed
    (w : Surroundings) (tasks : list (Task PageResult)) (total : Z)
    (series episode : string) (skipExisting : bool)
    (q : QueueState PageResult) (t : Tracker) (episodePath : string) :
  createEpisodeDirectory w = inl episodePath ->
  skipExisting && isChapterCompleted w = false ->
  saveEpisodeMetadata w = None ->
  1 <= batchSize config ->
  no_unhandled_error config tasks q ->
  exists r q' t' e,
    downloadChapter (length tasks) w tasks total series episode
      skipExisting q t = Some (r, q', t')
    /\ unhandled q' = unhandled q
    /\ dr_downloadedPages r
       = Z.of_nat (length (List.filter page_success
                             (fulfilled_of config tasks)))
    /\ dr_success r = (0 <? dr_downloadedPages r)
    /\ dr_error r = None
    /\ completedProgress t' !! (series +:+ "-" +:+ episode) = Some e
    /\ status e = COMPLETED
    /\ currentPage e = total
    /\ activeProgress t' !! (series +:+ "-" +:+ episode) = None.
Proof.
  intros Hdir Hskip Hsave Hsize Hsafe.
  destruct (chapter_batches_return_clean tasks q Hsize Hsafe)
    as (q' & Hrun & Hun).
  unfold Chapter.downloadChapter.
  rewrite Hdir, Hskip, Hrun, Hsave.
  set (progressId := series +:+ "-" +:+ episode).
  set (t1 := start (startedAt w) progressId total None None t).
  destruct (reports_keep_the_record progressId total (reports w) t1
              {| id := progressId; seriesName := "Unknown Series";
                 episodeName := "Unknown Episode"; status := PENDING;
                 currentPage := 0; totalPages := total;
                 downloadedBytes := 0; totalBytes := 0;
                 startTime := startedAt w; lastUpdate := startedAt w;
                 speed := 0; errors := []; lastDownloadedBytes := None |})
    as (e' & E' & Ht' & _ & _).
  { unfold t1, start. cbn [activeProgress]. apply lookup_insert_eq. }
  { reflexivity. }
  { reflexivity. }
  eexists _, q', _, _. split; [reflexivity |].
  split; [exact Hun |].
  cbn [dr_downloadedPages dr_success dr_error].
  split; [reflexivity |]. split; [reflexivity |]. split; [reflexivity |].
  unfold complete. rewrite E'.
  cbn [completedProgress activeProgress].
  rewrite lookup_insert_eq, lookup_delete_eq.
  split; [reflexivity |]. split; [reflexivity |].
  split; [exact Ht' | reflexivity].
Qed.


End Download.

Lemma downloadChapter_files_the_chapter_as_completed_witness :
  exists r q' t' e,
    downloadChapter default_config (λ _, 0%Q) (λ _, None) (λ _, 1000)
      Examples.in_turn 2
      plain_run [page 10; late_page 20] 2 "series" "episode-1" true
      (new_queue 1700000000000) new_tracker = Some (r, q', t')
    /\ unhandled q' = unhandled (new_queue (T := PageResult) 1700000000000)
    /\ dr_downloadedPages r
       = Z.of_nat (length (List.filter page_success
                             (fulfilled_of default_config
                                [page 10; late_page 20])))
    /\ dr_success r = (0 <? dr_downloadedPages r)
    /\ dr_error r = None
    /\ completedProgress t' !! ("series" +:+ "-" +:+ "episode-1") = Some e
    /\ status e = COMPLETED
    /\ currentPage e = 2
    /\ activeProgress t' !! ("series" +:+ "-" +:+ "episode-1") = None.
Proof.
  apply (downloadChapter_files_the_chapter_as_completed default_config
           (λ _, 0%Q) (λ _, None) (λ _, 1000) Examples.in_turn plain_run
           [page 10; late_page 20] 2 "series" "episode-1" true
           (new_queue 1700000000000) new_tracker
           "downloads/series/episode-1").
  - reflexivity.
  - reflexivity.
  - reflexivity.
  - simpl. lia.
  - right. repeat constructor.
Defined.

(** Both pages fail for good: the call comes to its [return] with no
    page and the tracker says the chapter is complete, at two pages of
    two; but the queue of the downloader, on which nothing listens for
    ['error'], has emitted two such events by then. *)
Example failed_chapter_is_shown_complete :
  (downloadChapter default_config (λ _, 0%Q) (λ _, None) (λ _, 1000)
     Examples.in_turn 2
     plain_run [broken_page; broken_page] 2 "series" "episode-1" true
     (new_queue 1700000000000) new_tracker)
    ≫= (λ out,
          (λ e, (dr_success out.1.1, dr_downloadedPages out.1.1,
                 status e, currentPage e, unhandled out.1.2))
            <$> completedProgress out.2 !! "series-episode-1")
  = Some (false, 0, COMPLETED, 2,
          [OtherError "Download failed"; OtherError "Download failed"]).
Proof. vm_compute. reflexivity. Qed.


End ChapterFacts.
